(** * CassetteChronicals.Studio: the window system of [Homepage/javascript/scripts.js]

    A shallow embedding of the drag singleton, of [WindowHost] and of [Window],
    and the properties of the design document that concern them.

    Conventions.
    - JavaScript numbers that hold pixel coordinates, sizes, thresholds and
      the z-index counter are modelled as [Z]: the code only adds, subtracts,
      multiplies and compares them, which is exact on integers in the range
      a page can reach.
    - What the layout engine answers ([getBoundingClientRect],
      [getComputedStyle]) is an input of the operation that asks.
    - An object is a reference (an index into a store); the DOM elements the
      code writes to are kept in a store of their own, so that a [Window] and
      its [root] element alias as they do in the source. *)

From stdpp Require Import list strings functions.
From Stdlib Require Import ZArith Lia.

Local Open Scope Z_scope.

(** The part of a mouse event the code reads. *)
Record MouseEvent := mkMouseEvent { clientX : Z; clientY : Z }.

(** JavaScript truthiness of a number that is not NaN: non-zero. *)
Definition truthy (n : Z) : bool := negb (n =? 0).

(* ====================================================================== *)
(** * The drag singleton (scripts.js, lines 7-41) *)
(* ====================================================================== *)

Module Drag.

Section Controller.

(** The drag target is duck-typed: any object with [dragMove] and
    [dragEnd]. [Obj] is the type of such objects, [World] the state their
    callbacks act on, [Err] the values they may throw. A callback returns
    the new world and [Some err] when it threw [err]. *)
Context {Obj World Err : Type}.
Variable dragMove : Obj -> Z -> Z -> MouseEvent -> World -> World * option Err.
Variable dragEnd : Obj -> World -> World * option Err.

(** Calls that leave the controller, in the order they are made. *)
Inductive Effect :=
| EPreventDefault (e : MouseEvent)
| ECallDragMove (obj : Obj) (dx dy : Z) (e : MouseEvent)
| ECallDragEnd (obj : Obj)
| EConsoleError (msg : string) (err : Err).

(** The closure variables [object], [x], [y], [_threshold], the world of
    the targets and the record of the calls made. [x], [y] and
    [_threshold] are undefined until the first [start], which assigns all
    three before anything reads them. *)
Record Env := mkEnv {
  object : option Obj;
  x : Z;
  y : Z;
  _threshold : Z;
  world : World;
  log : list Effect
}.

Definition set_object (o : option Obj) (env : Env) : Env :=
  mkEnv o (x env) (y env) (_threshold env) (world env) (log env).
Definition set_x (v : Z) (env : Env) : Env :=
  mkEnv (object env) v (y env) (_threshold env) (world env) (log env).
Definition set_y (v : Z) (env : Env) : Env :=
  mkEnv (object env) (x env) v (_threshold env) (world env) (log env).
Definition set_threshold (v : Z) (env : Env) : Env :=
  mkEnv (object env) (x env) (y env) v (world env) (log env).
Definition set_world (w : World) (env : Env) : Env :=
  mkEnv (object env) (x env) (y env) (_threshold env) w (log env).
Definition emit (ev : Effect) (env : Env) : Env :=
  mkEnv (object env) (x env) (y env) (_threshold env) (world env) (log env ++ [ev]).

(** ** Statements that may throw *)

Inductive completion (A : Type) :=
| Return (a : A)
| Throw (err : Err).
Arguments Return {A} a.
Arguments Throw {A} err.

Definition M (A : Type) : Type := Env -> Env * completion A.

Definition ret {A} (a : A) : M A := fun env => (env, Return a).

Definition bind {A B} (m : M A) (k : A -> M B) : M B :=
  fun env =>
    match m env with
    | (env', Return a) => k a env'
    | (env', Throw err) => (env', Throw err)
    end.

Definition seq {B} (m : M unit) (k : M B) : M B := bind m (fun _ => k).

Definition gets {A} (f : Env -> A) : M A := fun env => (env, Return (f env)).
Definition modify (f : Env -> Env) : M unit := fun env => (f env, Return tt).

(** [try { body } catch (err) { handler err }] *)
Definition try_catch (body : M unit) (handler : Err -> M unit) : M unit :=
  fun env =>
    match body env with
    | (env', Return tt) => (env', Return tt)
    | (env', Throw err) => handler err env'
    end.

Definition console_error (msg : string) (err : Err) : M unit :=
  modify (emit (EConsoleError msg err)).

(** [object.dragMove(dx, dy, e)] and [object.dragEnd()] *)
Definition call_dragMove (obj : Obj) (dx dy : Z) (e : MouseEvent) : M unit :=
  fun env =>
    let env1 := emit (ECallDragMove obj dx dy e) env in
    match dragMove obj dx dy e (world env1) with
    | (w, None) => (set_world w env1, Return tt)
    | (w, Some err) => (set_world w env1, Throw err)
    end.

Definition call_dragEnd (obj : Obj) : M unit :=
  fun env =>
    let env1 := emit (ECallDragEnd obj) env in
    match dragEnd obj (world env1) with
    | (w, None) => (set_world w env1, Return tt)
    | (w, Some err) => (set_world w env1, Throw err)
    end.

Notation "m1 ;;; m2" := (seq m1 m2)
  (at level 100, m2 at level 200, right associativity).
Notation "'let*' v ':=' m 'in' k" := (bind m (fun v => k))
  (at level 10, v name, m at level 100, k at level 200).

(** ** [instance.start] (lines 12-19); [threshold || 0] maps an omitted
    threshold to 0, which is how it is passed here. *)
Definition start (obj : Obj) (e : MouseEvent) (threshold : Z) : M unit :=
  modify (emit (EPreventDefault e)) ;;;
  modify (set_object (Some obj)) ;;;
  modify (set_threshold (if truthy threshold then threshold else 0)) ;;;
  (let* t := gets _threshold in modify (set_threshold (t * t))) ;;;
  modify (set_x (clientX e)) ;;;
  modify (set_y (clientY e)).

(** Lines 29-31: the part of the mousemove handler after the threshold
    test. *)
Definition dispatch_move (obj : Obj) (dx dy : Z) (e : MouseEvent) : M unit :=
  try_catch (call_dragMove obj dx dy e) (console_error "dragMove error") ;;;
  modify (set_x (clientX e)) ;;;
  modify (set_y (clientY e)).

(** ** The [mousemove] listener (lines 21-32) *)
Definition mousemove (e : MouseEvent) : M unit :=
  let* o := gets object in
  match o with
  | None => ret tt
  | Some obj =>
      let* x0 := gets x in
      let* y0 := gets y in
      let dx := clientX e - x0 in
      let dy := clientY e - y0 in
      let* t := gets _threshold in
      if truthy t then
        if dx * dx + dy * dy <? t then ret tt
        else modify (set_threshold 0) ;;; dispatch_move obj dx dy e
      else dispatch_move obj dx dy e
  end.

(** ** The [mouseup] listener (lines 34-38) *)
Definition mouseup : M unit :=
  let* o := gets object in
  match o with
  | None => ret tt
  | Some obj =>
      try_catch
        (let* t := gets _threshold in
         if negb (truthy t) then call_dragEnd obj else ret tt)
        (console_error "dragEnd error") ;;;
      modify (set_object None)
  end.

(** ** Events and runs *)
Inductive Event :=
| Start (obj : Obj) (e : MouseEvent) (threshold : Z)
| MouseMove (e : MouseEvent)
| MouseUp.

Definition handle (ev : Event) : M unit :=
  match ev with
  | Start obj e threshold => start obj e threshold
  | MouseMove e => mousemove e
  | MouseUp => mouseup
  end.

(** The environment after an event; an exception that leaves a listener
    ends that listener only. *)
Definition step (env : Env) (ev : Event) : Env := fst (handle ev env).

Definition run (evs : list Event) (env : Env) : Env := fold_left step evs env.

(** Squared distance of the pointer at [e] from the point [(px, py)]. *)
Definition dist2 (e : MouseEvent) (px py : Z) : Z :=
  (clientX e - px) * (clientX e - px) + (clientY e - py) * (clientY e - py).

Definition is_move_call (ev : Effect) : bool :=
  match ev with ECallDragMove _ _ _ _ => true | _ => false end.
Definition is_end_call (ev : Effect) : bool :=
  match ev with ECallDragEnd _ => true | _ => false end.

Definition move_calls (l : list Effect) : list Effect := List.filter is_move_call l.
Definition end_calls (l : list Effect) : list Effect := List.filter is_end_call l.

(** The pointer at [e] is still within the pending threshold. *)
Definition pending (env : Env) (e : MouseEvent) : Prop :=
  _threshold env ≠ 0 ∧ dist2 e (x env) (y env) < _threshold env.

(** The move at [e] is handed to the target. *)
Definition dispatches (env : Env) (e : MouseEvent) : Prop :=
  _threshold env = 0 ∨ _threshold env ≤ dist2 e (x env) (y env).

(** The console line a caught exception leaves. *)
Definition caught (msg : string) (r : option Err) : list Effect :=
  match r with
  | None => []
  | Some err => [EConsoleError msg err]
  end.

End Controller.

Arguments Return {Err A} a.
Arguments Throw {Err A} err.

(** ** Targets for the examples: one whose callbacks return, one whose
    callbacks throw. *)
Definition quiet_move (o : unit) (dx dy : Z) (e : MouseEvent) (w : unit)
  : unit * option unit := (w, None).
Definition quiet_end (o : unit) (w : unit) : unit * option unit := (w, None).
Definition broken_move (o : unit) (dx dy : Z) (e : MouseEvent) (w : unit)
  : unit * option unit := (w, Some tt).
Definition broken_end (o : unit) (w : unit) : unit * option unit := (w, Some tt).

(** No drag is in progress. *)
Definition idle : @Env unit unit unit := mkEnv None 0 0 0 tt [].

End Drag.

(* ====================================================================== *)
(** * WindowHost and Window (scripts.js, lines 46-310) *)
(* ====================================================================== *)

Module WS.

(** A DOM element and a [Window] instance are known by reference. *)
Abbreviation ElemId := nat (only parsing).
Abbreviation WinRef := nat (only parsing).

(** A [DOMRect], as [getBoundingClientRect] returns it. *)
Record Rect := mkRect {
  rect_left : Z;
  rect_top : Z;
  rect_width : Z;
  rect_height : Z
}.

(** The object literal [{ x, y, width, height }] kept in [oldPosition]. *)
Record Position := mkPosition {
  pos_x : Z;
  pos_y : Z;
  pos_width : Z;
  pos_height : Z
}.

(** A value assigned to a style property: [n + 'px'], a number, or a
    keyword or the empty string. *)
Inductive CssValue :=
| Px (n : Z)
| Num (n : Z)
| Kw (s : string).

(** ** The DOM elements the code touches *)

(** [classList] is an ordered set of tokens. *)
Definition classList_contains (c : string) (l : list string) : bool :=
  bool_decide (c ∈ l).
Definition classList_add (c : string) (l : list string) : list string :=
  if classList_contains c l then l else l ++ [c].
Definition classList_remove (c : string) (l : list string) : list string :=
  filter (λ c', c' ≠ c) l.

(** [window_body] is what [querySelector('.window-body')] finds under the
    element; [chrome] is the sum [titleH + padV + bodyBorderV] that
    [updatePosition] measures on it. *)
Record Element := mkElement {
  id : string;
  csWindow : option WinRef;
  classList : list string;
  style : string → option CssValue;
  window_body : option ElemId;
  chrome : Z
}.

Definition set_csWindow (r : option WinRef) (el : Element) : Element :=
  mkElement (id el) r (classList el) (style el) (window_body el) (chrome el).
Definition set_classList (f : list string → list string) (el : Element) : Element :=
  mkElement (id el) (csWindow el) (f (classList el)) (style el) (window_body el) (chrome el).
Definition set_style (prop : string) (v : CssValue) (el : Element) : Element :=
  mkElement (id el) (csWindow el) (classList el) (<[prop := Some v]> (style el))
            (window_body el) (chrome el).

(** ** [Window] instances

    [host] is left out: the page has one [WindowHost] and every [Window] is
    constructed by it. [titleBarText] only receives listeners. *)
Record Window := mkWindow {
  root : ElemId;
  resizeX : Z;
  resizeY : Z;
  resizeCursor : string;
  resizing : bool;
  maximized : bool;
  oldPosition : option Position;
  x : Z;
  y : Z;
  width : Z;
  height : Z
}.

Definition set_resize (rx ry : Z) (cur : string) (w : Window) : Window :=
  mkWindow (root w) rx ry cur (resizing w) (maximized w) (oldPosition w)
           (x w) (y w) (width w) (height w).
Definition set_resizing (b : bool) (w : Window) : Window :=
  mkWindow (root w) (resizeX w) (resizeY w) (resizeCursor w) b (maximized w) (oldPosition w)
           (x w) (y w) (width w) (height w).
Definition set_maximized (b : bool) (w : Window) : Window :=
  mkWindow (root w) (resizeX w) (resizeY w) (resizeCursor w) (resizing w) b (oldPosition w)
           (x w) (y w) (width w) (height w).
Definition set_oldPosition (p : option Position) (w : Window) : Window :=
  mkWindow (root w) (resizeX w) (resizeY w) (resizeCursor w) (resizing w) (maximized w) p
           (x w) (y w) (width w) (height w).
Definition set_x (v : Z) (w : Window) : Window :=
  mkWindow (root w) (resizeX w) (resizeY w) (resizeCursor w) (resizing w) (maximized w)
           (oldPosition w) v (y w) (width w) (height w).
Definition set_y (v : Z) (w : Window) : Window :=
  mkWindow (root w) (resizeX w) (resizeY w) (resizeCursor w) (resizing w) (maximized w)
           (oldPosition w) (x w) v (width w) (height w).
Definition set_width (v : Z) (w : Window) : Window :=
  mkWindow (root w) (resizeX w) (resizeY w) (resizeCursor w) (resizing w) (maximized w)
           (oldPosition w) (x w) (y w) v (height w).
Definition set_height (v : Z) (w : Window) : Window :=
  mkWindow (root w) (resizeX w) (resizeY w) (resizeCursor w) (resizing w) (maximized w)
           (oldPosition w) (x w) (y w) (width w) v.

(** [Object.assign(this, this.oldPosition)] *)
Definition assign (p : Position) (w : Window) : Window :=
  set_height (pos_height p) (set_width (pos_width p) (set_y (pos_y p) (set_x (pos_x p) w))).

(** ** The host *)
Record WindowHost := mkHost {
  edgeMaximize : bool;
  windows : list WinRef;
  activeWindow : option WinRef;
  maxZIndex : Z
}.

(** The state of the page: the elements, the [Window] instances (a
    reference is an index), the host, and [document.body.style.cursor]. *)
Record State := mkState {
  dom : ElemId → Element;
  heap : list Window;
  host : WindowHost;
  body_cursor : string
}.

Definition set_dom (d : ElemId → Element) (s : State) : State :=
  mkState d (heap s) (host s) (body_cursor s).
Definition set_heap (h : list Window) (s : State) : State :=
  mkState (dom s) h (host s) (body_cursor s).
Definition set_host (h : WindowHost) (s : State) : State :=
  mkState (dom s) (heap s) h (body_cursor s).
Definition set_body_cursor (c : string) (s : State) : State :=
  mkState (dom s) (heap s) (host s) c.

Definition update_elem (e : ElemId) (f : Element → Element) (s : State) : State :=
  set_dom (alter f e (dom s)) s.
Definition update_window (this : WinRef) (f : Window → Window) (s : State) : State :=
  set_heap (alter f this (heap s)) s.

(** [new WindowHost(root)] (lines 47-61); the two listeners it registers are
    [background_mousedown] and [viewport_resize] below. *)
Definition new_WindowHost : WindowHost := mkHost true [] None 1000.

Definition new_page (d : ElemId → Element) : State := mkState d [] new_WindowHost "".

(** ** [Window] methods *)

(** [setActive(active)] (lines 198-200) *)
Definition setActive (this : WinRef) (active : bool) (s : State) : State :=
  match heap s !! this with
  | None => s
  | Some w =>
      if active then update_elem (root w) (set_classList (classList_add "active")) s
      else update_elem (root w) (set_classList (classList_remove "active")) s
  end.

(** [updatePosition()] (lines 260-283) *)
Definition updatePosition (this : WinRef) (s : State) : State :=
  match heap s !! this with
  | None => s
  | Some w =>
      let s := update_elem (root w) (set_style "left" (Px (x w))) s in
      let s := update_elem (root w) (set_style "top" (Px (y w))) s in
      let s := update_elem (root w) (set_style "width" (Px (width w))) s in
      let s := update_elem (root w) (set_style "height" (Px (height w))) s in
      match window_body (dom s (root w)) with
      | None => s
      | Some body =>
          let bodyH := Z.max 0 (height w - chrome (dom s (root w))) in
          update_elem body (set_style "height" (Px bodyH)) s
      end
  end.

(** The assignments of [reposition()] to the fields of [this]
    (lines 246-256). *)
Definition reposition_this (hostRect : Rect) (w : Window) : Window :=
  if maximized w then
    set_height (rect_height hostRect)
      (set_width (rect_width hostRect) (set_y 0 (set_x 0 w)))
  else
    let w :=
      if y w <? 0 then set_y 0 w
      else if y w + 30 >? rect_height hostRect then set_y (rect_height hostRect - 30) w
      else w in
    if x w + width w <? 50 then set_x (50 - width w) w
    else if x w + 30 >? rect_width hostRect then set_x (rect_width hostRect - 30) w
    else w.

(** [reposition()] (lines 245-258); [hostRect] is
    [this.host.root.getBoundingClientRect()]. *)
Definition reposition (hostRect : Rect) (this : WinRef) (s : State) : State :=
  updatePosition this (update_window this (reposition_this hostRect) s).

(** [maximize()] (lines 285-298) *)
Definition maximize (hostRect : Rect) (this : WinRef) (s : State) : State :=
  match heap s !! this with
  | None => s
  | Some w =>
      let s := update_window this (set_maximized (negb (maximized w))) s in
      if negb (maximized w) then
        let s := update_elem (root w) (set_classList (classList_add "maximized")) s in
        let s := update_window this
                   (set_oldPosition (Some (mkPosition (x w) (y w) (width w) (height w)))) s in
        reposition hostRect this s
      else
        let s := update_elem (root w) (set_classList (classList_remove "maximized")) s in
        match oldPosition w with
        | Some p => reposition hostRect this (update_window this (assign p) s)
        | None => s
        end
  end.

(** ** [WindowHost] methods *)

(** [bringToFront(windowInstance)] (lines 93-98); the [root] of a [Window]
    is an element, hence never falsy. *)
Definition bringToFront (windowInstance : option WinRef) (s : State) : State :=
  match windowInstance with
  | None => s
  | Some wi =>
      match heap s !! wi with
      | None => s
      | Some w =>
          let h := host s in
          let s := set_host (mkHost (edgeMaximize h) (windows h) (activeWindow h)
                                    (maxZIndex h + 1)) s in
          update_elem (root w) (set_style "zIndex" (Num (maxZIndex (host s)))) s
      end
  end.

(** [focus(w)] (lines 83-90); [!==] compares references. *)
Definition focus (w : option WinRef) (s : State) : State :=
  let s :=
    match activeWindow (host s) with
    | Some a => if bool_decide (Some a ≠ w) then setActive a false s else s
    | None => s
    end in
  let h := host s in
  let s := set_host (mkHost (edgeMaximize h) (windows h) w (maxZIndex h)) s in
  match activeWindow (host s) with
  | Some a => bringToFront (Some a) (setActive a true s)
  | None => s
  end.

(** [Window.focus()] (line 202) *)
Definition window_focus (this : WinRef) (s : State) : State := focus (Some this) s.

(** What the layout engine answers while a [Window] is constructed: the
    two bounding rectangles and [parseInt] of the computed width and height
    ([None] for NaN). *)
Record Layout := mkLayout {
  hostRect : Rect;
  rect : Rect;
  cs_width : option Z;
  cs_height : option Z
}.

(** [parseInt(v) || d] *)
Definition parseInt_or (v : option Z) (d : Z) : Z :=
  match v with
  | Some n => if truthy n then n else d
  | None => d
  end.

(** [Math.round(n / 2)]: halves round up. *)
Definition round_half (n : Z) : Z := (n + 1) `div` 2.

(** The assignments of [init()] to the fields of [this] (lines 123-135). *)
Definition init_this (L : Layout) (w : Window) : Window :=
  if rect_width (rect L) >? 0 then
    set_height (rect_height (rect L))
      (set_width (rect_width (rect L))
         (set_y (Z.max 0 (rect_top (rect L) - rect_top (hostRect L)))
            (set_x (Z.max 0 (rect_left (rect L) - rect_left (hostRect L))) w)))
  else
    let w := set_width (parseInt_or (cs_width L) (width w)) w in
    let w := set_height (parseInt_or (cs_height L) (height w)) w in
    let w := set_x (Z.max 0 (round_half (rect_width (hostRect L) - width w))) w in
    set_y (Z.max 0 (round_half (rect_height (hostRect L) - height w))) w.

(** [init()] (lines 118-137) *)
Definition init (L : Layout) (this : WinRef) (s : State) : State :=
  match heap s !! this with
  | None => s
  | Some w =>
      let s := update_elem (root w) (set_style "position" (Kw "absolute")) s in
      let s := update_window this (init_this L) s in
      updatePosition this s
  end.

(** [new Window(root, host)] (lines 102-116): the new instance gets the
    next free reference. [initButtons] and [attachEvents] register
    listeners and change no state. *)
Definition new_Window (L : Layout) (el : ElemId) (s : State) : WinRef * State :=
  let this := length (heap s) in
  let s := set_heap (heap s ++ [mkWindow el 0 0 "" false false None 0 0 300 200]) s in
  let s := update_elem el (set_csWindow (Some this)) s in
  (this, init L this s).

(** [create(windowElement)] (lines 64-76) *)
Definition create (L : Layout) (windowElement : option ElemId) (s : State)
  : option WinRef * State :=
  match windowElement with
  | None => (None, s)
  | Some el =>
      match csWindow (dom s el) with
      | Some w =>
          let s := reposition (hostRect L) w s in
          let s := window_focus w s in
          (Some w, s)
      | None =>
          let '(w, s) := new_Window L el s in
          let h := host s in
          let s := set_host (mkHost (edgeMaximize h) (windows h ++ [w]) (activeWindow h)
                                    (maxZIndex h)) s in
          let s := window_focus w s in
          (Some w, s)
      end
  end.

(** [getWindowById(id)] (lines 79-81) *)
Definition getWindowById (i : string) (s : State) : option WinRef :=
  List.find
    (λ r, match heap s !! r with
          | Some w => bool_decide (id (dom s (root w)) = i)
          | None => false
          end)
    (windows (host s)).

(** The listeners of the host: a mousedown on the background (line 56) and
    a resize of the viewport (lines 58-60). *)
Definition background_mousedown (s : State) : State := focus None s.

Definition viewport_resize (hostRect : Rect) (s : State) : State :=
  fold_left (λ s w, reposition hostRect w s) (windows (host s)) s.

(** ** The rest of [Window] *)

(** [show()] (lines 301-308); [r] is the element's rectangle once it is
    displayed. *)
Definition show (hostRect r : Rect) (this : WinRef) (s : State) : State :=
  match heap s !! this with
  | None => s
  | Some w =>
      let s := update_elem (root w) (set_style "display" (Kw "block")) s in
      let s :=
        if rect_width r >? 0
        then update_window this (λ w, set_height (rect_height r) (set_width (rect_width r) w)) s
        else s in
      window_focus this (reposition hostRect this s)
  end.

(** [hide()] (line 309) and the close button (lines 146-150) *)
Definition hide (this : WinRef) (s : State) : State :=
  match heap s !! this with
  | None => s
  | Some w => focus None (update_elem (root w) (set_style "display" (Kw "none")) s)
  end.

(** [Math.floor(a - b / c)] for integers [a], [b] and [c > 0]. *)
Definition floor_sub_div (a b c : Z) : Z := a + (- b) `div` c.

(** [dragMove(dx, dy, e)] (lines 204-232) *)
Definition dragMove (hostRect : Rect) (dx dy : Z) (e : MouseEvent) (this : WinRef) (s : State)
  : State :=
  match heap s !! this with
  | None => s
  | Some w =>
      if resizing w then
        let s := if resizeX w <? 0 then update_window this (λ w, set_x (x w + dx) w) s else s in
        let s := if resizeY w <? 0 then update_window this (λ w, set_y (y w + dy) w) s else s in
        let s := update_window this (λ w, set_width (width w + dx * resizeX w) w) s in
        let s := update_window this (λ w, set_height (height w + dy * resizeY w) w) s in
        updatePosition this s
      else if edgeMaximize (host s) && (clientY e - rect_top hostRect <? 5) then
        if negb (maximized w) then maximize hostRect this s else s
      else
        let s :=
          if maximized w then
            let s := update_window this (set_maximized false) s in
            let s := update_elem (root w) (set_classList (classList_remove "maximized")) s in
            match oldPosition w with
            | Some p =>
                update_window this
                  (λ w, set_x (floor_sub_div (clientX e - rect_left hostRect)
                                 (pos_width p * clientX e) (rect_width hostRect))
                          (set_height (pos_height p) (set_width (pos_width p) w))) s
            | None => s
            end
          else s in
        let s := update_window this (λ w, set_x (x w + dx) w) s in
        let s := update_window this (λ w, set_y (y w + dy) w) s in
        updatePosition this s
  end.

(** [dragEnd()] (lines 234-243) *)
Definition dragEnd (hostRect : Rect) (this : WinRef) (s : State) : State :=
  match heap s !! this with
  | None => s
  | Some w =>
      let s :=
        if resizing w then
          let s := update_window this (λ w, set_resize 0 0 "" (set_resizing false w)) s in
          let s := update_elem (root w) (set_style "cursor" (Kw "")) s in
          set_body_cursor "" s
        else s in
      reposition hostRect this s
  end.

(** The edge a pointer at offset [p] is on, along an axis of length [size]:
    -1 within 20 pixels of the start, 1 within 20 pixels of the end
    (lines 172-175). *)
Definition edge_of (p size : Z) : Z :=
  if p <? 20 then -1 else if p >? size - 20 then 1 else 0.

(** The cursor for a pair of edges (lines 177-183). *)
Definition cursor_of (rx ry : Z) : string :=
  if truthy rx || truthy ry then
    let ns := if ry <? 0 then "n" else if ry >? 0 then "s" else "" in
    let we := if rx <? 0 then "w" else if rx >? 0 then "e" else "" in
    String.append ns (String.append we "-resize")
  else "".

(** The [mousemove] listener on the root of a window: edge detection for
    the resize cursor (lines 165-185). [on_frame] is [e.target === this.root]
    and [r] the rectangle of the root. *)
Definition root_mousemove (r : Rect) (on_frame : bool) (e : MouseEvent) (this : WinRef)
    (s : State) : State :=
  match heap s !! this with
  | None => s
  | Some w =>
      if resizing w then s
      else
        let armed := on_frame && negb (maximized w) in
        let ry := if armed then edge_of (clientY e - rect_top r) (rect_height r) else 0 in
        let rx := if armed then edge_of (clientX e - rect_left r) (rect_width r) else 0 in
        let s := update_window this (set_resize rx ry (cursor_of rx ry)) s in
        update_elem (root w) (set_style "cursor" (Kw (cursor_of rx ry))) s
  end.

(** The second [mousedown] listener on the root: resize start (lines
    188-195). The call [drag.start(this, e, 0)] it ends with belongs to the
    drag singleton. *)
Definition root_mousedown_resize (on_frame : bool) (this : WinRef) (s : State) : State :=
  match heap s !! this with
  | None => s
  | Some w =>
      if on_frame && negb (maximized w) && (truthy (resizeX w) || truthy (resizeY w)) then
        set_body_cursor (resizeCursor w) (update_window this (set_resizing true) s)
      else s
  end.

(** [openWindowById(id)] (lines 378-405) once the host exists, for the
    element [el] that [getElementById] finds; [rect L] is its rectangle once
    it is displayed. *)
Definition openWindowById (L : Layout) (el : ElemId) (s : State) : State :=
  let s := update_elem el (set_style "display" (Kw "block")) s in
  match getWindowById (id (dom s el)) s with
  | Some inst => bringToFront (Some inst) (show (hostRect L) (rect L) inst s)
  | None =>
      let '(newInst, s) := create L (Some el) s in
      bringToFront newInst s
  end.

(** The threshold a mousedown on the title starts a drag with (line 158). *)
Definition title_threshold (w : Window) : Z := if maximized w then 10 else 0.

(** ** Runs of [focus] calls *)

Definition focus_all (ws : list (option WinRef)) (s : State) : State :=
  fold_left (λ s w, focus w s) ws s.

(** The window is shown as active: its root carries the class. *)
Definition is_active (s : State) (r : WinRef) : bool :=
  match heap s !! r with
  | Some w => classList_contains "active" (classList (dom s (root w)))
  | None => false
  end.

(** The stacking value of a window: [root.style.zIndex]. *)
Definition zIndex_of (s : State) (r : WinRef) : option CssValue :=
  match heap s !! r with
  | Some w => style (dom s (root w)) "zIndex"
  | None => None
  end.

(** ** The operations, as the listeners of the page invoke them *)
Inductive Op :=
| OCreate (L : Layout) (windowElement : option ElemId)
| OOpenWindowById (L : Layout) (el : ElemId)
| OFocus (w : option WinRef)
| OBringToFront (windowInstance : option WinRef)
| OMaximize (hostRect : Rect) (this : WinRef)
| OReposition (hostRect : Rect) (this : WinRef)
| OShow (hostRect r : Rect) (this : WinRef)
| OHide (this : WinRef)
| ODragMove (hostRect : Rect) (dx dy : Z) (e : MouseEvent) (this : WinRef)
| ODragEnd (hostRect : Rect) (this : WinRef)
| ORootMouseMove (r : Rect) (on_frame : bool) (e : MouseEvent) (this : WinRef)
| OResizeStart (on_frame : bool) (this : WinRef)
| OViewportResize (hostRect : Rect).

Definition apply_op (o : Op) (s : State) : State :=
  match o with
  | OCreate L windowElement => (create L windowElement s).2
  | OOpenWindowById L el => openWindowById L el s
  | OFocus w => focus w s
  | OBringToFront windowInstance => bringToFront windowInstance s
  | OMaximize hostRect this => maximize hostRect this s
  | OReposition hostRect this => reposition hostRect this s
  | OShow hostRect r this => show hostRect r this s
  | OHide this => hide this s
  | ODragMove hostRect dx dy e this => dragMove hostRect dx dy e this s
  | ODragEnd hostRect this => dragEnd hostRect this s
  | ORootMouseMove r on_frame e this => root_mousemove r on_frame e this s
  | OResizeStart on_frame this => root_mousedown_resize on_frame this s
  | OViewportResize hostRect => viewport_resize hostRect s
  end.

Definition run_ops (ops : list Op) (s : State) : State :=
  fold_left (λ s o, apply_op o s) ops s.

(** The most recent argument of [focus] that is a window. *)
Definition last_window (ws : list (option WinRef)) : option WinRef :=
  fold_left (λ acc w, match w with Some r => Some r | None => acc end) ws None.

(** The state after the first statement of [focus] (line 84). *)
Definition unfocus_previous (w : option WinRef) (s : State) : State :=
  match activeWindow (host s) with
  | Some a => if bool_decide (Some a ≠ w) then setActive a false s else s
  | None => s
  end.

(** [create] called once per layout on the same element: the instances
    returned and the final state. *)
Fixpoint create_all (Ls : list Layout) (el : ElemId) (s : State)
  : list (option WinRef) * State :=
  match Ls with
  | [] => ([], s)
  | L :: Ls =>
      let '(w, s) := create L (Some el) s in
      let '(ws, s) := create_all Ls el s in
      (w :: ws, s)
  end.

(** ** What an operation leaves alone

    [frame s s']: the host, the roots of the windows, the back-references
    of the elements, their being marked active and their stacking values
    are the same in [s'] as in [s]. *)
Record frame (s s' : State) : Prop := mkFrame {
  frame_host : host s' = host s;
  frame_length : length (heap s') = length (heap s);
  frame_roots : ∀ r : nat, root <$> (heap s' !! r) = root <$> (heap s !! r);
  frame_csWindow : ∀ e, csWindow (dom s' e) = csWindow (dom s e);
  frame_active : ∀ e, classList_contains "active" (classList (dom s' e))
                      = classList_contains "active" (classList (dom s e));
  frame_zIndex : ∀ e, style (dom s' e) "zIndex" = style (dom s e) "zIndex"
}.

(** ** The invariant of the page

    Every window is what its root refers back to (so two windows never
    share a root), the host's [activeWindow] and no other window is marked
    active, and every window carries a stacking value the counter has
    reached. *)
Record inv (s : State) : Prop := mkInv {
  inv_backref : ∀ (r : nat) w, heap s !! r = Some w → csWindow (dom s (root w)) = Some r;
  inv_single : ∀ r, is_active s r = true → activeWindow (host s) = Some r;
  inv_marked : ∀ (r : nat) w, activeWindow (host s) = Some r → heap s !! r = Some w →
               is_active s r = true;
  inv_z : ∀ (r : nat) w, heap s !! r = Some w →
          ∃ z, style (dom s (root w)) "zIndex" = Some (Num z) ∧ z ≤ maxZIndex (host s)
}.

(** The invariant but for the window [focus] is about to activate. *)
Record inv_upto (w : option nat) (s : State) : Prop := mkInvUpto {
  upto_backref : ∀ (r : nat) wr, heap s !! r = Some wr → csWindow (dom s (root wr)) = Some r;
  upto_single : ∀ r, Some r ≠ w → is_active s r = true → activeWindow (host s) = Some r;
  upto_marked : ∀ (r : nat) wr, Some r ≠ w → activeWindow (host s) = Some r →
                heap s !! r = Some wr → is_active s r = true;
  upto_z : ∀ (r : nat) wr, Some r ≠ w → heap s !! r = Some wr →
           ∃ z, style (dom s (root wr)) "zIndex" = Some (Num z) ∧ z ≤ maxZIndex (host s)
}.

(** [extends s s']: the windows of [s] are windows of [s'], on the same
    roots. *)
Definition extends (s s' : State) : Prop :=
  ∀ (r : nat) w, heap s !! r = Some w → ∃ w', heap s' !! r = Some w' ∧ root w' = root w.

(** ** Geometry *)

(** The four geometry fields of a window. *)
Definition geometry (w : Window) : Z * Z * Z * Z := (x w, y w, width w, height w).

Definition nonneg_geometry (w : Window) : Prop :=
  0 ≤ x w ∧ 0 ≤ y w ∧ 0 ≤ width w ∧ 0 ≤ height w.

(** The bounds the clamp of [reposition] enforces on a window that is not
    maximized: the top edge is not above the root, the 30 pixels below it
    are inside the root's height, at least 50 pixels of the window are right
    of the root's left edge and at least 30 left of its right edge. *)
Definition within_bounds (hostRect : Rect) (w : Window) : Prop :=
  0 ≤ y w ∧ y w + 30 ≤ rect_height hostRect
  ∧ 50 ≤ x w + width w ∧ x w + 30 ≤ rect_width hostRect.

(** ** A page with three windows A, B, C, for the examples *)
Definition blank (i : string) : Element := mkElement i None [] (λ _, None) None 0.

Definition demo_dom (e : ElemId) : Element :=
  match e with
  | O => blank "A"
  | S O => blank "B"
  | _ => blank "C"
  end.

Definition demo_host : Rect := mkRect 0 0 800 600.

Definition demo_layout (l t : Z) : Layout :=
  mkLayout demo_host (mkRect l t 300 200) None None.

(** One window, made from an element laid out 1000 pixels below the top of
    a root that is 600 pixels high. *)
Definition below_the_fold : State :=
  run_ops [OCreate (demo_layout 10 1000) (Some 0%nat)] (new_page demo_dom).

(** One window at (10, 10), 300 wide, dragged 300 pixels to the left by
    its title, the pointer now at (0, 20); the button is still down. *)
Definition dragged_left : State :=
  run_ops [OCreate (demo_layout 10 10) (Some 0%nat);
           ODragMove demo_host (-300) 0 (mkMouseEvent 0 20) 0%nat]
    (new_page demo_dom).

Definition demo3 : State :=
  run_ops [OCreate (demo_layout 10 10) (Some 0%nat);
           OCreate (demo_layout 50 50) (Some 1%nat);
           OCreate (demo_layout 90 90) (Some 2%nat)] (new_page demo_dom).

End WS.

(* ====================================================================== *)
(** * The page: windows as the targets of the drag singleton *)
(* ====================================================================== *)

Module Page.
Import WS.

(** [Window.dragMove] and [Window.dragEnd] as callbacks of the drag
    singleton; they throw nothing. [hostRect] is the rectangle of the host's
    root while the session lasts. *)
Definition window_dragMove (hostRect : Rect) (this : WinRef) (dx dy : Z) (e : MouseEvent)
    (s : State) : State * option Empty_set :=
  (dragMove hostRect dx dy e this s, None).

Definition window_dragEnd (hostRect : Rect) (this : WinRef) (s : State)
  : State * option Empty_set :=
  (dragEnd hostRect this s, None).

Abbreviation PageEnv := (@Drag.Env nat State Empty_set).

(** A mousedown on the title of a window: the listener of the title starts
    a drag (line 158), then the event reaches the root, whose listener
    focuses the window (line 162). *)
Definition title_mousedown (this : WinRef) (e : MouseEvent) (env : PageEnv) : PageEnv :=
  match heap (Drag.world env) !! this with
  | None => env
  | Some w =>
      let env := (Drag.start this e (title_threshold w) env).1 in
      Drag.set_world (window_focus this (Drag.world env)) env
  end.

Definition mouse_move (hostRect : Rect) (e : MouseEvent) (env : PageEnv) : PageEnv :=
  Drag.step (window_dragMove hostRect) (window_dragEnd hostRect) env (Drag.MouseMove e).

Definition mouse_up (hostRect : Rect) (env : PageEnv) : PageEnv :=
  Drag.step (window_dragMove hostRect) (window_dragEnd hostRect) env Drag.MouseUp.

(** The page with the single window A at (10, 10), 300 by 200, and no drag
    in progress. *)
Definition one_window : PageEnv :=
  Drag.mkEnv None 0 0 0
    (run_ops [OCreate (demo_layout 10 10) (Some 0%nat)] (new_page demo_dom)) [].

(** The geometry of window [r] on the page. *)
Definition geometry_of (env : PageEnv) (r : WinRef) : option (Z * Z * Z * Z) :=
  geometry <$> heap (Drag.world env) !! r.

End Page.

(* ====================================================================== *)
(** * What the methods of [Window] assign to the fields of [this] *)
(* ====================================================================== *)

Module Fields.
Import WS.

(** [maximize()] (lines 285-298) *)
Definition maximize_this (hostRect : Rect) (w : Window) : Window :=
  if maximized w then
    match oldPosition w with
    | Some p => reposition_this hostRect (assign p (set_maximized false w))
    | None => set_maximized false w
    end
  else
    reposition_this hostRect
      (set_oldPosition (Some (mkPosition (x w) (y w) (width w) (height w)))
         (set_maximized true w)).

(** The resizing branch of [dragMove] (lines 205-212) *)
Definition resize_this (dx dy : Z) (w : Window) : Window :=
  let w := if resizeX w <? 0 then set_x (x w + dx) w else w in
  let w := if resizeY w <? 0 then set_y (y w + dy) w else w in
  let w := set_width (width w + dx * resizeX w) w in
  set_height (height w + dy * resizeY w) w.

(** The branch of [dragMove] that takes a maximized window out of that
    state (lines 219-227) *)
Definition unmaximize_this (hostRect : Rect) (e : MouseEvent) (w : Window) : Window :=
  if maximized w then
    let w := set_maximized false w in
    match oldPosition w with
    | Some p =>
        set_x (floor_sub_div (clientX e - rect_left hostRect)
                 (pos_width p * clientX e) (rect_width hostRect))
          (set_height (pos_height p) (set_width (pos_width p) w))
    | None => w
    end
  else w.

(** [dragMove(dx, dy, e)] (lines 204-232); [edgeMax] is
    [this.host.edgeMaximize]. *)
Definition dragMove_this (hostRect : Rect) (edgeMax : bool) (dx dy : Z) (e : MouseEvent)
    (w : Window) : Window :=
  if resizing w then resize_this dx dy w
  else if edgeMax && (clientY e - rect_top hostRect <? 5) then
    if negb (maximized w) then maximize_this hostRect w else w
  else
    let w := unmaximize_this hostRect e w in
    let w := set_x (x w + dx) w in
    set_y (y w + dy) w.

(** [dragEnd()] (lines 234-243) *)
Definition dragEnd_this (hostRect : Rect) (w : Window) : Window :=
  reposition_this hostRect
    (if resizing w then set_resize 0 0 "" (set_resizing false w) else w).

(** [show()] (lines 301-308) *)
Definition show_this (hostRect r : Rect) (w : Window) : Window :=
  reposition_this hostRect
    (if rect_width r >? 0 then set_height (rect_height r) (set_width (rect_width r) w)
     else w).

(** The edge detection of the [mousemove] listener (lines 165-185) *)
Definition root_mousemove_this (r : Rect) (on_frame : bool) (e : MouseEvent) (w : Window)
  : Window :=
  if resizing w then w
  else
    let armed := on_frame && negb (maximized w) in
    let ry := if armed then edge_of (clientY e - rect_top r) (rect_height r) else 0 in
    let rx := if armed then edge_of (clientX e - rect_left r) (rect_width r) else 0 in
    set_resize rx ry (cursor_of rx ry) w.

(** The resize start of the [mousedown] listener (lines 188-195) *)
Definition root_mousedown_resize_this (on_frame : bool) (w : Window) : Window :=
  if on_frame && negb (maximized w) && (truthy (resizeX w) || truthy (resizeY w))
  then set_resizing true w
  else w.

(** The window [new Window] constructs, after [init()] (lines 102-116). *)
Definition new_window_this (L : Layout) (el : ElemId) : Window :=
  init_this L (mkWindow el 0 0 "" false false None 0 0 300 200).

(** ** What holds of every window on the page *)

(** A resize edge: -1, 0 or 1. *)
Definition edge_ok (v : Z) : Prop := v = -1 ∨ v = 0 ∨ v = 1.

(** A maximized window has a saved geometry; the resize edges are in
    range and the cursor is the one for them; a window that is being
    resized has an edge armed. *)
Record window_ok (w : Window) : Prop := mkWindowOk {
  ok_saved : maximized w = true → is_Some (oldPosition w);
  ok_resizeX : edge_ok (resizeX w);
  ok_resizeY : edge_ok (resizeY w);
  ok_cursor : resizeCursor w = cursor_of (resizeX w) (resizeY w);
  ok_armed : resizing w = true → resizeX w ≠ 0 ∨ resizeY w ≠ 0
}.

(** The two windows differ in geometry at most. *)
Definition same_flags (w w' : Window) : Prop :=
  root w' = root w ∧ resizeX w' = resizeX w ∧ resizeY w' = resizeY w
  ∧ resizeCursor w' = resizeCursor w ∧ resizing w' = resizing w
  ∧ maximized w' = maximized w ∧ oldPosition w' = oldPosition w.

(** ** What the page shows of a window *)

(** The style of the root gives the geometry of the window. The height is
    left out for a root that is the [.window-body] of some element, whose
    height [updatePosition] sets to the body height. *)
Definition row_style (d : ElemId → Element) (w : Window) : Prop :=
  style (d (root w)) "left" = Some (Px (x w))
  ∧ style (d (root w)) "top" = Some (Px (y w))
  ∧ style (d (root w)) "width" = Some (Px (width w))
  ∧ ((∀ e, window_body (d e) ≠ Some (root w)) →
     style (d (root w)) "height" = Some (Px (height w))).

(** [rows row X s]: every root refers back to its window, and [row] holds
    of every window but [X]. *)
Definition rows (row : (ElemId → Element) → Window → Prop) (X : option nat) (s : State)
  : Prop :=
  (∀ (r : nat) w, heap s !! r = Some w → csWindow (dom s (root w)) = Some r)
  ∧ (∀ (r : nat) w, Some r ≠ X → heap s !! r = Some w → row (dom s) w).

(** A change of an element that leaves its place in the page alone. *)
Definition keeps_structure (f : Element → Element) : Prop :=
  ∀ el, csWindow (f el) = csWindow el ∧ window_body (f el) = window_body el.

(** The host's collection holds every window, once, in creation order,
    and maximizing at the top edge is on. *)
Definition registered (s : State) : Prop :=
  edgeMaximize (host s) = true ∧ windows (host s) = seq 0 (length (heap s)).

(** The two states have the same collection of windows. *)
Definition same_registry (s s' : State) : Prop :=
  edgeMaximize (host s') = edgeMaximize (host s)
  ∧ windows (host s') = windows (host s)
  ∧ length (heap s') = length (heap s).

(** The root of the host has a width when the window is dragged: the
    division in line 225 is by that width. *)
Definition host_visible (o : Op) : Prop :=
  match o with
  | ODragMove hostRect _ _ _ _ => 0 < rect_width hostRect
  | _ => True
  end.

(** ** What an operation does to the elements *)

(** [touched ps el el']: [el'] is [el] after writes to the style properties
    [ps], to the class list and to the back reference. *)
Inductive touched (ps : list string) : Element → Element → Prop :=
| touched_refl el : touched ps el el
| touched_style el el' p v :
    touched ps el el' → p ∈ ps → touched ps el (set_style p v el')
| touched_classList el el' f :
    touched ps el el' → touched ps el (set_classList f el')
| touched_csWindow el el' v :
    touched ps el el' → touched ps el (set_csWindow v el').

Definition writes (ps : list string) (s s' : State) : Prop :=
  ∀ e, touched ps (dom s e) (dom s' e).

(** The style properties the window system writes, but for [display]. *)
Definition window_props : list string :=
  ["position"; "left"; "top"; "width"; "height"; "zIndex"; "cursor"].

(** No element of the document refers to a window: the page as it is
    loaded. *)
Definition fresh_dom (d : ElemId → Element) : Prop := ∀ e, csWindow (d e) = None.

(** An element that refers to a window is the root of that window. *)
Definition backlinked (s : State) : Prop :=
  ∀ e (r : nat), csWindow (dom s e) = Some r → ∃ w, heap s !! r = Some w ∧ root w = e.

(** ** The page is loaded (lines 560-575) *)

(** An element of class [window], as the [DOMContentLoaded] listener finds
    it: whether its computed [display] is [none], and what the layout
    engine answers while its [Window] is constructed. *)
Record WindowElement := mkWindowElement {
  we_elem : ElemId;
  we_hidden : bool;
  we_layout : Layout
}.

(** [for (let h of hidden) h.style.display = v] *)
Definition set_display_hidden (v : string) (ws : list WindowElement) (s : State) : State :=
  fold_left
    (λ s we, if we_hidden we then update_elem (we_elem we) (set_style "display" (Kw v)) s
             else s)
    ws s.

(** [for (let w of windows) hostRef.create(w)] *)
Definition create_each (ws : list WindowElement) (s : State) : State :=
  fold_left (λ s we, (create (we_layout we) (Some (we_elem we)) s).2) ws s.

(** The host is made, the hidden elements are revealed, every element gets
    its window, and the hidden ones are hidden again. *)
Definition load_windows (ws : list WindowElement) (d : ElemId → Element) : State :=
  let s := new_page d in
  let s := set_display_hidden "block" ws s in
  let s := create_each ws s in
  set_display_hidden "none" ws s.

End Fields.

(* ====================================================================== *)
(** * The page: the frame of a window under the pointer *)
(* ====================================================================== *)

Module PageFrame.
Import WS Page.

(** The pointer moves over the frame of a window ([e.target === this.root]):
    the listener of the root detects the edge (lines 165-185), then the
    event reaches the document, where the drag singleton listens (line
    21). [r] is the rectangle of the root. *)
Definition frame_mousemove (hostRect r : Rect) (this : WinRef) (e : MouseEvent)
    (env : PageEnv) : PageEnv :=
  mouse_move hostRect e
    (Drag.set_world (root_mousemove r true e this (Drag.world env)) env).

(** A mousedown on the frame of a window, the title being another
    element: the first listener of the root focuses the window (line 162),
    the second starts a resize when an edge is armed and then a drag with
    no threshold (lines 188-195). *)
Definition frame_mousedown (this : WinRef) (e : MouseEvent) (env : PageEnv) : PageEnv :=
  let s := window_focus this (Drag.world env) in
  match heap s !! this with
  | None => Drag.set_world s env
  | Some w =>
      if negb (maximized w) && (truthy (resizeX w) || truthy (resizeY w)) then
        (Drag.start this e 0 (Drag.set_world (root_mousedown_resize true this s) env)).1
      else Drag.set_world s env
  end.

End PageFrame.

(* ====================================================================== *)
(** * What a drag session hands to its target *)
(* ====================================================================== *)

Module DragTotals.
Import Drag.

Section Totals.

Context {Obj World Err : Type}.

(** The distance a call of [dragMove] passes on. *)
Definition delta_x (ev : @Effect Obj Err) : Z :=
  match ev with ECallDragMove _ dx _ _ => dx | _ => 0 end.
Definition delta_y (ev : @Effect Obj Err) : Z :=
  match ev with ECallDragMove _ _ dy _ => dy | _ => 0 end.

(** The sum of the distances passed on by the calls of a log. *)
Definition total_dx (l : list (@Effect Obj Err)) : Z := foldr (λ ev acc, delta_x ev + acc) 0 l.
Definition total_dy (l : list (@Effect Obj Err)) : Z := foldr (λ ev acc, delta_y ev + acc) 0 l.

(** The object a call is made on. *)
Definition target_of (ev : @Effect Obj Err) : option Obj :=
  match ev with
  | ECallDragMove obj _ _ _ => Some obj
  | ECallDragEnd obj => Some obj
  | _ => None
  end.

Definition is_start (ev : @Event Obj) : bool :=
  match ev with Start _ _ _ => true | _ => false end.

End Totals.

(** Targets for the examples: numbered objects whose callbacks return. *)
Definition numbered_move (o : nat) (dx dy : Z) (e : MouseEvent) (w : unit)
  : unit * option unit := (w, None).
Definition numbered_end (o : nat) (w : unit) : unit * option unit := (w, None).

End DragTotals.

(* ====================================================================== *)
(** * The tree initializer (scripts.js, lines 519-555) *)
(* ====================================================================== *)

Module Trees.

(** A [li[role="treeitem"]]: whether it has a child [ul[role="group"]],
    its attribute [aria-expanded] ([None] when absent), the text of its
    child of class [toggle] ([None] when there is no such child), and how
    many times [initTrees] has registered its listeners on it. *)
Record Item := mkItem {
  has_group : bool;
  aria_expanded : option string;
  toggle : option string;
  listeners : nat
}.

Definition set_aria_expanded (v : option string) (it : Item) : Item :=
  mkItem (has_group it) v (toggle it) (listeners it).
Definition set_toggle (v : option string) (it : Item) : Item :=
  mkItem (has_group it) (aria_expanded it) v (listeners it).
Definition set_listeners (n : nat) (it : Item) : Item :=
  mkItem (has_group it) (aria_expanded it) (toggle it) n.

(** [item.getAttribute('aria-expanded') === 'true'] *)
Definition expanded (it : Item) : bool := bool_decide (aria_expanded it = Some "true").

(** The body of the inner loop of [initTrees] (lines 524-546) *)
Definition init_item (it : Item) : Item :=
  if has_group it then
    let it := match aria_expanded it with
              | None => set_aria_expanded (Some "false") it
              | Some _ => it
              end in
    let it := match toggle it with
              | None => set_toggle (Some "") it
              | Some _ => it
              end in
    let it := set_toggle (Some (if expanded it then "▾" else "▸")) it in
    set_listeners (S (listeners it)) it
  else it.

(** [initTrees(root)] (lines 519-549); [visits] are the items the two
    loops reach, in order: an item that is inside two elements of class
    [tree] is reached twice. *)
Definition initTrees (visits : list nat) (items : nat → Item) : nat → Item :=
  fold_left (λ items i, alter init_item i items) visits items.

(** [toggleExpand(item)] (lines 550-555) *)
Definition toggleExpand (it : Item) : Item :=
  let e := expanded it in
  let it := set_aria_expanded (Some (if e then "false" else "true")) it in
  match toggle it with
  | Some _ => set_toggle (Some (if e then "▸" else "▾")) it
  | None => it
  end.

(** A click on the toggle (line 539): every listener that was registered
    on it calls [toggleExpand]. The toggle is taken to be the span that
    [initTrees] makes or finds. *)
Definition click (it : Item) : Item := Nat.iter (listeners it) toggleExpand it.

(** The toggle shows whether the item is expanded. *)
Definition shows_state (it : Item) : Prop :=
  toggle it = Some (if expanded it then "▾" else "▸").

End Trees.

(* ====================================================================== *)
(** * Properties of the window system *)
(* ====================================================================== *)

Module WSProps.
Import WS.

#[local] Arguments setActive : simpl never.
#[local] Arguments bringToFront : simpl never.
#[local] Arguments focus : simpl never.
#[local] Arguments updatePosition : simpl never.
#[local] Arguments reposition : simpl never.
#[local] Arguments maximize : simpl never.
#[local] Arguments create : simpl never.

(** ** Class lists *)

Lemma contains_add_same c l : classList_contains c (classList_add c l) = true.
Proof.
  unfold classList_add. destruct (classList_contains c l) eqn:E; [done|].
  unfold classList_contains. apply bool_decide_eq_true.
  rewrite elem_of_app, list_elem_of_singleton. by right.
Qed.

Lemma contains_remove_same c l : classList_contains c (classList_remove c l) = false.
Proof.
  unfold classList_contains, classList_remove. apply bool_decide_eq_false.
  rewrite list_elem_of_filter. tauto.
Qed.

Lemma contains_add_other c c' l :
  c ≠ c' → classList_contains c (classList_add c' l) = classList_contains c l.
Proof.
  intros Hne. unfold classList_add. destruct (classList_contains c' l); [done|].
  unfold classList_contains. apply bool_decide_ext.
  rewrite elem_of_app, list_elem_of_singleton. split; [|by left].
  by intros [?|?].
Qed.

Lemma contains_remove_other c c' l :
  c ≠ c' → classList_contains c (classList_remove c' l) = classList_contains c l.
Proof.
  intros Hne. unfold classList_contains, classList_remove. apply bool_decide_ext.
  rewrite list_elem_of_filter. split; [by intros [_ ?]|done].
Qed.

Lemma add_contained c l : classList_contains c l = true → classList_add c l = l.
Proof. unfold classList_add. by intros ->. Qed.


Lemma frame_refl s : frame s s.
Proof. by constructor. Qed.

Lemma frame_trans s1 s2 s3 : frame s1 s2 → frame s2 s3 → frame s1 s3.
Proof.
  intros [] []. constructor; intros; etrans; eauto.
Qed.

Lemma frame_update_window this f s :
  (∀ w, root (f w) = root w) → frame s (update_window this f s).
Proof.
  intros Hf. constructor; simpl; try done.
  - apply length_alter.
  - intros r. destruct (decide (this = r)) as [->|Hne].
    + rewrite list_lookup_alter_eq. destruct (heap s !! r); simpl; [by rewrite Hf|done].
    + by rewrite list_lookup_alter_ne.
Qed.

Lemma frame_update_style e p v s :
  p ≠ "zIndex" → frame s (update_elem e (set_style p v) s).
Proof.
  intros Hp. constructor; simpl; try done; intros e';
    (destruct (decide (e = e')) as [->|Hne];
     [rewrite fn_lookup_alter|by rewrite fn_lookup_alter_ne]); simpl; try done.
  by rewrite fn_lookup_insert_ne.
Qed.

Lemma frame_update_classList e f s :
  (∀ l, classList_contains "active" (f l) = classList_contains "active" l) →
  frame s (update_elem e (set_classList f) s).
Proof.
  intros Hf. constructor; simpl; try done; intros e';
    (destruct (decide (e = e')) as [->|Hne];
     [rewrite fn_lookup_alter|by rewrite fn_lookup_alter_ne]); simpl; done.
Qed.

Lemma frame_set_body_cursor c s : frame s (set_body_cursor c s).
Proof. by constructor. Qed.

(** One step of a frame proof: peel the outermost update. *)
Ltac frame_step :=
  lazymatch goal with
  | |- frame ?s ?s => apply frame_refl
  | |- frame _ (update_window _ _ _) =>
      eapply frame_trans; [|apply frame_update_window; by intros []]
  | |- frame _ (update_elem _ (set_style _ _) _) =>
      eapply frame_trans; [|by apply frame_update_style]
  | |- frame _ (update_elem _ (set_classList (classList_add "maximized")) _) =>
      eapply frame_trans;
      [|apply frame_update_classList; intros; by apply contains_add_other]
  | |- frame _ (update_elem _ (set_classList (classList_remove "maximized")) _) =>
      eapply frame_trans;
      [|apply frame_update_classList; intros; by apply contains_remove_other]
  | |- frame _ (set_body_cursor _ _) =>
      eapply frame_trans; [|apply frame_set_body_cursor]
  | |- frame _ (match ?c with _ => _ end) => destruct c eqn:?
  end.

Lemma frame_updatePosition this s : frame s (updatePosition this s).
Proof. unfold updatePosition. cbv zeta. repeat frame_step. Qed.

Lemma root_reposition_this hr w : root (reposition_this hr w) = root w.
Proof. unfold reposition_this. by repeat case_match. Qed.

Lemma frame_reposition hr this s : frame s (reposition hr this s).
Proof.
  unfold reposition. eapply frame_trans; [|apply frame_updatePosition].
  apply frame_update_window, root_reposition_this.
Qed.

Lemma frame_maximize hr this s : frame s (maximize hr this s).
Proof.
  unfold maximize. cbv zeta.
  repeat first [ frame_step | eapply frame_trans; [|apply frame_reposition] ].
Qed.

Lemma frame_dragMove hr dx dy e this s : frame s (dragMove hr dx dy e this s).
Proof.
  unfold dragMove. cbv zeta.
  repeat first [ frame_step
               | eapply frame_trans; [|apply frame_updatePosition]
               | apply frame_maximize ].
Qed.

Lemma frame_dragEnd hr this s : frame s (dragEnd hr this s).
Proof.
  unfold dragEnd. cbv zeta.
  repeat first [ frame_step | eapply frame_trans; [|apply frame_reposition] ].
Qed.

Lemma frame_root_mousemove r on_frame e this s :
  frame s (root_mousemove r on_frame e this s).
Proof. unfold root_mousemove. cbv zeta. repeat frame_step. Qed.

Lemma frame_root_mousedown_resize on_frame this s :
  frame s (root_mousedown_resize on_frame this s).
Proof. unfold root_mousedown_resize. repeat frame_step. Qed.

Lemma frame_init L this s : frame s (init L this s).
Proof.
  unfold init. cbv zeta. destruct (heap s !! this); [|apply frame_refl].
  eapply frame_trans; [|apply frame_updatePosition].
  eapply frame_trans; [|apply frame_update_window].
  - frame_step. frame_step.
  - intros w0. unfold init_this. by repeat case_match.
Qed.

Lemma frame_viewport_resize hr s : frame s (viewport_resize hr s).
Proof.
  unfold viewport_resize. generalize (windows (host s)) as ws.
  intros ws. revert s. induction ws as [|w ws IH]; intros s; simpl.
  - apply frame_refl.
  - eapply frame_trans; [apply frame_reposition|apply IH].
Qed.



Lemma inv_inv_upto w s : inv s → inv_upto w s.
Proof. intros []. constructor; eauto. Qed.

Lemma roots_distinct w s (r1 r2 : nat) w1 w2 :
  inv_upto w s → heap s !! r1 = Some w1 → heap s !! r2 = Some w2 → root w1 = root w2 → r1 = r2.
Proof.
  intros Hinv H1 H2 Hroot.
  apply (upto_backref w s Hinv) in H1, H2. rewrite Hroot in H1. congruence.
Qed.

Lemma frame_lookup s s' (r : nat) w' :
  frame s s' → heap s' !! r = Some w' → ∃ w, heap s !! r = Some w ∧ root w = root w'.
Proof.
  intros Hf Hr. pose proof (frame_roots s s' Hf r) as E. rewrite Hr in E. simpl in E.
  destruct (heap s !! r) as [w|]; simpl in E; [|done]. exists w. split; congruence.
Qed.

Lemma is_active_frame s s' r : frame s s' → is_active s' r = is_active s r.
Proof.
  intros Hf. unfold is_active. pose proof (frame_roots s s' Hf r) as E.
  destruct (heap s' !! r) as [w'|], (heap s !! r) as [w|]; simplify_eq/=; try done.
  rewrite E. apply (frame_active s s' Hf).
Qed.

Lemma zIndex_of_frame s s' r : frame s s' → zIndex_of s' r = zIndex_of s r.
Proof.
  intros Hf. unfold zIndex_of. pose proof (frame_roots s s' Hf r) as E.
  destruct (heap s' !! r) as [w'|], (heap s !! r) as [w|]; simplify_eq/=; try done.
  rewrite E. apply (frame_zIndex s s' Hf).
Qed.

Lemma inv_frame s s' : frame s s' → inv s → inv s'.
Proof.
  intros Hf Hinv. constructor.
  - intros r w' Hr. destruct (frame_lookup _ _ _ _ Hf Hr) as (w & Hw & <-).
    rewrite (frame_csWindow s s' Hf). by apply (inv_backref s Hinv).
  - intros r Hr. rewrite (frame_host s s' Hf). apply (inv_single s Hinv).
    by rewrite <- (is_active_frame s s' r Hf).
  - intros r w' Ha Hr. destruct (frame_lookup _ _ _ _ Hf Hr) as (w & Hw & _).
    rewrite (is_active_frame s s' r Hf). apply (inv_marked s Hinv r w); [|done].
    by rewrite <- (frame_host s s' Hf).
  - intros r w' Hr. destruct (frame_lookup _ _ _ _ Hf Hr) as (w & Hw & <-).
    rewrite (frame_zIndex s s' Hf), (frame_host s s' Hf). by apply (inv_z s Hinv r).
Qed.

(** ** [setActive] and [bringToFront], field by field *)

Lemma heap_setActive a b s : heap (setActive a b s) = heap s.
Proof. unfold setActive. by repeat case_match. Qed.

Lemma host_setActive a b s : host (setActive a b s) = host s.
Proof. unfold setActive. by repeat case_match. Qed.

Lemma csWindow_setActive a b s e : csWindow (dom (setActive a b s) e) = csWindow (dom s e).
Proof.
  unfold setActive. repeat case_match; try done; simpl;
    (destruct (decide (root w = e)) as [->|Hne];
     [by rewrite fn_lookup_alter|by rewrite fn_lookup_alter_ne]).
Qed.

Lemma style_setActive a b s e : style (dom (setActive a b s) e) = style (dom s e).
Proof.
  unfold setActive. repeat case_match; try done; simpl;
    (destruct (decide (root w = e)) as [->|Hne];
     [by rewrite fn_lookup_alter|by rewrite fn_lookup_alter_ne]).
Qed.

Lemma active_setActive a b s wa e :
  heap s !! a = Some wa →
  classList_contains "active" (classList (dom (setActive a b s) e))
  = if decide (root wa = e) then b
    else classList_contains "active" (classList (dom s e)).
Proof.
  intros Ha. unfold setActive. rewrite Ha.
  destruct b; simpl; case_decide as Hd; subst;
    rewrite ?fn_lookup_alter, ?fn_lookup_alter_ne by done; simpl;
    auto using contains_add_same, contains_remove_same.
Qed.

Lemma setActive_dangling a b s : heap s !! a = None → setActive a b s = s.
Proof. unfold setActive. by intros ->. Qed.

Lemma heap_bringToFront w s : heap (bringToFront w s) = heap s.
Proof. unfold bringToFront. by repeat case_match. Qed.

Lemma csWindow_bringToFront w s e :
  csWindow (dom (bringToFront w s) e) = csWindow (dom s e).
Proof.
  unfold bringToFront. repeat case_match; try done; simpl.
  match goal with |- context [alter _ ?k _ _] => destruct (decide (k = e)) as [->|Hne] end;
    [by rewrite fn_lookup_alter|by rewrite fn_lookup_alter_ne].
Qed.

Lemma classList_bringToFront w s e :
  classList (dom (bringToFront w s) e) = classList (dom s e).
Proof.
  unfold bringToFront. repeat case_match; try done; simpl.
  match goal with |- context [alter _ ?k _ _] => destruct (decide (k = e)) as [->|Hne] end;
    [by rewrite fn_lookup_alter|by rewrite fn_lookup_alter_ne].
Qed.

(** A call that assigns: the counter is incremented and the new value is
    written to the root of the window. *)
Lemma host_bringToFront (r : nat) w s :
  heap s !! r = Some w →
  host (bringToFront (Some r) s)
  = mkHost (edgeMaximize (host s)) (windows (host s)) (activeWindow (host s))
           (maxZIndex (host s) + 1).
Proof. unfold bringToFront. by intros ->. Qed.

Lemma zIndex_bringToFront (r : nat) w s e :
  heap s !! r = Some w →
  style (dom (bringToFront (Some r) s) e) "zIndex"
  = if decide (root w = e) then Some (Num (maxZIndex (host s) + 1))
    else style (dom s e) "zIndex".
Proof.
  intros Hr. unfold bringToFront. rewrite Hr. simpl.
  case_decide as Hd; subst; rewrite ?fn_lookup_alter, ?fn_lookup_alter_ne by done; simpl; [|done].
  by rewrite fn_lookup_insert.
Qed.

(** A call that does not assign changes nothing. *)
Lemma bringToFront_none s : bringToFront None s = s.
Proof. done. Qed.

Lemma bringToFront_dangling (r : nat) s : heap s !! r = None → bringToFront (Some r) s = s.
Proof. unfold bringToFront. by intros ->. Qed.

Lemma maxZIndex_bringToFront w s :
  maxZIndex (host s) ≤ maxZIndex (host (bringToFront w s)).
Proof. unfold bringToFront. repeat case_match; simpl; lia. Qed.

(** ** [focus], field by field *)

Lemma focus_unfold w s :
  focus w s =
  let s1 := unfocus_previous w s in
  let s2 := set_host (mkHost (edgeMaximize (host s)) (windows (host s)) w
                             (maxZIndex (host s))) s1 in
  match w with
  | Some a => bringToFront (Some a) (setActive a true s2)
  | None => s2
  end.
Proof.
  unfold focus, unfocus_previous. cbv zeta.
  assert (host (match activeWindow (host s) with
                | Some a => if bool_decide (Some a ≠ w) then setActive a false s else s
                | None => s
                end) = host s) as ->.
  { repeat case_match; by rewrite ?host_setActive. }
  by destruct w.
Qed.

Lemma heap_unfocus_previous w s : heap (unfocus_previous w s) = heap s.
Proof. unfold unfocus_previous. repeat case_match; by rewrite ?heap_setActive. Qed.

Lemma heap_focus w s : heap (focus w s) = heap s.
Proof.
  rewrite focus_unfold. cbv zeta.
  destruct w; rewrite ?heap_bringToFront, ?heap_setActive; simpl; apply heap_unfocus_previous.
Qed.

Lemma csWindow_focus w s e : csWindow (dom (focus w s) e) = csWindow (dom s e).
Proof.
  rewrite focus_unfold. cbv zeta.
  destruct w; rewrite ?csWindow_bringToFront, ?csWindow_setActive; simpl;
    unfold unfocus_previous; repeat case_match; by rewrite ?csWindow_setActive.
Qed.

Lemma activeWindow_focus w s : activeWindow (host (focus w s)) = w.
Proof.
  rewrite focus_unfold. cbv zeta. destruct w as [a|]; [|done].
  unfold bringToFront. repeat case_match; simpl; by rewrite ?host_setActive.
Qed.

Lemma windows_focus w s : windows (host (focus w s)) = windows (host s).
Proof.
  rewrite focus_unfold. cbv zeta. destruct w as [a|]; [|done].
  unfold bringToFront. repeat case_match; simpl; by rewrite ?host_setActive.
Qed.

(** [focus] of a window takes one value of the counter, [focus(null)]
    none. *)
Lemma maxZIndex_focus_window (r : nat) w s :
  heap s !! r = Some w → maxZIndex (host (focus (Some r) s)) = maxZIndex (host s) + 1.
Proof.
  intros Hr. rewrite focus_unfold. cbv zeta.
  erewrite host_bringToFront; [by rewrite host_setActive|].
  rewrite heap_setActive. simpl. by rewrite heap_unfocus_previous.
Qed.

Lemma maxZIndex_focus w s : maxZIndex (host s) ≤ maxZIndex (host (focus w s)).
Proof.
  rewrite focus_unfold. cbv zeta. destruct w as [a|]; [|done].
  etrans; [|apply maxZIndex_bringToFront]. by rewrite host_setActive.
Qed.

(** After the first statement of [focus(w)], a window still marked active
    is [w] itself. *)
Lemma is_active_unfocus_previous s w r :
  inv_upto w s → is_active (unfocus_previous w s) r = true → w = Some r.
Proof.
  intros Hinv. destruct (decide (Some r = w)) as [|Hne]; [done|].
  unfold unfocus_previous.
  destruct (activeWindow (host s)) as [a|] eqn:Ea.
  - case_bool_decide as Hd.
    + unfold is_active. rewrite heap_setActive.
      destruct (heap s !! r) as [wr|] eqn:Er; [|done].
      destruct (heap s !! a) as [wa|] eqn:Eaa.
      * rewrite (active_setActive _ _ _ wa) by done. case_decide as Hroot; [done|].
        intros Hr. assert (is_active s r = true) as Hact by (unfold is_active; by rewrite Er).
        apply (upto_single w s Hinv) in Hact; [congruence|done].
      * rewrite setActive_dangling by done. intros Hr.
        assert (is_active s r = true) as Hact by (unfold is_active; by rewrite Er).
        apply (upto_single w s Hinv) in Hact; [congruence|done].
    + intros Hact. apply (upto_single w s Hinv) in Hact; [|done].
      destruct (decide (Some a = w)); [congruence|done].
  - intros Hact. apply (upto_single w s Hinv) in Hact; [congruence|done].
Qed.

Lemma is_active_after_focus s w r :
  inv_upto w s → is_active (focus w s) r = true → w = Some r.
Proof.
  intros Hinv. rewrite focus_unfold. cbv zeta.
  destruct w as [a|].
  - unfold is_active. rewrite heap_bringToFront, heap_setActive. simpl.
    rewrite heap_unfocus_previous.
    destruct (heap s !! r) as [wr|] eqn:Er; [|done].
    rewrite classList_bringToFront.
    destruct (heap s !! a) as [wa|] eqn:Ea.
    + rewrite (active_setActive _ _ _ wa) by (simpl; by rewrite heap_unfocus_previous).
      case_decide as Hroot.
      * intros _. f_equal. by eapply roots_distinct.
      * simpl. intros Hact. apply (is_active_unfocus_previous s (Some a) r Hinv).
        unfold is_active. by rewrite heap_unfocus_previous, Er.
    + rewrite setActive_dangling by (simpl; by rewrite heap_unfocus_previous).
      simpl. intros Hact. apply (is_active_unfocus_previous s (Some a) r Hinv).
      unfold is_active. by rewrite heap_unfocus_previous, Er.
  - intros Hact. apply (is_active_unfocus_previous s None r Hinv).
    revert Hact. unfold is_active. simpl. done.
Qed.

Lemma is_active_focus_self s (r : nat) w :
  heap s !! r = Some w → is_active (focus (Some r) s) r = true.
Proof.
  intros Hr. rewrite focus_unfold. cbv zeta.
  unfold is_active. rewrite heap_bringToFront, heap_setActive. simpl.
  rewrite heap_unfocus_previous, Hr, classList_bringToFront.
  rewrite (active_setActive _ _ _ w) by (simpl; by rewrite heap_unfocus_previous).
  by rewrite decide_True.
Qed.

Lemma style_unfocus_previous w s e :
  style (dom (unfocus_previous w s) e) = style (dom s e).
Proof. unfold unfocus_previous. repeat case_match; by rewrite ?style_setActive. Qed.

Lemma zIndex_focus_window s (r : nat) w e :
  heap s !! r = Some w →
  style (dom (focus (Some r) s) e) "zIndex"
  = if decide (root w = e) then Some (Num (maxZIndex (host s) + 1))
    else style (dom s e) "zIndex".
Proof.
  intros Hr. rewrite focus_unfold. cbv zeta.
  rewrite (zIndex_bringToFront _ w)
    by (rewrite heap_setActive; simpl; by rewrite heap_unfocus_previous).
  rewrite host_setActive, style_setActive. simpl. by rewrite style_unfocus_previous.
Qed.

Lemma focus_dangling_style s (r : nat) e :
  heap s !! r = None → style (dom (focus (Some r) s) e) = style (dom s e).
Proof.
  intros Hr. rewrite focus_unfold. cbv zeta.
  rewrite bringToFront_dangling by (rewrite heap_setActive; simpl; by rewrite heap_unfocus_previous).
  rewrite style_setActive. simpl. apply style_unfocus_previous.
Qed.

Lemma focus_none_style s e : style (dom (focus None s) e) = style (dom s e).
Proof. rewrite focus_unfold. cbv zeta. simpl. apply style_unfocus_previous. Qed.

(** [focus] establishes the invariant, also for a window that did not
    satisfy it yet. *)
Lemma inv_focus_upto w s : inv_upto w s → inv (focus w s).
Proof.
  intros Hinv. constructor.
  - intros r wr. rewrite heap_focus, csWindow_focus. apply (upto_backref w s Hinv).
  - intros r Hr. rewrite activeWindow_focus. by eapply is_active_after_focus.
  - intros r wr. rewrite activeWindow_focus, heap_focus. intros -> Hr.
    by eapply is_active_focus_self.
  - intros r wr. rewrite heap_focus. intros Hr.
    destruct w as [a|].
    + destruct (heap s !! a) as [wa|] eqn:Ea.
      * rewrite (zIndex_focus_window s a wa) by done.
        rewrite (maxZIndex_focus_window a wa) by done.
        case_decide as Hroot; [eexists; split; [done|lia]|].
        destruct (upto_z _ s Hinv r wr) as (z & Hz & Hle); [congruence|done|].
        exists z. split; [done|lia].
      * rewrite focus_dangling_style by done.
        destruct (upto_z _ s Hinv r wr) as (z & Hz & Hle); [congruence|done|].
        exists z. split; [done|]. etrans; [done|apply maxZIndex_focus].
    + rewrite focus_none_style.
      destruct (upto_z _ s Hinv r wr) as (z & Hz & Hle); [done|done|].
      exists z. split; [done|]. etrans; [done|apply maxZIndex_focus].
Qed.

Lemma inv_focus w s : inv s → inv (focus w s).
Proof. intros Hinv. by apply inv_focus_upto, inv_inv_upto. Qed.

Lemma inv_bringToFront w s : inv s → inv (bringToFront w s).
Proof.
  intros Hinv. destruct w as [a|]; [|done].
  destruct (heap s !! a) as [wa|] eqn:Ea; [|by rewrite bringToFront_dangling].
  constructor.
  - intros r wr. rewrite heap_bringToFront, csWindow_bringToFront. apply (inv_backref s Hinv).
  - intros r. unfold is_active. rewrite heap_bringToFront.
    rewrite (host_bringToFront a wa) by done. simpl. intros Hr.
    apply (inv_single s Hinv). unfold is_active.
    destruct (heap s !! r); [|done]. by rewrite classList_bringToFront in Hr.
  - intros r wr. rewrite (host_bringToFront a wa), heap_bringToFront by done. simpl.
    intros Hact Hr. unfold is_active. rewrite heap_bringToFront, Hr, classList_bringToFront.
    pose proof (inv_marked s Hinv r wr Hact Hr) as Hm. unfold is_active in Hm.
    by rewrite Hr in Hm.
  - intros r wr. rewrite heap_bringToFront. intros Hr.
    rewrite (zIndex_bringToFront a wa), (host_bringToFront a wa) by done. simpl.
    case_decide; [eexists; split; [done|lia]|].
    destruct (inv_z s Hinv r wr Hr) as (z & Hz & Hle). exists z. split; [done|lia].
Qed.

(** ** [create] *)

(** The state [create] hands to [focus] when it wraps a new element. *)
Lemma new_Window_spec L el s :
  csWindow (dom s el) = None → inv s →
  let '(this, s') := new_Window L el s in
  this = length (heap s)
  ∧ host s' = host s
  ∧ length (heap s') = S (length (heap s))
  ∧ csWindow (dom s' el) = Some this
  ∧ inv_upto (Some this) s'.
Proof.
  intros Hel Hinv. unfold new_Window. cbv zeta.
  set (w0 := mkWindow el 0 0 "" false false None 0 0 300 200).
  set (sB := update_elem el (set_csWindow (Some (length (heap s))))
               (set_heap (heap s ++ [w0]) s)).
  pose proof (frame_init L (length (heap s)) sB) as Hf.
  assert (∀ (r : nat) w, heap sB !! r = Some w →
            (heap s !! r = Some w ∧ root w ≠ el ∧ dom sB (root w) = dom s (root w))
            ∨ (r = length (heap s) ∧ root w = el)) as HsB.
  { intros r w Hr. simpl in Hr. apply lookup_snoc_Some in Hr as [[Hlt Hr]|[-> <-]].
    - left. split; [done|].
      assert (root w ≠ el) as Hne.
      { intros Heq. apply (inv_backref s Hinv) in Hr. congruence. }
      split; [done|]. simpl. by rewrite fn_lookup_alter_ne.
    - by right. }
  assert (csWindow (dom sB el) = Some (length (heap s))) as HcsB.
  { simpl. by rewrite fn_lookup_alter. }
  split; [done|]. split; [apply (frame_host _ _ Hf)|].
  split; [rewrite (frame_length _ _ Hf); simpl; rewrite length_app; simpl; lia|].
  split; [by rewrite (frame_csWindow _ _ Hf)|].
  constructor.
  - intros r wr Hr. destruct (frame_lookup _ _ _ _ Hf Hr) as (w & Hw & <-).
    rewrite (frame_csWindow _ _ Hf).
    destruct (HsB r w Hw) as [(Hs & Hne & ->)|[-> ->]]; [|done].
    by apply (inv_backref s Hinv).
  - intros r Hne. rewrite (is_active_frame _ _ r Hf), (frame_host _ _ Hf).
    unfold is_active. destruct (heap sB !! r) as [w|] eqn:Hw; [|done].
    destruct (HsB r w Hw) as [(Hs & _ & ->)|[-> _]]; [|done].
    intros Hact. apply (inv_single s Hinv). unfold is_active. by rewrite Hs.
  - intros r wr Hne. rewrite (is_active_frame _ _ r Hf), (frame_host _ _ Hf).
    intros Hact Hr. destruct (frame_lookup _ _ _ _ Hf Hr) as (w & Hw & _).
    destruct (HsB r w Hw) as [(Hs & _ & E)|[-> _]]; [|done].
    pose proof (inv_marked s Hinv r w Hact Hs) as Hm. unfold is_active in *.
    rewrite Hw, E. by rewrite Hs in Hm.
  - intros r wr Hne Hr. destruct (frame_lookup _ _ _ _ Hf Hr) as (w & Hw & <-).
    rewrite (frame_zIndex _ _ Hf), (frame_host _ _ Hf).
    destruct (HsB r w Hw) as [(Hs & _ & ->)|[-> _]]; [|done].
    by apply (inv_z s Hinv r).
Qed.

Lemma inv_upto_push w r s :
  inv_upto w s →
  inv_upto w (set_host (mkHost (edgeMaximize (host s)) (windows (host s) ++ [r])
                               (activeWindow (host s)) (maxZIndex (host s))) s).
Proof. intros []. by constructor. Qed.

Lemma inv_create L el s : inv s → inv (create L el s).2.
Proof.
  intros Hinv. unfold create. destruct el as [el|]; [|done].
  destruct (csWindow (dom s el)) as [w|] eqn:Hel.
  - simpl. apply inv_focus. eapply inv_frame; [apply frame_reposition|done].
  - pose proof (new_Window_spec L el s Hel Hinv) as Hnew.
    destruct (new_Window L el s) as [this s']. destruct Hnew as (-> & _ & _ & _ & Hupto).
    simpl. by apply inv_focus_upto, inv_upto_push.
Qed.

(** ** Every operation keeps the invariant, the windows and the counter *)

Lemma extends_refl s : extends s s.
Proof. intros r w Hr. by exists w. Qed.

Lemma extends_trans s1 s2 s3 : extends s1 s2 → extends s2 s3 → extends s1 s3.
Proof.
  intros H12 H23 r w Hr. destruct (H12 r w Hr) as (w2 & Hr2 & E2).
  destruct (H23 r w2 Hr2) as (w3 & Hr3 & E3). exists w3. split; congruence.
Qed.

Lemma extends_frame s s' : frame s s' → extends s s'.
Proof.
  intros Hf r w Hr. pose proof (frame_roots s s' Hf r) as E. rewrite Hr in E.
  destruct (heap s' !! r) as [w'|]; simplify_eq/=. by exists w'.
Qed.

Lemma extends_same_heap s s' : heap s' = heap s → extends s s'.
Proof. intros E r w Hr. exists w. by rewrite E. Qed.

Lemma frame_show_prefix hr rc this s w :
  frame s (reposition hr this
             (if rect_width rc >? 0
              then update_window this
                     (λ w, set_height (rect_height rc) (set_width (rect_width rc) w))
                     (update_elem (root w) (set_style "display" (Kw "block")) s)
              else update_elem (root w) (set_style "display" (Kw "block")) s)).
Proof.
  eapply frame_trans; [|apply frame_reposition].
  destruct (rect_width rc >? 0); repeat frame_step.
Qed.

Lemma extends_new_Window L el s : extends s (new_Window L el s).2.
Proof.
  unfold new_Window. cbv zeta. simpl.
  eapply extends_trans; [|apply extends_frame, frame_init].
  intros r w Hr. exists w. split; [|done]. simpl. by apply lookup_app_l_Some.
Qed.

Lemma host_new_Window L el s : host (new_Window L el s).2 = host s.
Proof. unfold new_Window. cbv zeta. simpl. by rewrite (frame_host _ _ (frame_init _ _ _)). Qed.

Lemma inv_show hr rc this s : inv s → inv (show hr rc this s).
Proof.
  intros Hinv. unfold show. destruct (heap s !! this) as [w|]; [|done].
  apply inv_focus. eapply inv_frame; [apply frame_show_prefix|done].
Qed.

Lemma extends_show hr rc this s : extends s (show hr rc this s).
Proof.
  unfold show. destruct (heap s !! this) as [w|]; [|apply extends_refl].
  eapply extends_trans; [apply extends_frame, (frame_show_prefix hr rc this s w)|].
  apply extends_same_heap, heap_focus.
Qed.

Lemma maxZIndex_show hr rc this s :
  maxZIndex (host s) ≤ maxZIndex (host (show hr rc this s)).
Proof.
  unfold show. destruct (heap s !! this) as [w|]; [|done].
  etrans; [|apply maxZIndex_focus].
  by rewrite (frame_host _ _ (frame_show_prefix hr rc this s w)).
Qed.

Lemma extends_create L el s : extends s (create L el s).2.
Proof.
  unfold create. destruct el as [el|]; [|apply extends_refl].
  destruct (csWindow (dom s el)) as [w|].
  - simpl. eapply extends_trans; [apply extends_frame, frame_reposition|].
    apply extends_same_heap, heap_focus.
  - pose proof (extends_new_Window L el s) as Hext.
    destruct (new_Window L el s) as [this s']. simpl in *.
    eapply extends_trans; [apply Hext|]. apply extends_same_heap.
    unfold window_focus. by rewrite heap_focus.
Qed.

Lemma maxZIndex_create L el s : maxZIndex (host s) ≤ maxZIndex (host (create L el s).2).
Proof.
  unfold create. destruct el as [el|]; [|done].
  destruct (csWindow (dom s el)) as [w|].
  - simpl. etrans; [|apply maxZIndex_focus].
    by rewrite (frame_host _ _ (frame_reposition _ _ _)).
  - pose proof (host_new_Window L el s) as Hh.
    destruct (new_Window L el s) as [this s']. simpl in *.
    etrans; [|apply maxZIndex_focus]. simpl. by rewrite Hh.
Qed.

(** [openWindowById] is a write to [style.display] followed by operations
    already covered. *)
Lemma openWindowById_unfold L el s :
  ∃ s0, frame s s0 ∧
        (openWindowById L el s
         = (let '(w, s1) := create L (Some el) s0 in bringToFront w s1)
         ∨ ∃ inst, openWindowById L el s
                   = bringToFront (Some inst) (show (hostRect L) (rect L) inst s0)).
Proof.
  exists (update_elem el (set_style "display" (Kw "block")) s).
  split; [by apply frame_update_style|].
  unfold openWindowById. cbv zeta.
  destruct (getWindowById _ _) as [inst|]; [right; by exists inst|by left].
Qed.

Lemma inv_openWindowById L el s : inv s → inv (openWindowById L el s).
Proof.
  intros Hinv. destruct (openWindowById_unfold L el s) as (s0 & Hf & [->|[inst ->]]).
  - pose proof (inv_create L (Some el) s0 (inv_frame _ _ Hf Hinv)) as Hc.
    destruct (create L (Some el) s0) as [w s1]. by apply inv_bringToFront.
  - by apply inv_bringToFront, inv_show, (inv_frame s).
Qed.

Lemma extends_openWindowById L el s : extends s (openWindowById L el s).
Proof.
  destruct (openWindowById_unfold L el s) as (s0 & Hf & [->|[inst ->]]);
    (eapply extends_trans; [by apply extends_frame|]).
  - pose proof (extends_create L (Some el) s0) as Hc.
    destruct (create L (Some el) s0) as [w s1]. simpl in Hc.
    eapply extends_trans; [done|]. apply extends_same_heap, heap_bringToFront.
  - eapply extends_trans; [apply extends_show|].
    apply extends_same_heap, heap_bringToFront.
Qed.

Lemma maxZIndex_openWindowById L el s :
  maxZIndex (host s) ≤ maxZIndex (host (openWindowById L el s)).
Proof.
  destruct (openWindowById_unfold L el s) as (s0 & Hf & [->|[inst ->]]);
    rewrite <- (frame_host _ _ Hf).
  - pose proof (maxZIndex_create L (Some el) s0) as Hc.
    destruct (create L (Some el) s0) as [w s1]. simpl in Hc.
    etrans; [done|apply maxZIndex_bringToFront].
  - etrans; [apply maxZIndex_show|apply maxZIndex_bringToFront].
Qed.

Lemma inv_apply_op o s : inv s → inv (apply_op o s).
Proof.
  intros Hinv. destruct o as [L windowElement|L el|w0|w0|hr this|hr this|hr rc this|this|hr dx dy e this|hr this
                |rc on_frame e this|on_frame this|hr]; simpl.
  - by apply inv_create.
  - by apply inv_openWindowById.
  - by apply inv_focus.
  - by apply inv_bringToFront.
  - eapply inv_frame; [apply frame_maximize|done].
  - eapply inv_frame; [apply frame_reposition|done].
  - by apply inv_show.
  - unfold hide. destruct (heap s !! this) as [w|]; [|done].
    apply inv_focus. eapply inv_frame; [|done]. frame_step. frame_step.
  - eapply inv_frame; [apply frame_dragMove|done].
  - eapply inv_frame; [apply frame_dragEnd|done].
  - eapply inv_frame; [apply frame_root_mousemove|done].
  - eapply inv_frame; [apply frame_root_mousedown_resize|done].
  - eapply inv_frame; [apply frame_viewport_resize|done].
Qed.

Lemma extends_apply_op o s : extends s (apply_op o s).
Proof.
  destruct o as [L windowElement|L el|w0|w0|hr this|hr this|hr rc this|this|hr dx dy e this|hr this
                |rc on_frame e this|on_frame this|hr]; simpl.
  - apply extends_create.
  - apply extends_openWindowById.
  - apply extends_same_heap, heap_focus.
  - apply extends_same_heap, heap_bringToFront.
  - apply extends_frame, frame_maximize.
  - apply extends_frame, frame_reposition.
  - apply extends_show.
  - unfold hide. destruct (heap s !! this) as [w|]; [|apply extends_refl].
    apply extends_same_heap. by rewrite heap_focus.
  - apply extends_frame, frame_dragMove.
  - apply extends_frame, frame_dragEnd.
  - apply extends_frame, frame_root_mousemove.
  - apply extends_frame, frame_root_mousedown_resize.
  - apply extends_frame, frame_viewport_resize.
Qed.

(** No operation lowers the counter. *)
Lemma maxZIndex_apply_op o s : maxZIndex (host s) ≤ maxZIndex (host (apply_op o s)).
Proof.
  destruct o as [L windowElement|L el|w0|w0|hr this|hr this|hr rc this|this|hr dx dy e this|hr this
                |rc on_frame e this|on_frame this|hr]; simpl.
  - apply maxZIndex_create.
  - apply maxZIndex_openWindowById.
  - apply maxZIndex_focus.
  - apply maxZIndex_bringToFront.
  - by rewrite (frame_host _ _ (frame_maximize _ _ _)).
  - by rewrite (frame_host _ _ (frame_reposition _ _ _)).
  - apply maxZIndex_show.
  - unfold hide. destruct (heap s !! this) as [w|]; [|done].
    etrans; [|apply maxZIndex_focus]. done.
  - by rewrite (frame_host _ _ (frame_dragMove _ _ _ _ _ _)).
  - by rewrite (frame_host _ _ (frame_dragEnd _ _ _)).
  - by rewrite (frame_host _ _ (frame_root_mousemove _ _ _ _ _)).
  - by rewrite (frame_host _ _ (frame_root_mousedown_resize _ _ _)).
  - by rewrite (frame_host _ _ (frame_viewport_resize _ _)).
Qed.

Lemma inv_run_ops ops s : inv s → inv (run_ops ops s).
Proof.
  revert s. induction ops as [|o ops IH]; intros s Hinv; [done|].
  simpl. by apply IH, inv_apply_op.
Qed.

Lemma extends_run_ops ops s : extends s (run_ops ops s).
Proof.
  revert s. induction ops as [|o ops IH]; intros s; [apply extends_refl|].
  simpl. eapply extends_trans; [apply extends_apply_op|apply IH].
Qed.

Lemma maxZIndex_run_ops ops s : maxZIndex (host s) ≤ maxZIndex (host (run_ops ops s)).
Proof.
  revert s. induction ops as [|o ops IH]; intros s; [done|].
  simpl. etrans; [apply maxZIndex_apply_op|apply IH].
Qed.

(** A freshly loaded page satisfies the invariant, hence so does every
    state the operations lead to. *)
Lemma inv_new_page d : inv (new_page d).
Proof. constructor; intros r; unfold is_active; simpl; by rewrite ?lookup_nil. Qed.

Lemma inv_reachable d ops : inv (run_ops ops (new_page d)).
Proof. apply inv_run_ops, inv_new_page. Qed.

(** X1. The invariant, spelled out: on every page the operations lead to, the
    root of each window refers back to it, so no two windows share a root;
    a window is marked active exactly when it is the host's
    [activeWindow]; and the stacking value of each window is a number the
    counter has reached. *)
Theorem page_invariant (d : ElemId → Element) (ops : list Op) :
  let s := run_ops ops (new_page d) in
  (∀ (r : nat) w, heap s !! r = Some w → csWindow (dom s (root w)) = Some r)
  ∧ (∀ (r1 r2 : nat) w1 w2,
       heap s !! r1 = Some w1 → heap s !! r2 = Some w2 → root w1 = root w2 → r1 = r2)
  ∧ (∀ r : nat, is_active s r = true
                ↔ activeWindow (host s) = Some r ∧ is_Some (heap s !! r))
  ∧ (∀ (r : nat) w, heap s !! r = Some w →
       ∃ z, zIndex_of s r = Some (Num z) ∧ z ≤ maxZIndex (host s)).
Proof.
  intros s. pose proof (inv_reachable d ops) as Hinv. fold s in Hinv.
  split; [apply (inv_backref s Hinv)|]. split.
  { intros r1 r2 w1 w2. apply (roots_distinct None). by apply inv_inv_upto. }
  split.
  - intros r. split.
    + intros Hact. split; [by apply (inv_single s Hinv)|].
      unfold is_active in Hact. by destruct (heap s !! r).
    + intros [Ha [w Hw]]. by apply (inv_marked s Hinv r w).
  - intros r w Hr. destruct (inv_z s Hinv r w Hr) as (z & Hz & Hle).
    exists z. split; [|done]. unfold zIndex_of. by rewrite Hr.
Qed.

Lemma heap_focus_all ws s : heap (focus_all ws s) = heap s.
Proof.
  revert s. induction ws as [|w ws IH]; intros s; [done|].
  simpl. by rewrite IH, heap_focus.
Qed.

Lemma inv_focus_all ws s : inv s → inv (focus_all ws s).
Proof.
  revert s. induction ws as [|w ws IH]; intros s Hinv; [done|].
  simpl. by apply IH, inv_focus.
Qed.

Lemma focus_all_snoc ws w s : focus_all (ws ++ [w]) s = focus w (focus_all ws s).
Proof. unfold focus_all. by rewrite fold_left_app. Qed.

Lemma last_window_snoc ws r : last_window (ws ++ [Some r]) = Some r.
Proof. unfold last_window. by rewrite fold_left_app. Qed.

(** The single-active property on any state that satisfies the invariant. *)
Lemma focus_all_single_active s ws w :
  inv s →
  let s' := focus_all (ws ++ [w]) s in
  (∀ r1 r2, is_active s' r1 = true → is_active s' r2 = true → r1 = r2)
  ∧ (∀ r, is_active s' r = true → w = Some r ∧ last_window (ws ++ [w]) = Some r)
  ∧ activeWindow (host s') = w
  ∧ (∀ r, w = Some r → is_Some (heap s !! r) → is_active s' r = true)
  ∧ (∀ a r, activeWindow (host (focus_all ws s)) = Some a → w = Some r → a ≠ r →
            is_active s' a = false).
Proof.
  intros Hinv s'. subst s'. rewrite focus_all_snoc.
  pose proof (inv_focus_all ws s Hinv) as Hinv'.
  set (s0 := focus_all ws s) in *.
  assert (∀ r, is_active (focus w s0) r = true → w = Some r) as Hone.
  { intros r. apply is_active_after_focus. by apply inv_inv_upto. }
  split; [|split; [|split; [|split]]].
  - intros r1 r2 H1 H2. apply Hone in H1, H2. congruence.
  - intros r Hr. apply Hone in Hr as ->. split; [done|apply last_window_snoc].
  - apply activeWindow_focus.
  - intros r -> [wr Hr].
    apply (is_active_focus_self s0 r wr). subst s0. by rewrite heap_focus_all.
  - intros a r _ -> Hne. destruct (is_active (focus (Some r) s0) a) eqn:E; [|done].
    apply Hone in E. congruence.
Qed.

(** ** C1 *)

(** C1. On every page the operations can lead to, after each call of any
    sequence of [focus(w)] calls ([w] a window or none): at most one window
    is marked active; a window that is marked active is the argument of the
    call just made, hence of the most recent call with a window; the
    host's [activeWindow] is that argument, which is marked active when it
    is a window of the page; and the window that was active before the
    call, when another one is focused, is no longer marked. *)
Theorem focus_single_active (d : ElemId → Element) (ops : list Op)
    (ws : list (option WinRef)) (w : option WinRef) :
  let s := run_ops ops (new_page d) in
  let s' := focus_all (ws ++ [w]) s in
  (∀ r1 r2, is_active s' r1 = true → is_active s' r2 = true → r1 = r2)
  ∧ (∀ r, is_active s' r = true → w = Some r ∧ last_window (ws ++ [w]) = Some r)
  ∧ activeWindow (host s') = w
  ∧ (∀ r, w = Some r → is_Some (heap s !! r) → is_active s' r = true)
  ∧ (∀ a r, activeWindow (host (focus_all ws s)) = Some a → w = Some r → a ≠ r →
            is_active s' a = false).
Proof. intros s. apply focus_all_single_active, inv_reachable. Qed.

(** The scenario of the design document: windows A, B, C created in this
    order; focusing B, then C, then A leaves A the active window, and the
    stacking values given by the three calls increase. *)
Example focus_scenario :
  let s1 := focus (Some 1%nat) demo3 in
  let s2 := focus (Some 2%nat) s1 in
  let s3 := focus (Some 0%nat) s2 in
  activeWindow (host s3) = Some 0%nat
  ∧ (is_active s3 0, is_active s3 1, is_active s3 2) = (true, false, false)
  ∧ (zIndex_of s1 1, zIndex_of s2 2, zIndex_of s3 0)
    = (Some (Num 1004), Some (Num 1005), Some (Num 1006)).
Proof. vm_compute. done. Qed.

(** ** C8 *)

Lemma zIndex_of_bringToFront (r : nat) w s :
  heap s !! r = Some w →
  zIndex_of (bringToFront (Some r) s) r = Some (Num (maxZIndex (host s) + 1)).
Proof.
  intros Hr. unfold zIndex_of. rewrite heap_bringToFront, Hr.
  rewrite (zIndex_bringToFront r w) by done. by rewrite decide_True.
Qed.

Lemma maxZIndex_bringToFront_window (r : nat) w s :
  heap s !! r = Some w →
  maxZIndex (host (bringToFront (Some r) s)) = maxZIndex (host s) + 1.
Proof. intros Hr. by rewrite (host_bringToFront r w). Qed.

(** C8. Take a call of [bringToFront] that assigns a stacking value (its
    argument is a window), then any operations of the page, then another
    such call. Each call assigns the counter's new value; the second value
    is strictly greater than the first; and the counter grows at each of
    the two calls and never decreases in between, so no value is assigned
    twice. *)
Theorem bringToFront_strictly_monotonic (s : State) (r1 r2 : WinRef) (w1 w2 : Window)
    (ops : list Op) :
  heap s !! r1 = Some w1 →
  let s1 := bringToFront (Some r1) s in
  let s2 := run_ops ops s1 in
  heap s2 !! r2 = Some w2 →
  let s3 := bringToFront (Some r2) s2 in
  ∃ z1 z2,
    zIndex_of s1 r1 = Some (Num z1) ∧ zIndex_of s3 r2 = Some (Num z2)
    ∧ z1 < z2
    ∧ z1 = maxZIndex (host s1) ∧ z2 = maxZIndex (host s3)
    ∧ maxZIndex (host s) < maxZIndex (host s1)
    ∧ maxZIndex (host s1) ≤ maxZIndex (host s2)
    ∧ maxZIndex (host s2) < maxZIndex (host s3).
Proof.
  intros H1 s1 s2 H2 s3.
  exists (maxZIndex (host s) + 1), (maxZIndex (host s2) + 1).
  pose proof (maxZIndex_run_ops ops s1) as Hmono. fold s2 in Hmono.
  assert (maxZIndex (host s1) = maxZIndex (host s) + 1) as E1
    by (by apply (maxZIndex_bringToFront_window r1 w1)).
  assert (maxZIndex (host s3) = maxZIndex (host s2) + 1) as E3
    by (by apply (maxZIndex_bringToFront_window r2 w2)).
  split; [by apply (zIndex_of_bringToFront r1 w1)|].
  split; [by apply (zIndex_of_bringToFront r2 w2)|].
  lia.
Qed.

Lemma bringToFront_strictly_monotonic_witness :
  ∃ z1 z2,
    zIndex_of (bringToFront (Some 0%nat) demo3) 0 = Some (Num z1)
    ∧ zIndex_of (bringToFront (Some 1%nat)
                   (run_ops [OFocus None; OMaximize demo_host 2]
                      (bringToFront (Some 0%nat) demo3))) 1 = Some (Num z2)
    ∧ z1 < z2.
Proof.
  destruct (bringToFront_strictly_monotonic demo3 0 1
              (mkWindow 0 0 0 "" false false None 10 10 300 200)
              (mkWindow 1 0 0 "" false false None 50 50 300 200)
              [OFocus None; OMaximize demo_host 2])
    as (z1 & z2 & H1 & H2 & Hlt & _); [reflexivity|reflexivity|].
  exists z1, z2. split; [exact H1|]. split; [exact H2|exact Hlt].
Defined.

(** X2. On a page the operations lead to, the value [bringToFront] assigns
    is above the stacking value of every window. *)
Theorem bringToFront_above_all (d : ElemId → Element) (ops : list Op) (r r' : WinRef)
    (w w' : Window) :
  let s := run_ops ops (new_page d) in
  heap s !! r = Some w → heap s !! r' = Some w' →
  ∃ z z', zIndex_of (bringToFront (Some r) s) r = Some (Num z)
          ∧ zIndex_of s r' = Some (Num z') ∧ z' < z.
Proof.
  intros s Hr Hr'. destruct (inv_z s (inv_reachable d ops) r' w' Hr') as (z' & Hz' & Hle).
  exists (maxZIndex (host s) + 1), z'. split; [by apply (zIndex_of_bringToFront r w)|].
  split; [|lia]. unfold zIndex_of. by rewrite Hr'.
Qed.

Lemma bringToFront_above_all_witness :
  ∃ z z', zIndex_of (bringToFront (Some 0%nat) demo3) 0 = Some (Num z)
          ∧ zIndex_of demo3 2 = Some (Num z') ∧ z' < z.
Proof.
  exact (bringToFront_above_all demo_dom
           [OCreate (demo_layout 10 10) (Some 0%nat);
            OCreate (demo_layout 50 50) (Some 1%nat);
            OCreate (demo_layout 90 90) (Some 2%nat)]
           0 2 (mkWindow 0 0 0 "" false false None 10 10 300 200)
           (mkWindow 2 0 0 "" false false None 90 90 300 200)
           eq_refl eq_refl).
Defined.

(** ** C10 *)

Lemma set_host_same s : set_host (host s) s = s.
Proof. by destruct s. Qed.

Lemma unfocus_previous_active (r : nat) s :
  activeWindow (host s) = Some r → unfocus_previous (Some r) s = s.
Proof.
  intros Ha. unfold unfocus_previous. rewrite Ha.
  by rewrite bool_decide_eq_false_2 by (intros Hne; by apply Hne).
Qed.

Lemma focus_active (r : nat) s :
  activeWindow (host s) = Some r →
  focus (Some r) s = bringToFront (Some r) (setActive r true s).
Proof.
  intros Ha. rewrite focus_unfold. cbv zeta. rewrite unfocus_previous_active by done.
  replace (mkHost (edgeMaximize (host s)) (windows (host s)) (Some r) (maxZIndex (host s)))
    with (host s) by (destruct (host s); simpl in *; congruence).
  by rewrite set_host_same.
Qed.

(** C10. On a page the operations lead to, let [w] be a window that is the
    host's [activeWindow]. Then [focus(w)] does not run the deactivating
    statement: it is [setActive(true)] followed by [bringToFront]; [w] is
    marked active before and after and the class list of its root is the
    same; yet the counter is incremented and [w] gets the new value, which
    is strictly above the stacking value it had. *)
Theorem refocus_active_window (d : ElemId → Element) (ops : list Op) (r : WinRef)
    (w : Window) :
  let s := run_ops ops (new_page d) in
  heap s !! r = Some w →
  activeWindow (host s) = Some r →
  let s' := focus (Some r) s in
  unfocus_previous (Some r) s = s
  ∧ s' = bringToFront (Some r) (setActive r true s)
  ∧ is_active s r = true
  ∧ is_active s' r = true
  ∧ classList (dom s' (root w)) = classList (dom s (root w))
  ∧ maxZIndex (host s') = maxZIndex (host s) + 1
  ∧ zIndex_of s' r = Some (Num (maxZIndex (host s) + 1))
  ∧ ∃ z, zIndex_of s r = Some (Num z) ∧ z < maxZIndex (host s) + 1.
Proof.
  intros s Hr Ha s'. pose proof (inv_reachable d ops) as Hinv. fold s in Hinv.
  pose proof (inv_marked s Hinv r w Ha Hr) as Hact.
  split; [by apply unfocus_previous_active|].
  split; [by apply focus_active|].
  split; [done|].
  split; [by apply (is_active_focus_self s r w)|].
  split.
  { subst s'. rewrite focus_active by done. rewrite classList_bringToFront.
    unfold setActive. rewrite Hr. simpl. rewrite fn_lookup_alter. simpl.
    apply add_contained. unfold is_active in Hact. by rewrite Hr in Hact. }
  split; [by apply (maxZIndex_focus_window r w)|].
  split.
  { unfold zIndex_of. subst s'. rewrite heap_focus, Hr.
    rewrite (zIndex_focus_window s r w) by done. by rewrite decide_True. }
  destruct (inv_z s Hinv r w Hr) as (z & Hz & Hle).
  exists z. split; [|lia]. unfold zIndex_of. by rewrite Hr.
Qed.

Lemma refocus_active_window_witness :
  let s' := focus (Some 2%nat) demo3 in
  activeWindow (host demo3) = Some 2%nat
  ∧ is_active s' 2 = true
  ∧ maxZIndex (host s') = maxZIndex (host demo3) + 1
  ∧ zIndex_of s' 2 = Some (Num (maxZIndex (host demo3) + 1)).
Proof.
  destruct (refocus_active_window demo_dom
              [OCreate (demo_layout 10 10) (Some 0%nat);
               OCreate (demo_layout 50 50) (Some 1%nat);
               OCreate (demo_layout 90 90) (Some 2%nat)]
              2 (mkWindow 2 0 0 "" false false None 90 90 300 200))
    as (_ & _ & _ & H1 & _ & H2 & H3 & _); [reflexivity|reflexivity|].
  split; [reflexivity|]. split; [exact H1|]. split; [exact H2|exact H3].
Defined.

(** ** C7 *)

(** [create] on an element that has a [Window]: lines 66-71. *)
Lemma create_wrapped L el s (w : nat) :
  csWindow (dom s el) = Some w →
  (create L (Some el) s).1 = Some w
  ∧ csWindow (dom (create L (Some el) s).2 el) = Some w
  ∧ windows (host (create L (Some el) s).2) = windows (host s)
  ∧ length (heap (create L (Some el) s).2) = length (heap s).
Proof.
  intros Hel. unfold create. rewrite Hel. simpl. unfold window_focus.
  pose proof (frame_reposition (hostRect L) w s) as Hf.
  split; [done|]. split; [by rewrite csWindow_focus, (frame_csWindow _ _ Hf)|].
  split; [by rewrite windows_focus, (frame_host _ _ Hf)|].
  by rewrite heap_focus, (frame_length _ _ Hf).
Qed.

(** [create] on an element that has none: lines 72-75. *)
Lemma create_fresh L el s :
  csWindow (dom s el) = None →
  (create L (Some el) s).1 = Some (length (heap s))
  ∧ csWindow (dom (create L (Some el) s).2 el) = Some (length (heap s))
  ∧ windows (host (create L (Some el) s).2) = windows (host s) ++ [length (heap s)]
  ∧ length (heap (create L (Some el) s).2) = S (length (heap s)).
Proof.
  intros Hel. unfold create. rewrite Hel. unfold new_Window. cbv zeta. simpl.
  unfold window_focus.
  set (sB := update_elem el (set_csWindow (Some (length (heap s))))
               (set_heap (heap s ++ [mkWindow el 0 0 "" false false None 0 0 300 200]) s)).
  pose proof (frame_init L (length (heap s)) sB) as Hf.
  split; [done|]. split; [|split].
  - rewrite csWindow_focus. simpl. rewrite (frame_csWindow _ _ Hf). simpl.
    by rewrite fn_lookup_alter.
  - rewrite windows_focus. simpl. by rewrite (frame_host _ _ Hf).
  - rewrite heap_focus. simpl. rewrite (frame_length _ _ Hf). simpl.
    rewrite length_app. simpl. lia.
Qed.

Lemma create_all_cons L Ls el s :
  create_all (L :: Ls) el s
  = ((create L (Some el) s).1 :: (create_all Ls el (create L (Some el) s).2).1,
     (create_all Ls el (create L (Some el) s).2).2).
Proof.
  simpl. destruct (create L (Some el) s) as [r s1]. simpl.
  by destruct (create_all Ls el s1).
Qed.

Lemma create_all_wrapped Ls el s (w : nat) :
  csWindow (dom s el) = Some w →
  Forall (λ r, r = Some w) (create_all Ls el s).1
  ∧ csWindow (dom (create_all Ls el s).2 el) = Some w
  ∧ windows (host (create_all Ls el s).2) = windows (host s)
  ∧ length (heap (create_all Ls el s).2) = length (heap s).
Proof.
  revert s. induction Ls as [|L Ls IH]; intros s Hel; [by repeat split|].
  rewrite create_all_cons.
  destruct (create_wrapped L el s w Hel) as (E1 & E2 & E3 & E4).
  destruct (IH _ E2) as (F1 & F2 & F3 & F4). simpl.
  split; [constructor; done|]. split; [done|]. split; congruence.
Qed.

(** C7. For every element [el] and every state, [create(el)] called
    twice returns the same [Window] instance, the second call adds nothing
    to the host's [windows], and neither do any number of further calls,
    which return that instance again. When [el] had no [Window] before the
    first call, the collection has grown by exactly one however many calls
    were made; when it had one, that instance is returned and the
    collection has not grown. *)
Theorem create_idempotent (L1 L2 : Layout) (Ls : list Layout) (el : ElemId) (s : State) :
  let '(w1, s1) := create L1 (Some el) s in
  let '(w2, s2) := create L2 (Some el) s1 in
  let '(ws, s3) := create_all Ls el s2 in
  is_Some w1 ∧ w2 = w1 ∧ Forall (λ w, w = w1) ws
  ∧ windows (host s2) = windows (host s1)
  ∧ windows (host s3) = windows (host s1)
  ∧ (csWindow (dom s el) = None →
     w1 = Some (length (heap s))
     ∧ length (windows (host s1)) = S (length (windows (host s)))
     ∧ length (windows (host s3)) = S (length (windows (host s))))
  ∧ (∀ w, csWindow (dom s el) = Some w →
     w1 = Some w ∧ windows (host s3) = windows (host s)).
Proof.
  assert (∃ w : nat, (create L1 (Some el) s).1 = Some w
                     ∧ csWindow (dom (create L1 (Some el) s).2 el) = Some w) as (w & Hw1 & Hcs1).
  { destruct (csWindow (dom s el)) as [w|] eqn:Hel.
    - exists w. by destruct (create_wrapped L1 el s w Hel) as (? & ? & _).
    - exists (length (heap s)). by destruct (create_fresh L1 el s Hel) as (? & ? & _). }
  pose proof (create_fresh L1 el s) as Hfresh.
  pose proof (create_wrapped L1 el s) as Hwrapped.
  destruct (create L1 (Some el) s) as [w1 s1]. simpl in *. subst w1.
  destruct (create_wrapped L2 el s1 w Hcs1) as (E1 & E2 & E3 & E4).
  destruct (create L2 (Some el) s1) as [w2 s2]. simpl in *.
  destruct (create_all_wrapped Ls el s2 w E2) as (F1 & F2 & F3 & F4).
  destruct (create_all Ls el s2) as [ws s3]. simpl in *.
  split; [by eexists|]. split; [done|]. split; [done|]. split; [done|].
  split; [congruence|]. split.
  - intros Hel. destruct (Hfresh Hel) as (G1 & _ & G3 & _).
    split; [done|]. rewrite F3, E3, G3, length_app. simpl. split; lia.
  - intros w0 Hel. destruct (Hwrapped w0 Hel) as (G1 & _ & G3 & _).
    split; [done|]. congruence.
Qed.

(** The first window of a fresh page: three calls on element 0 return the
    instance 0 each time and leave one window in the collection. *)
Example create_thrice :
  let '(ws, s) := create_all [demo_layout 10 10; demo_layout 0 0; demo_layout 700 5] 0
                    (new_page demo_dom) in
  ws = [Some 0%nat; Some 0%nat; Some 0%nat] ∧ windows (host s) = [0%nat].
Proof. vm_compute. done. Qed.

(** ** Geometry: [reposition] and [maximize] *)

Lemma heap_updatePosition this s : heap (updatePosition this s) = heap s.
Proof. unfold updatePosition. by repeat case_match. Qed.

Lemma lookup_reposition hr (this : nat) w s :
  heap s !! this = Some w →
  heap (reposition hr this s) !! this = Some (reposition_this hr w).
Proof.
  intros Hw. unfold reposition. rewrite heap_updatePosition. simpl.
  by rewrite list_lookup_alter_eq, Hw.
Qed.

Lemma lookup_maximize_normal hr (this : nat) w s :
  heap s !! this = Some w → maximized w = false →
  heap (maximize hr this s) !! this
  = Some (reposition_this hr
            (set_oldPosition (Some (mkPosition (x w) (y w) (width w) (height w)))
               (set_maximized true w))).
Proof.
  intros Hw Hm. unfold maximize. rewrite Hw, Hm. simpl.
  erewrite lookup_reposition; [done|]. simpl.
  by rewrite !list_lookup_alter_eq, Hw.
Qed.

Lemma lookup_maximize_maximized hr (this : nat) w p s :
  heap s !! this = Some w → maximized w = true → oldPosition w = Some p →
  heap (maximize hr this s) !! this
  = Some (reposition_this hr (assign p (set_maximized false w))).
Proof.
  intros Hw Hm Hp. unfold maximize. rewrite Hw, Hm, Hp. simpl.
  erewrite lookup_reposition; [done|]. simpl.
  by rewrite !list_lookup_alter_eq, Hw.
Qed.

(** What the clamp does to a window that is not maximized. *)
Lemma reposition_this_normal hr w :
  maximized w = false →
  let w' := reposition_this hr w in
  maximized w' = false ∧ width w' = width w ∧ height w' = height w
  ∧ y w' = (if y w <? 0 then 0
            else if y w + 30 >? rect_height hr then rect_height hr - 30 else y w)
  ∧ x w' = (if x w + width w <? 50 then 50 - width w
            else if x w + 30 >? rect_width hr then rect_width hr - 30 else x w).
Proof.
  intros Hm. unfold reposition_this. rewrite Hm.
  destruct (y w <? 0), (y w + 30 >? rect_height hr); simpl;
    destruct (x w + width w <? 50), (x w + 30 >? rect_width hr); done.
Qed.

Lemma geometry_inv wa wb :
  geometry wa = geometry wb →
  x wa = x wb ∧ y wa = y wb ∧ width wa = width wb ∧ height wa = height wb.
Proof. unfold geometry. by intros [= -> -> -> ->]. Qed.

(** [reposition] reads the geometry and the maximized flag only, and
    keeps the flag. *)
Lemma reposition_this_ext hr wa wb :
  maximized wa = maximized wb → geometry wa = geometry wb →
  geometry (reposition_this hr wa) = geometry (reposition_this hr wb).
Proof.
  destruct wa, wb. unfold geometry, reposition_this. simpl.
  intros -> [= -> -> -> ->]. destruct maximized1; [done|]. simpl.
  destruct (y1 <? 0), (y1 + 30 >? rect_height hr); simpl;
    destruct (x1 + width1 <? 50), (x1 + 30 >? rect_width hr); done.
Qed.

Lemma maximized_reposition_this hr w : maximized (reposition_this hr w) = maximized w.
Proof.
  unfold reposition_this. destruct (maximized w) eqn:Hm; [done|].
  destruct (y w <? 0), (y w + 30 >? rect_height hr); simpl;
    destruct (x w + width w <? 50), (x w + 30 >? rect_width hr); done.
Qed.

(** The clamp leaves the geometry alone exactly when it is within
    bounds. *)
Lemma reposition_this_fixed hr w :
  maximized w = false →
  geometry (reposition_this hr w) = geometry w ↔ within_bounds hr w.
Proof.
  intros Hm. destruct (reposition_this_normal hr w Hm) as (_ & Ew & Eh & Ey & Ex).
  unfold geometry, within_bounds. rewrite Ew, Eh, Ey, Ex. split.
  - intros E. injection E as E1 E2. repeat case_match; lia.
  - intros (? & ? & ? & ?). repeat case_match; try lia; done.
Qed.

(** X3. The clamp of [reposition()] on a window that is not maximized: a
    negative [y] becomes 0, a [y] with [y + 30] beyond the root's height
    becomes [height - 30]; an [x] with [x + width < 50] becomes
    [50 - width], otherwise an [x] with [x + 30] beyond the root's width
    becomes [width - 30]; a geometry within bounds is left as it is. *)
Theorem reposition_clamps (hr : Rect) (this : WinRef) (w : Window) (s : State) :
  heap s !! this = Some w →
  maximized w = false →
  ∃ w', heap (reposition hr this s) !! this = Some w'
        ∧ width w' = width w ∧ height w' = height w
        ∧ (y w < 0 → y w' = 0)
        ∧ (0 ≤ y w → rect_height hr < y w + 30 → y w' = rect_height hr - 30)
        ∧ (x w + width w < 50 → x w' = 50 - width w)
        ∧ (50 ≤ x w + width w → rect_width hr < x w + 30 → x w' = rect_width hr - 30)
        ∧ (within_bounds hr w → geometry w' = geometry w).
Proof.
  intros Hw Hm. exists (reposition_this hr w).
  split; [by apply lookup_reposition|].
  destruct (reposition_this_normal hr w Hm) as (_ & Ew & Eh & Ey & Ex).
  split; [done|]. split; [done|]. rewrite Ey, Ex.
  split; [intros; repeat case_match; lia|].
  split; [intros; repeat case_match; lia|].
  split; [intros; repeat case_match; lia|].
  split; [intros; repeat case_match; lia|].
  intros Hb. by apply reposition_this_fixed.
Qed.

Lemma reposition_clamps_witness :
  ∃ w', heap (reposition demo_host 0%nat dragged_left) !! 0%nat = Some w'
        ∧ x w' = 50 - 300.
Proof.
  destruct (reposition_clamps demo_host 0
              (mkWindow 0 0 0 "" false false None (-290) 10 300 200) dragged_left)
    as (w' & H1 & _ & _ & _ & _ & H2 & _); [reflexivity|reflexivity|].
  exists w'. split; [exact H1|]. apply H2. simpl. lia.
Defined.

(** ** C5 *)

(** C5, as the code has it. After [reposition()] the four geometry fields
    are non-negative when the bounding root is at least 30 wide and 30
    high and, for a window that is not maximized, [x], [width] and
    [height] were non-negative before; [y] may have been anything. *)
Theorem reposition_nonnegative (hr : Rect) (this : WinRef) (w : Window) (s : State) :
  heap s !! this = Some w →
  30 ≤ rect_width hr → 30 ≤ rect_height hr →
  (maximized w = false → 0 ≤ x w ∧ 0 ≤ width w ∧ 0 ≤ height w) →
  ∃ w', heap (reposition hr this s) !! this = Some w'
        ∧ geometry w' = geometry (reposition_this hr w)
        ∧ nonneg_geometry w'.
Proof.
  intros Hw HW HH Hprior. exists (reposition_this hr w).
  split; [by apply lookup_reposition|]. split; [done|].
  destruct (maximized w) eqn:Hm.
  - unfold reposition_this, nonneg_geometry. rewrite Hm. simpl. lia.
  - destruct (reposition_this_normal hr w Hm) as (_ & Ew & Eh & Ey & Ex).
    destruct (Hprior eq_refl) as (? & ? & ?).
    unfold nonneg_geometry. rewrite Ew, Eh, Ey, Ex. repeat case_match; lia.
Qed.

Lemma reposition_nonnegative_witness :
  ∃ w', heap (reposition demo_host 0%nat demo3) !! 0%nat = Some w'
        ∧ geometry w' = (10, 10, 300, 200)
        ∧ nonneg_geometry w'.
Proof.
  destruct (reposition_nonnegative demo_host 0
              (mkWindow 0 0 0 "" false false None 10 10 300 200) demo3)
    as (w' & H1 & H2 & H3);
    [reflexivity|simpl; lia|simpl; lia|simpl; lia|].
  exists w'. split; [exact H1|]. split; [exact H2|exact H3].
Defined.

(** C5 fails as stated: a window 300 wide that was dragged to [x = -290]
    is put back at [x = 50 - 300 = -250] by [reposition()], in a root of
    800 by 600. *)
Lemma reposition_negative_x :
  let s := dragged_left in
  let s' := reposition demo_host 0%nat s in
  geometry <$> heap s !! 0%nat = Some (-290, 10, 300, 200)
  ∧ geometry <$> heap s' !! 0%nat = Some (-250, 10, 300, 200)
  ∧ x <$> heap s' !! 0%nat = Some (-250)
  ∧ -250 < 0.
Proof. vm_compute. repeat split. Qed.

(** The other ways in which a field stays negative: a negative width or
    height is not touched, and a root less than 30 high or wide pulls [y]
    or [x] below zero. *)
Example reposition_this_negative_fields :
  geometry (reposition_this demo_host (mkWindow 0 0 0 "" false false None 10 10 (-20) (-5)))
  = (70, 10, -20, -5)
  ∧ geometry (reposition_this (mkRect 0 0 20 10)
                (mkWindow 0 0 0 "" false false None 100 5 300 200))
    = (-10, -20, 300, 200).
Proof. done. Qed.

(** ** C4 *)

(** C4, as the code has it. For a window that is not maximized,
    [maximize()] saves the geometry and fills the root, and a second
    [maximize()] restores the saved geometry and then clamps it with
    [reposition()]: width and height are those before the first call, and
    the whole geometry is the one before the first call exactly when that
    geometry is within the bounds of the clamp for the root's size at the
    second call. *)
Theorem maximize_twice_restores (hr1 hr2 : Rect) (this : WinRef) (w : Window) (s : State) :
  heap s !! this = Some w →
  maximized w = false →
  ∃ w1 w2,
    heap (maximize hr1 this s) !! this = Some w1
    ∧ maximized w1 = true
    ∧ geometry w1 = (0, 0, rect_width hr1, rect_height hr1)
    ∧ oldPosition w1 = Some (mkPosition (x w) (y w) (width w) (height w))
    ∧ heap (maximize hr2 this (maximize hr1 this s)) !! this = Some w2
    ∧ maximized w2 = false
    ∧ geometry w2 = geometry (reposition_this hr2 w)
    ∧ width w2 = width w ∧ height w2 = height w
    ∧ (geometry w2 = geometry w ↔ within_bounds hr2 w).
Proof.
  intros Hw Hm.
  pose proof (lookup_maximize_normal hr1 this w s Hw Hm) as H1.
  set (w1 := reposition_this hr1 _) in H1.
  assert (maximized w1 = true ∧ geometry w1 = (0, 0, rect_width hr1, rect_height hr1)
          ∧ oldPosition w1 = Some (mkPosition (x w) (y w) (width w) (height w)))
    as (Hm1 & Hg1 & Ho1) by done.
  pose proof (lookup_maximize_maximized hr2 this w1 _ _ H1 Hm1 Ho1) as H2.
  set (w2 := reposition_this hr2 _) in H2.
  assert (geometry w2 = geometry (reposition_this hr2 w)) as Hg2.
  { subst w2. by apply reposition_this_ext. }
  exists w1, w2. split; [done|]. split; [done|]. split; [done|]. split; [done|].
  split; [done|]. split.
  { subst w2. by rewrite maximized_reposition_this. }
  split; [done|].
  destruct (reposition_this_normal hr2 w Hm) as (_ & Ew & Eh & _).
  destruct (geometry_inv _ _ Hg2) as (_ & _ & Ew2 & Eh2).
  clearbody w1 w2.
  split; [congruence|]. split; [congruence|].
  rewrite Hg2. by apply reposition_this_fixed.
Qed.

Lemma maximize_twice_restores_witness :
  ∃ w2, heap (maximize demo_host 0%nat (maximize demo_host 0%nat demo3)) !! 0%nat = Some w2
        ∧ geometry w2 = (10, 10, 300, 200).
Proof.
  destruct (maximize_twice_restores demo_host demo_host 0
              (mkWindow 0 0 0 "" false false None 10 10 300 200) demo3)
    as (w1 & w2 & _ & _ & _ & _ & H2 & _ & Hg & _); [reflexivity|reflexivity|].
  exists w2. split; [exact H2|exact Hg].
Defined.

(** C4 fails as stated: a window made from an element laid out below the
    root's bottom edge has [y = 1000]; maximized and restored in the same
    root of 800 by 600, it comes back at [y = 600 - 30]. *)
Lemma maximize_twice_moves_window :
  let s := below_the_fold in
  let s' := maximize demo_host 0%nat (maximize demo_host 0%nat s) in
  maximized <$> heap s !! 0%nat = Some false
  ∧ geometry <$> heap s !! 0%nat = Some (10, 1000, 300, 200)
  ∧ geometry <$> heap s' !! 0%nat = Some (10, 570, 300, 200)
  ∧ geometry <$> heap s' !! 0%nat ≠ geometry <$> heap s !! 0%nat.
Proof. vm_compute. repeat split; discriminate. Qed.

End WSProps.

(* ====================================================================== *)
(** * Properties of the drag singleton *)
(* ====================================================================== *)

Module DragProps.
Import Drag.

Section Controller.

Context {Obj World Err : Type}.
Variable dragMove : Obj → Z → Z → MouseEvent → World → World * option Err.
Variable dragEnd : Obj → World → World * option Err.

Abbreviation Env := (@Env Obj World Err).
Abbreviation step := (step dragMove dragEnd).
Abbreviation run := (run dragMove dragEnd).
Abbreviation handle := (handle dragMove dragEnd).

Implicit Types (env : Env) (e m : MouseEvent) (o : Obj).

Lemma pending_or_dispatches env e : pending env e ∨ dispatches env e.
Proof. unfold pending, dispatches. lia. Qed.

(** ** The three listeners, case by case *)

Lemma start_spec o e T env :
  handle (Start o e T) env
  = (mkEnv (Some o) (clientX e) (clientY e) (T * T) (world env)
           (log env ++ [EPreventDefault e]), Return tt).
Proof.
  unfold handle, start, seq, bind, modify, gets, truthy. simpl.
  destruct (Z.eqb_spec T 0) as [->|]; simpl; done.
Qed.

Lemma mousemove_idle e env :
  object env = None → handle (MouseMove e) env = (env, Return tt).
Proof. intros Ho. unfold handle, mousemove, bind, gets, ret. by rewrite Ho. Qed.

Lemma mousemove_pending o e env :
  object env = Some o → pending env e → handle (MouseMove e) env = (env, Return tt).
Proof.
  intros Ho [Ht Hd]. unfold handle, mousemove, bind, gets, ret, truthy. rewrite Ho.
  destruct (Z.eqb_spec (_threshold env) 0) as [|_]; [done|]. simpl.
  unfold dist2 in Hd. by rewrite (proj2 (Z.ltb_lt _ _) Hd).
Qed.

Lemma mousemove_dispatch o e env :
  object env = Some o → dispatches env e →
  let dx := clientX e - x env in
  let dy := clientY e - y env in
  handle (MouseMove e) env
  = (mkEnv (Some o) (clientX e) (clientY e) 0
           (dragMove o dx dy e (world env)).1
           (log env ++ ECallDragMove o dx dy e
              :: caught "dragMove error" (dragMove o dx dy e (world env)).2),
     Return tt).
Proof.
  intros Ho Hd dx dy.
  unfold handle, mousemove, bind, gets, ret, truthy. rewrite Ho.
  assert (dispatch_move dragMove o dx dy e (set_threshold 0 env)
          = (mkEnv (Some o) (clientX e) (clientY e) 0
               (dragMove o dx dy e (world env)).1
               (log env ++ ECallDragMove o dx dy e
                  :: caught "dragMove error" (dragMove o dx dy e (world env)).2),
             Return tt)) as Hdisp.
  { unfold dispatch_move, seq, bind, try_catch, call_dragMove, console_error, modify.
    simpl. destruct (dragMove o dx dy e (world env)) as [w [err|]];
      unfold set_y, set_x, emit, set_world, set_threshold; simpl;
      rewrite Ho, <- ?app_assoc; done. }
  destruct (Z.eqb_spec (_threshold env) 0) as [E0|Hne]; simpl.
  - rewrite <- Hdisp. f_equal. destruct env; simpl in *. by subst.
  - destruct Hd as [|Hd]; [done|]. fold dx dy.
    unfold dist2 in Hd. fold dx dy in Hd.
    rewrite (proj2 (Z.ltb_ge _ _) Hd). unfold seq, bind, modify. apply Hdisp.
Qed.

Lemma mouseup_idle env :
  object env = None → handle MouseUp env = (env, Return tt).
Proof. intros Ho. unfold handle, mouseup, bind, gets, ret. by rewrite Ho. Qed.

Lemma mouseup_dragged o env :
  object env = Some o → _threshold env = 0 →
  handle MouseUp env
  = (mkEnv None (x env) (y env) 0 (dragEnd o (world env)).1
           (log env ++ ECallDragEnd o
              :: caught "dragEnd error" (dragEnd o (world env)).2),
     Return tt).
Proof.
  intros Ho Ht.
  unfold handle, mouseup, seq, bind, gets, try_catch, call_dragEnd, console_error,
    modify, truthy.
  rewrite Ho. simpl. rewrite Ht. simpl.
  destruct (dragEnd o (world env)) as [w [err|]];
    unfold set_object, emit, set_world; simpl; rewrite Ht, <- ?app_assoc; done.
Qed.

Lemma mouseup_not_dragged o env :
  object env = Some o → _threshold env ≠ 0 →
  handle MouseUp env
  = (mkEnv None (x env) (y env) (_threshold env) (world env) (log env), Return tt).
Proof.
  intros Ho Ht.
  unfold handle, mouseup, seq, bind, gets, try_catch, modify, ret, truthy.
  rewrite Ho. simpl. destruct (Z.eqb_spec (_threshold env) 0); [done|].
by unfold set_object.
Qed.

(** ** Runs *)

Lemma step_start o e T env :
  step env (Start o e T)
  = mkEnv (Some o) (clientX e) (clientY e) (T * T) (world env)
          (log env ++ [EPreventDefault e]).
Proof. unfold Drag.step. by rewrite start_spec. Qed.

Lemma step_pending o e env :
  object env = Some o → pending env e → step env (MouseMove e) = env.
Proof. intros Ho Hp. unfold Drag.step. by rewrite (mousemove_pending o). Qed.

Lemma step_dispatch o e env :
  object env = Some o → dispatches env e →
  step env (MouseMove e)
  = mkEnv (Some o) (clientX e) (clientY e) 0
          (dragMove o (clientX e - x env) (clientY e - y env) e (world env)).1
          (log env ++ ECallDragMove o (clientX e - x env) (clientY e - y env) e
             :: caught "dragMove error"
                  (dragMove o (clientX e - x env) (clientY e - y env) e (world env)).2).
Proof. intros Ho Hd. unfold Drag.step. by rewrite (mousemove_dispatch o). Qed.

Lemma run_app evs1 evs2 env : run (evs1 ++ evs2) env = run evs2 (run evs1 env).
Proof. unfold Drag.run. apply fold_left_app. Qed.

Lemma run_cons ev evs env : run (ev :: evs) env = run evs (step env ev).
Proof. done. Qed.

(** Moves that stay within the threshold change nothing. *)
Lemma run_pending o ms env :
  object env = Some o → _threshold env ≠ 0 →
  Forall (λ p, dist2 p (x env) (y env) < _threshold env) ms →
  run (map MouseMove ms) env = env.
Proof.
  intros Ho Ht Hms. induction Hms as [|p ms Hp _ IH]; [done|].
  cbn [map]. rewrite run_cons, (step_pending o) by done. apply IH.
Qed.

Lemma caught_not_move msg (r : option Err) :
  move_calls (Obj := Obj) (caught msg r) = [].
Proof. by destruct r. Qed.

Lemma caught_not_end msg (r : option Err) :
  end_calls (Obj := Obj) (caught msg r) = [].
Proof. by destruct r. Qed.

Lemma move_calls_app (l1 l2 : list (@Effect Obj Err)) :
  move_calls (l1 ++ l2) = move_calls l1 ++ move_calls l2.
Proof. apply List.filter_app. Qed.

Lemma end_calls_app (l1 l2 : list (@Effect Obj Err)) :
  end_calls (l1 ++ l2) = end_calls l1 ++ end_calls l2.
Proof. apply List.filter_app. Qed.

(** Once the threshold is cleared, every move is handed to the target and
    no move calls [dragEnd]. *)
Lemma run_dragging o ms env :
  object env = Some o → _threshold env = 0 →
  let env' := run (map MouseMove ms) env in
  object env' = Some o ∧ _threshold env' = 0
  ∧ length (move_calls (log env')) = (length (move_calls (log env)) + length ms)%nat
  ∧ end_calls (log env') = end_calls (log env).
Proof.
  revert env. induction ms as [|p ms IH]; intros env Ho Ht; cbn [map].
  - simpl. repeat split; try done; lia.
  - rewrite run_cons.
    rewrite (step_dispatch o) by (done || by left).
    match goal with |- context [Drag.run _ _ _ ?e] => set (env1 := e) end.
    destruct (IH env1) as (H1 & H2 & H3 & H4); [done|done|].
    split; [done|]. split; [done|]. split.
    + rewrite H3. subst env1. simpl.
      rewrite move_calls_app. simpl. rewrite caught_not_move, length_app. simpl. lia.
    + rewrite H4. subst env1. simpl.
      rewrite end_calls_app. simpl. rewrite caught_not_end. by rewrite app_nil_r.
Qed.

(** The state a session is in after [start] and moves that all stay
    within the threshold: nothing but the call of [preventDefault] has
    happened, and the recorded point is still the start point. *)
Lemma run_start_pending o e0 T pre env :
  T ≠ 0 →
  Forall (λ p, dist2 p (clientX e0) (clientY e0) < T * T) pre →
  run (Start o e0 T :: map MouseMove pre) env
  = mkEnv (Some o) (clientX e0) (clientY e0) (T * T) (world env)
          (log env ++ [EPreventDefault e0]).
Proof.
  intros HT Hpre. rewrite run_cons, step_start.
  apply (run_pending o); simpl; [done|nia|done].
Qed.

(** [start] replaces whatever target was tracked: the new target is the
    only one, the recorded point is the pointer, and the threshold is the
    square of the one given. *)
Theorem start_replaces_target o e T env :
  let env' := step env (Start o e T) in
  object env' = Some o
  ∧ (x env', y env') = (clientX e, clientY e)
  ∧ _threshold env' = T * T
  ∧ world env' = world env.
Proof. intros env'. subst env'. by rewrite step_start. Qed.

(** ** C2 *)

(** C2, as the code has it. In a drag session started with threshold
    [T > 0]: the moves before the first one whose squared distance from the
    start point reaches [T * T] invoke nothing; that first move invokes
    [dragMove] with the whole delta from the start point; from then on
    every move is handed to [dragMove], wherever the pointer is; and the
    release invokes [dragEnd], once in the session, and clears the
    target. *)
Theorem drag_threshold o e0 T pre m post env :
  0 < T →
  Forall (λ p, dist2 p (clientX e0) (clientY e0) < T * T) pre →
  T * T ≤ dist2 m (clientX e0) (clientY e0) →
  let env1 := run (Start o e0 T :: map MouseMove pre) env in
  let env2 := step env1 (MouseMove m) in
  let env3 := run (map MouseMove post) env2 in
  let env4 := step env3 MouseUp in
  let dx := clientX m - clientX e0 in
  let dy := clientY m - clientY e0 in
  log env1 = log env ++ [EPreventDefault e0]
  ∧ log env2 = log env1 ++ ECallDragMove o dx dy m
                 :: caught "dragMove error" (dragMove o dx dy m (world env)).2
  ∧ length (move_calls (log env3))
    = (length (move_calls (log env2)) + length post)%nat
  ∧ log env4 = log env3 ++ ECallDragEnd o
                 :: caught "dragEnd error" (dragEnd o (world env3)).2
  ∧ end_calls (log env4) = end_calls (log env) ++ [ECallDragEnd o]
  ∧ object env4 = None.
Proof.
  intros HT Hpre Hm env1 env2 env3 env4 dx dy.
  assert (env1 = mkEnv (Some o) (clientX e0) (clientY e0) (T * T) (world env)
                       (log env ++ [EPreventDefault e0])) as E1
    by (apply run_start_pending; [lia|done]).
  assert (env2 = mkEnv (Some o) (clientX m) (clientY m) 0
                   (dragMove o dx dy m (world env)).1
                   (log env1 ++ ECallDragMove o dx dy m
                      :: caught "dragMove error" (dragMove o dx dy m (world env)).2)) as E2.
  { subst env2. rewrite (step_dispatch o); rewrite E1; simpl; [done|done|by right]. }
  destruct (run_dragging o post env2) as (H1 & H2 & H3 & H4); [by rewrite E2..|].
  fold env3 in H1, H2, H3, H4.
  assert (env4 = mkEnv None (x env3) (y env3) 0 (dragEnd o (world env3)).1
                   (log env3 ++ ECallDragEnd o
                      :: caught "dragEnd error" (dragEnd o (world env3)).2)) as E4.
  { subst env4. unfold Drag.step. by rewrite (mouseup_dragged o). }
  split; [by rewrite E1|]. split; [by rewrite E2|]. split; [done|].
  split; [by rewrite E4|]. split; [|by rewrite E4].
  rewrite E4. simpl. rewrite end_calls_app, H4. simpl. rewrite caught_not_end.
  f_equal. rewrite E2, E1. simpl. rewrite !end_calls_app. simpl.
  rewrite caught_not_end. by rewrite !app_nil_r.
Qed.

(** ** C3 *)

Lemma mouseup_clears env : object (step env MouseUp) = None.
Proof.
  unfold Drag.step. destruct (object env) as [o|] eqn:Ho.
  - destruct (Z.eq_dec (_threshold env) 0) as [Ht|Ht].
    + by rewrite (mouseup_dragged o).
    + by rewrite (mouseup_not_dragged o).
  - by rewrite mouseup_idle.
Qed.

(** C3, as the code has it. In a drag session started with a non-zero
    threshold in which no move reached the threshold, the release does not
    invoke [dragEnd] (the guard [if (!_threshold)] skips it): the whole
    session has made no call but [preventDefault], and the world of the
    target is untouched. The release clears the target, as it does in every
    state. *)
Theorem release_without_drag o e0 T moves env :
  T ≠ 0 →
  Forall (λ p, dist2 p (clientX e0) (clientY e0) < T * T) moves →
  let env1 := run (Start o e0 T :: map MouseMove moves) env in
  let env2 := step env1 MouseUp in
  object env1 = Some o
  ∧ log env2 = log env ++ [EPreventDefault e0]
  ∧ end_calls (log env2) = end_calls (log env)
  ∧ world env2 = world env
  ∧ object env2 = None
  ∧ ∀ env', object (step env' MouseUp) = None.
Proof.
  intros HT Hmoves env1 env2.
  assert (env1 = mkEnv (Some o) (clientX e0) (clientY e0) (T * T) (world env)
                       (log env ++ [EPreventDefault e0])) as E1
    by (by apply run_start_pending).
  assert (env2 = mkEnv None (clientX e0) (clientY e0) (T * T) (world env)
                       (log env ++ [EPreventDefault e0])) as E2.
  { subst env2. unfold Drag.step. rewrite (mouseup_not_dragged o); rewrite E1; simpl;
      [done|done|nia]. }
  split; [by rewrite E1|]. split; [by rewrite E2|]. split.
  { rewrite E2. simpl. rewrite end_calls_app. simpl. by rewrite app_nil_r. }
  split; [by rewrite E2|]. split; [by rewrite E2|]. apply mouseup_clears.
Qed.

(** ** C6 *)

(** C6, as the code has it. While a target is tracked, a move that is
    handed to the target (no threshold pending, or the threshold reached)
    leaves the recorded point at the pointer, also when [dragMove] throws;
    a move within a pending threshold returns before that and changes
    nothing, so the recorded point stays the start point. *)
Theorem last_point_on_move o e env :
  object env = Some o →
  (dispatches env e →
   x (step env (MouseMove e)) = clientX e ∧ y (step env (MouseMove e)) = clientY e)
  ∧ (pending env e → step env (MouseMove e) = env).
Proof.
  intros Ho. split.
  - intros Hd. by rewrite (step_dispatch o).
  - intros Hp. by apply (step_pending o).
Qed.

(** ** C9 *)

Lemma handle_returns ev env : ∃ env', handle ev env = (env', Return tt).
Proof.
  destruct ev as [o e T|e|].
  - rewrite start_spec. by eexists.
  - destruct (object env) as [o|] eqn:Ho.
    + destruct (pending_or_dispatches env e) as [Hp|Hd].
      * rewrite (mousemove_pending o) by done. by eexists.
      * rewrite (mousemove_dispatch o) by done. by eexists.
    + rewrite mousemove_idle by done. by eexists.
  - destruct (object env) as [o|] eqn:Ho.
    + destruct (Z.eq_dec (_threshold env) 0) as [Ht|Ht].
      * rewrite (mouseup_dragged o) by done. by eexists.
      * rewrite (mouseup_not_dragged o) by done. by eexists.
    + rewrite mouseup_idle by done. by eexists.
Qed.

Lemma object_after_move o e env :
  object env = Some o → object (step env (MouseMove e)) = Some o.
Proof.
  intros Ho. destruct (pending_or_dispatches env e) as [Hp|Hd].
  - by rewrite (step_pending o).
  - by rewrite (step_dispatch o).
Qed.

(** C9. Whatever the callbacks of the target do, every listener of the
    drag singleton returns normally. When [dragMove] throws, the error is
    logged, the recorded point is updated and the target stays tracked, so
    the next move is handed to [dragMove] again; when [dragEnd] throws, the
    error is logged and the target is cleared all the same. *)
Theorem callbacks_never_propagate o e e' env :
  (∀ ev env0, ∃ env', handle ev env0 = (env', Return tt))
  ∧ (object env = Some o → dispatches env e →
     ∀ err, (dragMove o (clientX e - x env) (clientY e - y env) e (world env)).2 = Some err →
     let env1 := step env (MouseMove e) in
     log env1 = log env ++ [ECallDragMove o (clientX e - x env) (clientY e - y env) e;
                            EConsoleError "dragMove error" err]
     ∧ object env1 = Some o ∧ x env1 = clientX e ∧ y env1 = clientY e
     ∧ move_calls (log (step env1 (MouseMove e')))
       = move_calls (log env1)
         ++ [ECallDragMove o (clientX e' - clientX e) (clientY e' - clientY e) e'])
  ∧ (object env = Some o → _threshold env = 0 →
     ∀ err, (dragEnd o (world env)).2 = Some err →
     let env1 := step env MouseUp in
     log env1 = log env ++ [ECallDragEnd o; EConsoleError "dragEnd error" err]
     ∧ object env1 = None)
  ∧ object (step env MouseUp) = None.
Proof.
  split; [intros ev env0; apply handle_returns|]. split; [|split].
  - intros Ho Hd err Herr env1.
    assert (env1 = mkEnv (Some o) (clientX e) (clientY e) 0
                     (dragMove o (clientX e - x env) (clientY e - y env) e (world env)).1
                     (log env ++ [ECallDragMove o (clientX e - x env) (clientY e - y env) e;
                                  EConsoleError "dragMove error" err])) as E1.
    { subst env1. rewrite (step_dispatch o) by done. by rewrite Herr. }
    split; [by rewrite E1|]. split; [by rewrite E1|]. split; [by rewrite E1|].
    split; [by rewrite E1|].
    rewrite (step_dispatch o) by (rewrite E1; simpl; done || by left).
    simpl. rewrite move_calls_app. simpl. rewrite caught_not_move.
    by rewrite E1.
  - intros Ho Ht err Herr env1. subst env1. unfold Drag.step.
    rewrite (mouseup_dragged o) by done. by rewrite Herr.
  - apply mouseup_clears.
Qed.

End Controller.

(** ** The examples *)

(** A session on which [drag_threshold] applies: threshold 10 from (0, 0),
    two moves within the radius, the move to (20, 0), a move back to
    (1, 0), release. *)
Lemma drag_threshold_witness :
  let env1 := run quiet_move quiet_end
                [Start tt (mkMouseEvent 0 0) 10; MouseMove (mkMouseEvent 1 1);
                 MouseMove (mkMouseEvent 5 5)] idle in
  let env2 := step quiet_move quiet_end env1 (MouseMove (mkMouseEvent 20 0)) in
  let env4 := step quiet_move quiet_end
                (run quiet_move quiet_end [MouseMove (mkMouseEvent 1 0)] env2) MouseUp in
  log env1 = [EPreventDefault (mkMouseEvent 0 0)]
  ∧ log env2 = log env1 ++ [ECallDragMove tt 20 0 (mkMouseEvent 20 0)]
  ∧ end_calls (log env4) = [ECallDragEnd tt].
Proof.
  destruct (drag_threshold quiet_move quiet_end tt (mkMouseEvent 0 0) 10
              [mkMouseEvent 1 1; mkMouseEvent 5 5] (mkMouseEvent 20 0)
              [mkMouseEvent 1 0] idle)
    as (H1 & H2 & _ & _ & H5 & _).
  - lia.
  - repeat constructor; vm_compute; reflexivity.
  - vm_compute. discriminate.
  - split; [exact H1|]. split; [exact H2|exact H5].
Defined.

(** C2 fails as stated: once the move to (20, 0) has passed the threshold
    of 10, the move back to (1, 0), at squared distance 1 from the start
    point, invokes [dragMove]. *)
Lemma move_within_radius_dispatched :
  let env := run quiet_move quiet_end
               [Start tt (mkMouseEvent 0 0) 10; MouseMove (mkMouseEvent 20 0)] idle in
  let m := mkMouseEvent 1 0 in
  dist2 m 0 0 < 10 * 10
  ∧ log (step quiet_move quiet_end env (MouseMove m))
    = log env ++ [ECallDragMove tt (-19) 0 m].
Proof. vm_compute. split; reflexivity. Qed.

Lemma release_without_drag_witness :
  let env2 := run quiet_move quiet_end
                [Start tt (mkMouseEvent 0 0) 10; MouseMove (mkMouseEvent 1 1);
                 MouseMove (mkMouseEvent 7 7); MouseUp] idle in
  log env2 = [EPreventDefault (mkMouseEvent 0 0)] ∧ object env2 = None.
Proof.
  destruct (release_without_drag quiet_move quiet_end tt (mkMouseEvent 0 0) 10
              [mkMouseEvent 1 1; mkMouseEvent 7 7] idle)
    as (_ & H2 & _ & _ & H5 & _).
  - lia.
  - repeat constructor; vm_compute; reflexivity.
  - split; [exact H2|exact H5].
Defined.

(** C3 fails as stated: threshold 10, one move to (1, 1), release: the
    target is cleared but [dragEnd] has not been invoked. *)
Lemma release_skips_dragEnd :
  let env := run quiet_move quiet_end
               [Start tt (mkMouseEvent 0 0) 10; MouseMove (mkMouseEvent 1 1); MouseUp]
               idle in
  end_calls (log env) = [] ∧ log env = [EPreventDefault (mkMouseEvent 0 0)]
  ∧ object env = None.
Proof. vm_compute. repeat split. Qed.

Lemma last_point_on_move_witness :
  let env := run quiet_move quiet_end
               [Start tt (mkMouseEvent 0 0) 10; MouseMove (mkMouseEvent 20 0)] idle in
  let env' := step broken_move quiet_end env (MouseMove (mkMouseEvent 3 4)) in
  x env' = 3 ∧ y env' = 4.
Proof.
  destruct (last_point_on_move broken_move quiet_end tt (mkMouseEvent 3 4)
              (run quiet_move quiet_end
                 [Start tt (mkMouseEvent 0 0) 10; MouseMove (mkMouseEvent 20 0)] idle))
    as (H & _); [reflexivity|].
  apply H. left. reflexivity.
Defined.

(** C6 fails as stated: threshold 10 from (0, 0); after the move to (1, 1)
    the target is tracked and the recorded point is still (0, 0). *)
Lemma pending_move_keeps_start_point :
  let env := run quiet_move quiet_end
               [Start tt (mkMouseEvent 0 0) 10; MouseMove (mkMouseEvent 1 1)] idle in
  object env = Some tt
  ∧ (x env, y env) = (0, 0)
  ∧ (x env, y env) ≠ (1, 1).
Proof. vm_compute. repeat split. discriminate. Qed.

(** A target whose two callbacks throw: both errors are logged, the second
    move is still handed over, and the release clears the target. *)
Example broken_target_session :
  let env := run broken_move broken_end
               [Start tt (mkMouseEvent 0 0) 0; MouseMove (mkMouseEvent 3 4);
                MouseMove (mkMouseEvent 5 5); MouseUp] idle in
  log env = [EPreventDefault (mkMouseEvent 0 0);
             ECallDragMove tt 3 4 (mkMouseEvent 3 4); EConsoleError "dragMove error" tt;
             ECallDragMove tt 2 1 (mkMouseEvent 5 5); EConsoleError "dragMove error" tt;
             ECallDragEnd tt; EConsoleError "dragEnd error" tt]
  ∧ object env = None.
Proof. vm_compute. split; reflexivity. Qed.

End DragProps.

(* ====================================================================== *)
(** * Sessions on the page *)
(* ====================================================================== *)

Module PageProps.
Import WS Page.

(** The title of window A is pressed at (300, 20) and the pointer goes to
    the left edge of the viewport: the window follows to [x = -290]; on
    release [dragEnd] clamps it to [x = 50 - 300]. *)
Example drag_off_the_left_edge :
  let pressed := title_mousedown 0 (mkMouseEvent 300 20) one_window in
  let moved := mouse_move demo_host (mkMouseEvent 0 20) pressed in
  let released := mouse_up demo_host moved in
  geometry_of moved 0 = Some (-290, 10, 300, 200)
  ∧ geometry_of released 0 = Some (-250, 10, 300, 200)
  ∧ Drag.object released = None.
Proof. vm_compute. repeat split. Qed.

(** Window A is maximized; its title is pressed, the pointer moves 3
    pixels and is released: the threshold of 10 was not reached, neither
    callback has run and the window is still maximized. *)
Example click_on_maximized_title :
  let maximized_page :=
    Drag.set_world (maximize demo_host 0%nat (Drag.world one_window)) one_window in
  let pressed := title_mousedown 0 (mkMouseEvent 100 20) maximized_page in
  let released := mouse_up demo_host (mouse_move demo_host (mkMouseEvent 103 20) pressed) in
  Drag._threshold pressed = 100
  ∧ Drag.log released = [Drag.EPreventDefault (mkMouseEvent 100 20)]
  ∧ maximized <$> heap (Drag.world released) !! 0%nat = Some true
  ∧ geometry_of released 0 = Some (0, 0, 800, 600).
Proof. vm_compute. repeat split. Qed.

(** The same press, but the pointer moves 40 pixels down: the window is
    restored to its saved size under the pointer and follows it. *)
Example drag_out_of_maximized :
  let maximized_page :=
    Drag.set_world (maximize demo_host 0%nat (Drag.world one_window)) one_window in
  let pressed := title_mousedown 0 (mkMouseEvent 100 20) maximized_page in
  let moved := mouse_move demo_host (mkMouseEvent 100 60) pressed in
  maximized <$> heap (Drag.world moved) !! 0%nat = Some false
  ∧ geometry_of moved 0 = Some (62, 40, 300, 200)
  ∧ Drag.move_calls (Drag.log moved) = [Drag.ECallDragMove 0%nat 0 40 (mkMouseEvent 100 60)].
Proof. vm_compute. repeat split. Qed.

End PageProps.

(* ====================================================================== *)
(** * More about the window system *)
(* ====================================================================== *)

Module WSMore.
Import WS Fields WSProps.

#[local] Arguments setActive : simpl never.
#[local] Arguments bringToFront : simpl never.
#[local] Arguments focus : simpl never.
#[local] Arguments updatePosition : simpl never.
#[local] Arguments reposition : simpl never.
#[local] Arguments maximize : simpl never.
#[local] Arguments create : simpl never.

(** ** The heap after each method *)

Lemma alter_dangling {A} (f : A → A) (l : list A) (i : nat) :
  l !! i = None → alter f i l = l.
Proof.
  intros Hi. apply list_eq. intros j. destruct (decide (i = j)) as [->|Hne].
  - by rewrite list_lookup_alter_eq, Hi.
  - by rewrite list_lookup_alter_ne.
Qed.

Lemma alter_same {A} (f g : A → A) (l : list A) (i : nat) :
  (∀ a, l !! i = Some a → f a = g a) → alter f i l = alter g i l.
Proof.
  intros Hfg. apply list_eq. intros j. destruct (decide (i = j)) as [->|Hne].
  - rewrite !list_lookup_alter_eq. destruct (l !! j) as [a|] eqn:E; [|done].
    simpl. by rewrite Hfg.
  - by rewrite !list_lookup_alter_ne.
Qed.

Lemma alter_noop {A} (f : A → A) (l : list A) (i : nat) :
  (∀ a, l !! i = Some a → f a = a) → l = alter f i l.
Proof.
  intros Hf. apply list_eq. intros j. destruct (decide (i = j)) as [->|Hne].
  - rewrite list_lookup_alter_eq. destruct (l !! j) as [a|] eqn:E; [|done].
    simpl. by rewrite Hf.
  - by rewrite list_lookup_alter_ne.
Qed.

Lemma heap_reposition hr this s :
  heap (reposition hr this s) = alter (reposition_this hr) this (heap s).
Proof. unfold reposition. by rewrite heap_updatePosition. Qed.

Lemma heap_maximize hr this s :
  heap (maximize hr this s) = alter (maximize_this hr) this (heap s).
Proof.
  unfold maximize. destruct (heap s !! this) as [w|] eqn:Hw;
    [|by rewrite alter_dangling].
  cbv zeta. destruct (maximized w) eqn:Hm; simpl.
  - destruct (oldPosition w) as [p|] eqn:Hp.
    + rewrite heap_reposition. simpl. rewrite !list_alter_alter_eq.
      apply alter_same. intros a Ha. assert (a = w) as -> by congruence.
      unfold maximize_this. simpl. by rewrite Hm, Hp.
    + simpl. apply alter_same. intros a Ha. assert (a = w) as -> by congruence.
      unfold maximize_this. by rewrite Hm, Hp.
  - rewrite heap_reposition. simpl. rewrite !list_alter_alter_eq.
    apply alter_same. intros a Ha. assert (a = w) as -> by congruence.
    unfold maximize_this. simpl. by rewrite Hm.
Qed.

Lemma heap_dragMove hr dx dy e this s :
  heap (dragMove hr dx dy e this s)
  = alter (dragMove_this hr (edgeMaximize (host s)) dx dy e) this (heap s).
Proof.
  unfold dragMove. destruct (heap s !! this) as [w|] eqn:Hw;
    [|by rewrite alter_dangling].
  cbv zeta.
  destruct (resizing w) eqn:Hr.
  - rewrite heap_updatePosition.
    destruct (resizeX w <? 0) eqn:Hx, (resizeY w <? 0) eqn:Hy; simpl;
      rewrite ?list_alter_alter_eq; apply alter_same; intros a Ha;
      assert (a = w) as -> by congruence;
      unfold dragMove_this, resize_this; simpl; rewrite Hr, Hx; simpl; rewrite Hy; done.
  - destruct (edgeMaximize (host s) && (clientY e - rect_top hr <? 5)) eqn:He.
    + destruct (maximized w) eqn:Hm; simpl.
      * apply alter_noop. intros a Ha. assert (a = w) as -> by congruence.
        unfold dragMove_this. by rewrite Hr, He, Hm.
      * rewrite heap_maximize. apply alter_same. intros a Ha.
        assert (a = w) as -> by congruence.
        unfold dragMove_this. by rewrite Hr, He, Hm.
    + rewrite heap_updatePosition.
      destruct (maximized w) eqn:Hm; [destruct (oldPosition w) as [p|] eqn:Hp|]; simpl;
        rewrite ?list_alter_alter_eq; apply alter_same; intros a Ha;
        assert (a = w) as -> by congruence;
        unfold dragMove_this, unmaximize_this; simpl; rewrite Hr, He, Hm; simpl;
        rewrite ?Hp; done.
Qed.

Lemma heap_dragEnd hr this s :
  heap (dragEnd hr this s) = alter (dragEnd_this hr) this (heap s).
Proof.
  unfold dragEnd. destruct (heap s !! this) as [w|] eqn:Hw;
    [|by rewrite alter_dangling].
  cbv zeta. rewrite heap_reposition.
  destruct (resizing w) eqn:Hr; simpl; rewrite ?list_alter_alter_eq;
    apply alter_same; intros a Ha; assert (a = w) as -> by congruence;
    unfold dragEnd_this; simpl; by rewrite Hr.
Qed.

Lemma heap_show hr rc this s :
  heap (show hr rc this s) = alter (show_this hr rc) this (heap s).
Proof.
  unfold show. destruct (heap s !! this) as [w|] eqn:Hw;
    [|by rewrite alter_dangling].
  cbv zeta. unfold window_focus. rewrite heap_focus, heap_reposition.
  destruct (rect_width rc >? 0) eqn:Hr; simpl; rewrite ?list_alter_alter_eq;
    apply alter_same; intros a Ha; unfold show_this; simpl; by rewrite Hr.
Qed.

Lemma heap_hide this s : heap (hide this s) = heap s.
Proof. unfold hide. destruct (heap s !! this); [|done]. by rewrite heap_focus. Qed.

Lemma heap_root_mousemove rc on_frame e this s :
  heap (root_mousemove rc on_frame e this s)
  = alter (root_mousemove_this rc on_frame e) this (heap s).
Proof.
  unfold root_mousemove. destruct (heap s !! this) as [w|] eqn:Hw;
    [|by rewrite alter_dangling].
  cbv zeta. destruct (resizing w) eqn:Hr; simpl.
  - apply alter_noop. intros a Ha. assert (a = w) as -> by congruence.
    unfold root_mousemove_this. by rewrite Hr.
  - apply alter_same. intros a Ha. assert (a = w) as -> by congruence.
    unfold root_mousemove_this. by rewrite Hr.
Qed.

Lemma heap_root_mousedown_resize on_frame this s :
  heap (root_mousedown_resize on_frame this s)
  = alter (root_mousedown_resize_this on_frame) this (heap s).
Proof.
  unfold root_mousedown_resize. destruct (heap s !! this) as [w|] eqn:Hw;
    [|by rewrite alter_dangling].
  destruct (on_frame && negb (maximized w) && (truthy (resizeX w) || truthy (resizeY w)))
    eqn:Hc; simpl.
  - apply alter_same. intros a Ha. assert (a = w) as -> by congruence.
    unfold root_mousedown_resize_this. by rewrite Hc.
  - apply alter_noop. intros a Ha. assert (a = w) as -> by congruence.
    unfold root_mousedown_resize_this. by rewrite Hc.
Qed.

Lemma heap_init L this s : heap (init L this s) = alter (init_this L) this (heap s).
Proof.
  unfold init. destruct (heap s !! this) as [w|] eqn:Hw; [|by rewrite alter_dangling].
  cbv zeta. by rewrite heap_updatePosition.
Qed.

(** [create] on an element without a window appends the constructed
    window; on an element with a window it repositions that window. *)
Lemma heap_create_fresh L el s :
  csWindow (dom s el) = None →
  heap (create L (Some el) s).2 = heap s ++ [new_window_this L el].
Proof.
  intros Hel. unfold create. rewrite Hel. unfold new_Window. cbv zeta. simpl.
  unfold window_focus. rewrite heap_focus. simpl. rewrite heap_init. simpl.
  rewrite alter_app_r_alt by lia. by rewrite Nat.sub_diag.
Qed.

Lemma heap_create_wrapped L el s (w : nat) :
  csWindow (dom s el) = Some w →
  heap (create L (Some el) s).2 = alter (reposition_this (hostRect L)) w (heap s).
Proof.
  intros Hel. unfold create. rewrite Hel. simpl. unfold window_focus.
  by rewrite heap_focus, heap_reposition.
Qed.

(** ** A property of windows that every method keeps holds on every page *)

Section EveryWindow.

Variable P : Window → Prop.
Hypothesis P_new : ∀ L el, P (new_window_this L el).
Hypothesis P_reposition : ∀ hr w, P w → P (reposition_this hr w).
Hypothesis P_maximize : ∀ hr w, P w → P (maximize_this hr w).
Hypothesis P_dragMove : ∀ hr em dx dy e w, P w → P (dragMove_this hr em dx dy e w).
Hypothesis P_dragEnd : ∀ hr w, P w → P (dragEnd_this hr w).
Hypothesis P_show : ∀ hr rc w, P w → P (show_this hr rc w).
Hypothesis P_root_mousemove : ∀ rc on_frame e w, P w → P (root_mousemove_this rc on_frame e w).
Hypothesis P_resize_start : ∀ on_frame w, P w → P (root_mousedown_resize_this on_frame w).

Lemma every_window_create L el s :
  Forall P (heap s) → Forall P (heap (create L el s).2).
Proof.
  intros HP. destruct el as [el|]; [|done].
  destruct (csWindow (dom s el)) as [w|] eqn:Hel.
  - rewrite (heap_create_wrapped L el s w) by done. apply Forall_alter; auto.
  - rewrite heap_create_fresh by done. apply Forall_app. split; [done|].
    apply Forall_singleton, P_new.
Qed.

Lemma every_window_viewport_resize hr s :
  Forall P (heap s) → Forall P (heap (viewport_resize hr s)).
Proof.
  unfold viewport_resize. generalize (windows (host s)). intros ws. revert s.
  induction ws as [|w ws IH]; intros s HP; [done|].
  simpl. apply IH. rewrite heap_reposition. apply Forall_alter; auto.
Qed.

Lemma every_window_apply_op o s : Forall P (heap s) → Forall P (heap (apply_op o s)).
Proof.
  intros HP.
  destruct o as [L windowElement|L el|w0|w0|hr this|hr this|hr rc this|this|hr dx dy e this
                |hr this|rc on_frame e this|on_frame this|hr]; simpl.
  - by apply every_window_create.
  - unfold openWindowById. cbv zeta.
    set (s0 := update_elem el (set_style "display" (Kw "block")) s).
    destruct (getWindowById _ s0) as [inst|].
    + rewrite heap_bringToFront, heap_show. apply Forall_alter; auto.
    + pose proof (every_window_create L (Some el) s0 HP) as Hc.
      destruct (create L (Some el) s0) as [r s1]. by rewrite heap_bringToFront.
  - by rewrite heap_focus.
  - by rewrite heap_bringToFront.
  - rewrite heap_maximize. apply Forall_alter; auto.
  - rewrite heap_reposition. apply Forall_alter; auto.
  - rewrite heap_show. apply Forall_alter; auto.
  - by rewrite heap_hide.
  - rewrite heap_dragMove. apply Forall_alter; auto.
  - rewrite heap_dragEnd. apply Forall_alter; auto.
  - rewrite heap_root_mousemove. apply Forall_alter; auto.
  - rewrite heap_root_mousedown_resize. apply Forall_alter; auto.
  - by apply every_window_viewport_resize.
Qed.

Lemma every_window_run_ops ops s : Forall P (heap s) → Forall P (heap (run_ops ops s)).
Proof.
  revert s. induction ops as [|o ops IH]; intros s HP; [done|].
  simpl. by apply IH, every_window_apply_op.
Qed.

Lemma every_window d ops (r : nat) w :
  heap (run_ops ops (new_page d)) !! r = Some w → P w.
Proof.
  apply Forall_lookup_1, every_window_run_ops. simpl. constructor.
Qed.

End EveryWindow.

(** ** Every window is well formed *)

Lemma window_ok_same_flags w w' : same_flags w w' → window_ok w → window_ok w'.
Proof.
  intros (_ & E1 & E2 & E3 & E4 & E5 & E6) [H1 H2 H3 H4 H5].
  constructor; rewrite ?E1, ?E2, ?E3, ?E4, ?E5, ?E6; done.
Qed.

Lemma same_flags_reposition_this hr w : same_flags w (reposition_this hr w).
Proof.
  unfold reposition_this, same_flags. destruct (maximized w) eqn:Hm; [done|].
  destruct (y w <? 0), (y w + 30 >? rect_height hr); simpl;
    destruct (x w + width w <? 50), (x w + 30 >? rect_width hr); done.
Qed.

Lemma same_flags_init_this L w : same_flags w (init_this L w).
Proof. unfold init_this, same_flags. by destruct (rect_width (rect L) >? 0). Qed.

Lemma same_flags_resize_this dx dy w : same_flags w (resize_this dx dy w).
Proof.
  unfold resize_this, same_flags. destruct (resizeX w <? 0); simpl;
    destruct (resizeY w <? 0); done.
Qed.

Lemma same_flags_trans w1 w2 w3 : same_flags w1 w2 → same_flags w2 w3 → same_flags w1 w3.
Proof.
  intros (? & ? & ? & ? & ? & ? & ?) (? & ? & ? & ? & ? & ? & ?).
  unfold same_flags. repeat split; congruence.
Qed.

Lemma window_ok_new L el : window_ok (new_window_this L el).
Proof.
  apply (window_ok_same_flags _ _ (same_flags_init_this L _)).
  constructor; simpl; try done; unfold edge_ok; auto.
Qed.

Lemma window_ok_reposition hr w : window_ok w → window_ok (reposition_this hr w).
Proof. apply window_ok_same_flags, same_flags_reposition_this. Qed.

Lemma window_ok_maximize hr w : window_ok w → window_ok (maximize_this hr w).
Proof.
  intros Hok. unfold maximize_this.
  destruct (maximized w) eqn:Hm; [destruct (oldPosition w) as [p|] eqn:Hp|].
  - apply window_ok_reposition. destruct Hok. by constructor.
  - destruct Hok. by constructor.
  - apply window_ok_reposition. destruct Hok. by constructor.
Qed.

Lemma window_ok_unmaximize hr e w : window_ok w → window_ok (unmaximize_this hr e w).
Proof.
  intros Hok. unfold unmaximize_this.
  destruct (maximized w) eqn:Hm; [|done]. cbv zeta. simpl.
  destruct (oldPosition w) as [p|] eqn:Hp; destruct Hok; by constructor.
Qed.

Lemma window_ok_dragMove hr em dx dy e w :
  window_ok w → window_ok (dragMove_this hr em dx dy e w).
Proof.
  intros Hok. unfold dragMove_this. destruct (resizing w) eqn:Hr.
  - by apply (window_ok_same_flags _ _ (same_flags_resize_this dx dy w)).
  - destruct (em && _).
    + destruct (negb (maximized w)); [by apply window_ok_maximize|done].
    + cbv zeta. pose proof (window_ok_unmaximize hr e w Hok) as Hu.
      destruct Hu. by constructor.
Qed.

Lemma window_ok_dragEnd hr w : window_ok w → window_ok (dragEnd_this hr w).
Proof.
  intros Hok. unfold dragEnd_this. apply window_ok_reposition.
  destruct (resizing w) eqn:Hr; [|done].
  destruct Hok. constructor; simpl; try done; unfold edge_ok; auto.
Qed.

Lemma window_ok_show hr rc w : window_ok w → window_ok (show_this hr rc w).
Proof.
  intros Hok. unfold show_this. apply window_ok_reposition.
  destruct (rect_width rc >? 0); [|done]. destruct Hok. by constructor.
Qed.

Lemma edge_ok_edge_of p size : edge_ok (edge_of p size).
Proof. unfold edge_of, edge_ok. repeat case_match; auto. Qed.

Lemma window_ok_root_mousemove rc on_frame e w :
  window_ok w → window_ok (root_mousemove_this rc on_frame e w).
Proof.
  intros Hok. unfold root_mousemove_this. destruct (resizing w) eqn:Hr; [done|].
  cbv zeta. destruct Hok. constructor; simpl; try done.
  - destruct (on_frame && _); [apply edge_ok_edge_of|unfold edge_ok; auto].
  - destruct (on_frame && _); [apply edge_ok_edge_of|unfold edge_ok; auto].
  - by rewrite Hr.
Qed.

Lemma window_ok_resize_start on_frame w :
  window_ok w → window_ok (root_mousedown_resize_this on_frame w).
Proof.
  intros Hok. unfold root_mousedown_resize_this.
  destruct (on_frame && negb (maximized w) && (truthy (resizeX w) || truthy (resizeY w)))
    eqn:Hc; [|done].
  destruct Hok. constructor; simpl; try done. intros _.
  apply andb_prop in Hc as [_ Hc]. apply orb_prop in Hc. unfold truthy in Hc.
  destruct Hc as [Hc|Hc]; apply negb_true_iff, Z.eqb_neq in Hc; auto.
Qed.

(** X4. On every page the operations lead to, each window is well formed:
    a maximized window holds the geometry to restore, so the second
    [maximize()] never finds [oldPosition] empty; the resize edges are -1,
    0 or 1 and [resizeCursor] is the cursor for them; and a window that is
    being resized has at least one edge armed. *)
Theorem every_window_ok (d : ElemId → Element) (ops : list Op) (r : WinRef) (w : Window) :
  heap (run_ops ops (new_page d)) !! r = Some w →
  (maximized w = true → is_Some (oldPosition w))
  ∧ edge_ok (resizeX w) ∧ edge_ok (resizeY w)
  ∧ resizeCursor w = cursor_of (resizeX w) (resizeY w)
  ∧ (resizing w = true → resizeX w ≠ 0 ∨ resizeY w ≠ 0).
Proof.
  intros Hw.
  assert (window_ok w) as [H1 H2 H3 H4 H5]; [|done].
  revert Hw. apply every_window;
    auto using window_ok_new, window_ok_reposition, window_ok_maximize,
      window_ok_dragMove, window_ok_dragEnd, window_ok_show,
      window_ok_root_mousemove, window_ok_resize_start.
Qed.

Lemma every_window_ok_witness :
  is_Some (oldPosition
             (mkWindow 0 0 0 "" false true (Some (mkPosition 10 10 300 200)) 0 0 800 600)).
Proof.
  destruct (every_window_ok demo_dom
              [OCreate (demo_layout 10 10) (Some 0%nat); OMaximize demo_host 0%nat]
              0%nat
              (mkWindow 0 0 0 "" false true (Some (mkPosition 10 10 300 200)) 0 0 800 600))
    as (H1 & _); [vm_compute; reflexivity|].
  apply H1. reflexivity.
Defined.

(** ** Rows: what holds of each window and its root *)

Section Rows.

Variable row : (ElemId → Element) → Window → Prop.

Lemma rows_weaken X s : rows row None s → rows row X s.
Proof. intros [HB HR]. split; [done|]. intros r w _. by apply HR. Qed.

Lemma rows_set_host X h s : rows row X s → rows row X (set_host h s).
Proof. done. Qed.

Lemma rows_set_body_cursor X c s : rows row X s → rows row X (set_body_cursor c s).
Proof. done. Qed.

(** A change of an element that [row] does not see. *)
Lemma rows_update_elem X e f s :
  keeps_structure f →
  (∀ w, row (dom s) w → row (alter f e (dom s)) w) →
  rows row X s → rows row X (update_elem e f s).
Proof.
  intros Hk Hrow [HB HR]. split.
  - intros r w Hw. simpl. specialize (HB r w Hw).
    destruct (decide (e = root w)) as [->|Hne].
    + rewrite fn_lookup_alter. by rewrite (proj1 (Hk _)).
    + by rewrite fn_lookup_alter_ne.
  - intros r w Hne Hw. simpl. apply Hrow. by apply (HR r).
Qed.

(** A change of the root of [this], while [this] is set aside. *)
Lemma rows_update_root (this : nat) w0 e f s :
  heap s !! this = Some w0 → root w0 = e →
  keeps_structure f →
  (∀ w, root w ≠ e → row (dom s) w → row (alter f e (dom s)) w) →
  rows row (Some this) s → rows row (Some this) (update_elem e f s).
Proof.
  intros Hw0 <- Hk Hrow [HB HR]. split.
  - intros r w Hw. simpl. specialize (HB r w Hw).
    destruct (decide (root w0 = root w)) as [E|Hne].
    + rewrite E, fn_lookup_alter. by rewrite (proj1 (Hk _)).
    + by rewrite fn_lookup_alter_ne.
  - intros r w Hne Hw. simpl. apply Hrow; [|by apply (HR r)].
    intros E. pose proof (HB r w Hw) as H1. pose proof (HB this w0 Hw0) as H2.
    rewrite E in H1. congruence.
Qed.

(** With [this] set aside and not a window, nothing is set aside. *)
Lemma rows_dangling (this : nat) s :
  heap s !! this = None → rows row (Some this) s → rows row None s.
Proof.
  intros Hn [HB HR]. split; [done|]. intros r w _ Hw. apply (HR r); [|done].
  intros [= ->]. congruence.
Qed.

(** A change of the fields of [this] sets [this] aside. *)
Lemma rows_update_window (this : nat) f s :
  (∀ w, root (f w) = root w) →
  rows row None s → rows row (Some this) (update_window this f s).
Proof.
  intros Hf [HB HR]. split.
  - intros r w. simpl. rewrite list_lookup_alter. case_decide as Hd.
    + subst r. destruct (heap s !! this) as [w0|] eqn:Hw0; [|done].
      simpl. intros [= <-]. rewrite Hf. by apply HB.
    + apply HB.
  - intros r w Hne. simpl. rewrite list_lookup_alter_ne by congruence.
    by apply HR.
Qed.

Lemma rows_update_window_aside (this : nat) f s :
  (∀ w, root (f w) = root w) →
  rows row (Some this) s → rows row (Some this) (update_window this f s).
Proof.
  intros Hf [HB HR]. split.
  - intros r w. simpl. rewrite list_lookup_alter. case_decide as Hd.
    + subst r. destruct (heap s !! this) as [w0|] eqn:Hw0; [|done].
      simpl. intros [= <-]. rewrite Hf. by apply HB.
    + apply HB.
  - intros r w Hne. simpl. rewrite list_lookup_alter_ne by congruence.
    by apply HR.
Qed.

(** A change of the fields of [this] that [row] does not see. *)
Lemma rows_update_window_keep X (this : nat) f s :
  (∀ w, root (f w) = root w) →
  (∀ w, row (dom s) w → row (dom s) (f w)) →
  rows row X s → rows row X (update_window this f s).
Proof.
  intros Hf Hrow [HB HR]. split.
  - intros r w. simpl. rewrite list_lookup_alter. case_decide as Hd.
    + subst r. destruct (heap s !! this) as [w0|] eqn:Hw0; [|done].
      simpl. intros [= <-]. rewrite Hf. by apply HB.
    + apply HB.
  - intros r w Hne. simpl. rewrite list_lookup_alter. case_decide as Hd.
    + subst r. destruct (heap s !! this) as [w0|] eqn:Hw0; [|done].
      simpl. intros [= <-]. apply Hrow. by apply (HR this).
    + by apply HR.
Qed.

(** [this] comes back once [row] holds of it. *)
Lemma rows_close (this : nat) s :
  rows row (Some this) s →
  (∀ w, heap s !! this = Some w → row (dom s) w) →
  rows row None s.
Proof.
  intros [HB HR] Hthis. split; [done|]. intros r w _ Hw.
  destruct (decide (r = this)) as [->|Hne]; [by apply Hthis|].
  apply (HR r); [congruence|done].
Qed.

End Rows.

Ltac not_in_list :=
  let Hin := fresh "Hin" in
  intros Hin; repeat (apply elem_of_cons in Hin as [?|Hin]; [done|]);
  by apply elem_of_nil in Hin.

(** ** [focus] under rows that see neither the class [active] nor the
    stacking value *)

Section RowsFocus.

Variable row : (ElemId → Element) → Window → Prop.
Hypothesis row_set_style : ∀ d w e p v,
  p ∉ ["left"; "top"; "width"; "height"] → row d w → row (alter (set_style p v) e d) w.
Hypothesis row_add_active : ∀ d w e,
  row d w → row (alter (set_classList (classList_add "active")) e d) w.
Hypothesis row_remove_active : ∀ d w e,
  row d w → row (alter (set_classList (classList_remove "active")) e d) w.

Lemma rows_setActive X this active s : rows row X s → rows row X (setActive this active s).
Proof.
  intros Hrows. unfold setActive. destruct (heap s !! this) as [w|]; [|done].
  destruct active; (apply rows_update_elem; [done| |done]); intros w'; auto.
Qed.

Lemma rows_bringToFront X wi s : rows row X s → rows row X (bringToFront wi s).
Proof.
  intros Hrows. unfold bringToFront. destruct wi as [wi|]; [|done].
  destruct (heap s !! wi) as [w|]; [|done]. cbv zeta.
  apply rows_update_elem; [done| |done].
  intros w'. apply row_set_style. not_in_list.
Qed.

Lemma rows_focus X w s : rows row X s → rows row X (focus w s).
Proof.
  intros Hrows. rewrite focus_unfold. cbv zeta.
  assert (rows row X (unfocus_previous w s)) as H1.
  { unfold unfocus_previous. repeat case_match; try done. by apply rows_setActive. }
  destruct w as [a|]; [|done].
  by apply rows_bringToFront, rows_setActive.
Qed.

Lemma rows_display X e v s :
  rows row X s → rows row X (update_elem e (set_style "display" v) s).
Proof.
  intros Hrows. apply rows_update_elem; [done| |done].
  intros w'. apply row_set_style. not_in_list.
Qed.

Lemma rows_hide X this s : rows row X s → rows row X (hide this s).
Proof.
  intros Hrows. unfold hide. destruct (heap s !! this) as [w|]; [|done].
  by apply rows_focus, rows_display.
Qed.

End RowsFocus.

(** ** The style of the root mirrors the geometry *)

Lemma keeps_structure_set_style p v : keeps_structure (set_style p v).
Proof. done. Qed.

Lemma keeps_structure_set_classList f : keeps_structure (set_classList f).
Proof. done. Qed.

(** A change of another element that keeps the structure. *)
Lemma row_style_other_elem d w e f :
  keeps_structure f → root w ≠ e → row_style d w → row_style (alter f e d) w.
Proof.
  intros Hk Hne (H1 & H2 & H3 & H4). unfold row_style.
  rewrite !fn_lookup_alter_ne by done. repeat split; try done.
  intros Hb. apply H4. intros e' He'. apply (Hb e').
  destruct (decide (e = e')) as [->|Hne'].
  - rewrite fn_lookup_alter. by rewrite (proj2 (Hk _)).
  - by rewrite fn_lookup_alter_ne.
Qed.

(** A change of the class list, or of a style property that is no part of
    the geometry. *)
Lemma row_style_keep d w e f :
  keeps_structure f →
  (∀ el p, p ∈ ["left"; "top"; "width"; "height"] → style (f el) p = style el p) →
  row_style d w → row_style (alter f e d) w.
Proof.
  intros Hk Hf Hrow. destruct (decide (root w = e)) as [<-|Hne];
    [|by apply row_style_other_elem].
  destruct Hrow as (H1 & H2 & H3 & H4). unfold row_style.
  rewrite !fn_lookup_alter, !Hf by (repeat constructor).
  repeat split; try done.
  intros Hb. apply H4. intros e' He'. apply (Hb e').
  destruct (decide (root w = e')) as [<-|Hne'].
  - rewrite fn_lookup_alter. by rewrite (proj2 (Hk _)).
  - by rewrite fn_lookup_alter_ne.
Qed.

Lemma style_set_style_ne p q v el : p ≠ q → style (set_style p v el) q = style el q.
Proof. intros Hne. simpl. by rewrite fn_lookup_insert_ne. Qed.

Lemma row_style_set_style d w e p v :
  p ∉ ["left"; "top"; "width"; "height"] →
  row_style d w → row_style (alter (set_style p v) e d) w.
Proof.
  intros Hp. apply row_style_keep; [done|].
  intros el q Hq. apply style_set_style_ne. intros ->. by apply Hp.
Qed.

Lemma row_style_set_classList d w e f :
  row_style d w → row_style (alter (set_classList f) e d) w.
Proof. by apply row_style_keep. Qed.

(** The write to the height of a [.window-body]. *)
Lemma row_style_body d w e0 b v :
  window_body (d e0) = Some b →
  row_style d w → row_style (alter (set_style "height" v) b d) w.
Proof.
  intros Hb Hrow. destruct (decide (root w = b)) as [<-|Hne];
    [|by apply row_style_other_elem].
  destruct Hrow as (H1 & H2 & H3 & H4). unfold row_style.
  rewrite !fn_lookup_alter, !style_set_style_ne by done.
  repeat split; try done. intros Hno. exfalso. apply (Hno e0).
  destruct (decide (root w = e0)) as [<-|Hne'].
  - by rewrite fn_lookup_alter.
  - by rewrite fn_lookup_alter_ne.
Qed.

(** A change of fields that are no part of the geometry. *)
Lemma row_style_fields d w w' :
  root w' = root w → geometry w' = geometry w → row_style d w → row_style d w'.
Proof.
  intros Er Eg. apply geometry_inv in Eg as (E1 & E2 & E3 & E4).
  unfold row_style. by rewrite Er, E1, E2, E3, E4.
Qed.

(** The four writes of [updatePosition] to the root. *)
Lemma row_style_written d w :
  row_style
    (alter (set_style "height" (Px (height w))) (root w)
       (alter (set_style "width" (Px (width w))) (root w)
          (alter (set_style "top" (Px (y w))) (root w)
             (alter (set_style "left" (Px (x w))) (root w) d)))) w.
Proof.
  unfold row_style. rewrite !fn_lookup_alter. simpl.
  repeat split; try done;
    repeat (first [rewrite fn_lookup_insert | rewrite fn_lookup_insert_ne by done]); done.
Qed.

Lemma rows_style_updatePosition this s :
  rows row_style (Some this) s → rows row_style None (updatePosition this s).
Proof.
  intros Hrows. unfold updatePosition.
  destruct (heap s !! this) as [w|] eqn:Hw; [|by apply (rows_dangling _ this)].
  cbv zeta.
  set (s4 := update_elem (root w) (set_style "height" (Px (height w)))
               (update_elem (root w) (set_style "width" (Px (width w)))
                  (update_elem (root w) (set_style "top" (Px (y w)))
                     (update_elem (root w) (set_style "left" (Px (x w))) s)))).
  assert (rows row_style (Some this) s4) as H4.
  { subst s4.
    repeat (apply (rows_update_root _ this w); [done|done|done| |]);
      try (intros w' Hne; by apply row_style_other_elem).
    done. }
  assert (row_style (dom s4) w) as Hrow4 by apply row_style_written.
  destruct (window_body (dom s4 (root w))) as [b|] eqn:Hb.
  - apply (rows_close _ this).
    + apply rows_update_elem; [done| |done].
      intros w'. by apply (row_style_body _ _ (root w)).
    + simpl. intros w' Hw'. assert (w' = w) as -> by congruence.
      by apply (row_style_body _ _ (root w)).
  - apply (rows_close _ this); [done|].
    intros w' Hw'. simpl in Hw'. by assert (w' = w) as -> by congruence.
Qed.

Lemma rows_style_reposition hr this s :
  rows row_style (Some this) s → rows row_style None (reposition hr this s).
Proof.
  intros Hrows. unfold reposition. apply rows_style_updatePosition.
  apply rows_update_window_aside; [apply root_reposition_this|done].
Qed.

Lemma rows_style_maximize hr this s :
  rows row_style None s → rows row_style None (maximize hr this s).
Proof.
  intros Hrows. unfold maximize. destruct (heap s !! this) as [w|] eqn:Hw; [|done].
  cbv zeta. destruct (maximized w) eqn:Hm; simpl.
  - destruct (oldPosition w) as [p|] eqn:Hp.
    + apply rows_style_reposition.
      apply rows_update_window_aside; [done|].
      apply rows_update_elem; [done|intros w'; apply row_style_set_classList|].
      by apply rows_update_window.
    + apply rows_update_elem; [done|intros w'; apply row_style_set_classList|].
      apply rows_update_window_keep; [done| |done].
      intros w'. by apply row_style_fields.
  - apply rows_style_reposition.
    apply rows_update_window_aside; [done|].
    apply rows_update_elem; [done|intros w'; apply row_style_set_classList|].
    by apply rows_update_window.
Qed.

Lemma rows_style_focus X w s : rows row_style X s → rows row_style X (focus w s).
Proof.
  apply rows_focus; intros;
    auto using row_style_set_style, row_style_set_classList.
Qed.

Lemma rows_style_bringToFront X w s :
  rows row_style X s → rows row_style X (bringToFront w s).
Proof. apply rows_bringToFront; intros; auto using row_style_set_style. Qed.

Lemma rows_style_hide X this s : rows row_style X s → rows row_style X (hide this s).
Proof.
  apply rows_hide; intros;
    auto using row_style_set_style, row_style_set_classList.
Qed.

Lemma rows_style_dragMove hr dx dy e this s :
  rows row_style None s → rows row_style None (dragMove hr dx dy e this s).
Proof.
  intros Hrows. unfold dragMove. destruct (heap s !! this) as [w|] eqn:Hw; [|done].
  cbv zeta. destruct (resizing w).
  - apply rows_style_updatePosition.
    do 2 (apply rows_update_window_aside; [done|]).
    apply (rows_weaken _ (Some this)) in Hrows.
    destruct (resizeX w <? 0), (resizeY w <? 0);
      repeat (apply rows_update_window_aside; [done|]); done.
  - destruct (edgeMaximize (host s) && _).
    + destruct (negb (maximized w)); [by apply rows_style_maximize|done].
    + apply rows_style_updatePosition.
      do 2 (apply rows_update_window_aside; [done|]).
      apply (rows_weaken _ (Some this)) in Hrows.
      destruct (maximized w); [|done].
      destruct (oldPosition w) as [p|].
      * apply rows_update_window_aside; [done|].
        apply rows_update_elem; [done|intros w'; apply row_style_set_classList|].
        by apply rows_update_window_aside.
      * apply rows_update_elem; [done|intros w'; apply row_style_set_classList|].
        by apply rows_update_window_aside.
Qed.

Lemma rows_style_dragEnd hr this s :
  rows row_style None s → rows row_style None (dragEnd hr this s).
Proof.
  intros Hrows. unfold dragEnd. destruct (heap s !! this) as [w|] eqn:Hw; [|done].
  cbv zeta. apply rows_style_reposition.
  apply (rows_weaken _ (Some this)) in Hrows.
  destruct (resizing w); [|done].
  apply rows_set_body_cursor.
  apply rows_update_elem; [done| |].
  { intros w'. apply row_style_set_style. not_in_list. }
  by apply rows_update_window_aside.
Qed.

Lemma rows_style_show hr rc this s :
  rows row_style None s → rows row_style None (show hr rc this s).
Proof.
  intros Hrows. unfold show. destruct (heap s !! this) as [w|] eqn:Hw; [|done].
  cbv zeta. apply rows_style_focus, rows_style_reposition.
  apply (rows_weaken _ (Some this)) in Hrows.
  assert (rows row_style (Some this)
            (update_elem (root w) (set_style "display" (Kw "block")) s)) as H1.
  { apply rows_update_elem; [done| |done].
    intros w'. apply row_style_set_style. not_in_list. }
  destruct (rect_width rc >? 0); [|done]. by apply rows_update_window_aside.
Qed.

Lemma rows_style_root_mousemove rc on_frame e this s :
  rows row_style None s → rows row_style None (root_mousemove rc on_frame e this s).
Proof.
  intros Hrows. unfold root_mousemove. destruct (heap s !! this) as [w|] eqn:Hw; [|done].
  destruct (resizing w); [done|]. cbv zeta.
  apply rows_update_elem; [done| |].
  { intros w'. apply row_style_set_style. not_in_list. }
  apply rows_update_window_keep; [done| |done].
  intros w'. by apply row_style_fields.
Qed.

Lemma rows_style_resize_start on_frame this s :
  rows row_style None s → rows row_style None (root_mousedown_resize on_frame this s).
Proof.
  intros Hrows. unfold root_mousedown_resize.
  destruct (heap s !! this) as [w|] eqn:Hw; [|done].
  destruct (on_frame && _ && _); [|done].
  apply rows_set_body_cursor. apply rows_update_window_keep; [done| |done].
  intros w'. by apply row_style_fields.
Qed.

Lemma rows_style_viewport_resize hr s :
  rows row_style None s → rows row_style None (viewport_resize hr s).
Proof.
  unfold viewport_resize. generalize (windows (host s)). intros ws. revert s.
  induction ws as [|w ws IH]; intros s Hrows; [done|].
  simpl. by apply IH, rows_style_reposition, rows_weaken.
Qed.

Lemma row_style_set_csWindow d w e v :
  row_style d w → row_style (alter (set_csWindow v) e d) w.
Proof.
  intros (H1 & H2 & H3 & H4). unfold row_style.
  assert (∀ e', style (alter (set_csWindow v) e d e') = style (d e')) as Hs.
  { intros e'. destruct (decide (e = e')) as [->|Hne].
    - by rewrite fn_lookup_alter.
    - by rewrite fn_lookup_alter_ne. }
  assert (∀ e', window_body (alter (set_csWindow v) e d e') = window_body (d e')) as Hb.
  { intros e'. destruct (decide (e = e')) as [->|Hne].
    - by rewrite fn_lookup_alter.
    - by rewrite fn_lookup_alter_ne. }
  rewrite !Hs. repeat split; try done.
  intros Hno. apply H4. intros e'. rewrite <- Hb. apply Hno.
Qed.

(** The constructor's first steps: a new instance on an element that wraps
    none, and the back reference. *)
Lemma rows_style_new_instance el w0 s :
  csWindow (dom s el) = None → root w0 = el →
  rows row_style None s →
  rows row_style (Some (length (heap s)))
    (update_elem el (set_csWindow (Some (length (heap s)))) (set_heap (heap s ++ [w0]) s)).
Proof.
  intros Hnone Hroot [HB HR]. split.
  - intros r w. simpl. intros Hw.
    apply lookup_app_Some in Hw as [Hw|[Hlen Hw]].
    + pose proof (HB r w Hw) as Hc.
      rewrite fn_lookup_alter_ne; [done|]. intros E. rewrite <- E in Hc. congruence.
    + destruct (r - length (heap s))%nat as [|n] eqn:En; [|done].
      simpl in Hw. injection Hw as <-. rewrite Hroot, fn_lookup_alter. simpl.
      f_equal. lia.
  - intros r w Hne. simpl. intros Hw.
    apply lookup_app_Some in Hw as [Hw|[Hlen Hw]].
    + apply row_style_set_csWindow. by apply (HR r).
    + destruct (r - length (heap s))%nat as [|n] eqn:En; [|done].
      exfalso. apply Hne. f_equal. lia.
Qed.

Lemma rows_style_init L this s :
  rows row_style (Some this) s → rows row_style None (init L this s).
Proof.
  intros Hrows. unfold init.
  destruct (heap s !! this) as [w|] eqn:Hw; [|by apply (rows_dangling _ this)].
  cbv zeta. apply rows_style_updatePosition.
  apply rows_update_window_aside.
  { intros w'. unfold init_this. by destruct (rect_width (rect L) >? 0). }
  apply rows_update_elem; [done| |done].
  intros w'. apply row_style_set_style. not_in_list.
Qed.

Lemma rows_style_create L windowElement s :
  rows row_style None s → rows row_style None (create L windowElement s).2.
Proof.
  intros Hrows. unfold create. destruct windowElement as [el|]; [|done].
  destruct (csWindow (dom s el)) as [w|] eqn:Hc.
  - simpl. unfold window_focus. by apply rows_style_focus, rows_style_reposition, rows_weaken.
  - unfold new_Window. cbv zeta. simpl. unfold window_focus.
    apply rows_style_focus, rows_set_host, rows_style_init.
    by apply rows_style_new_instance.
Qed.

Lemma rows_style_openWindowById L el s :
  rows row_style None s → rows row_style None (openWindowById L el s).
Proof.
  intros Hrows. unfold openWindowById. cbv zeta.
  assert (rows row_style None (update_elem el (set_style "display" (Kw "block")) s)) as H1.
  { apply rows_update_elem; [done| |done].
    intros w'. apply row_style_set_style. not_in_list. }
  destruct (getWindowById _ _) as [inst|].
  - by apply rows_style_bringToFront, rows_style_show.
  - pose proof (rows_style_create L (Some el) _ H1) as H2.
    destruct (create L (Some el) _) as [w1 s1]. by apply rows_style_bringToFront.
Qed.

Lemma rows_style_apply_op o s :
  rows row_style None s → rows row_style None (apply_op o s).
Proof.
  intros Hrows.
  destruct o as [L windowElement|L el|w0|w0|hr this|hr this|hr rc this|this
                |hr dx dy e this|hr this|rc on_frame e this|on_frame this|hr]; simpl.
  - by apply rows_style_create.
  - by apply rows_style_openWindowById.
  - by apply rows_style_focus.
  - by apply rows_style_bringToFront.
  - by apply rows_style_maximize.
  - by apply rows_style_reposition, rows_weaken.
  - by apply rows_style_show.
  - by apply rows_style_hide.
  - by apply rows_style_dragMove.
  - by apply rows_style_dragEnd.
  - by apply rows_style_root_mousemove.
  - by apply rows_style_resize_start.
  - by apply rows_style_viewport_resize.
Qed.

Lemma rows_style_run_ops ops s :
  rows row_style None s → rows row_style None (run_ops ops s).
Proof.
  revert s. induction ops as [|o ops IH]; intros s Hrows; [done|].
  simpl. by apply IH, rows_style_apply_op.
Qed.

Lemma rows_new_page row d : rows row None (new_page d).
Proof. by split. Qed.

(** X5. On every page the operations lead to, the root of the host having
    a width whenever a window is dragged, the inline style of a window's
    root carries the window's position and size: [left] and [top] are [x]
    and [y] in pixels; [width] is the window's width when that is not
    negative, and so is [height], unless the root is the [.window-body] of
    some element. *)
Theorem style_mirrors_geometry d ops (r : nat) w :
  let s := run_ops ops (new_page d) in
  Forall host_visible ops →
  heap s !! r = Some w →
  style (dom s (root w)) "left" = Some (Px (x w))
  ∧ style (dom s (root w)) "top" = Some (Px (y w))
  ∧ (0 ≤ width w → style (dom s (root w)) "width" = Some (Px (width w)))
  ∧ (0 ≤ height w → (∀ e, window_body (dom s e) ≠ Some (root w)) →
     style (dom s (root w)) "height" = Some (Px (height w))).
Proof.
  intros s _ Hw.
  destruct (rows_style_run_ops ops (new_page d) (rows_new_page _ d)) as [_ HR].
  destruct (HR r w ltac:(done) Hw) as (H1 & H2 & H3 & H4). auto.
Qed.

Lemma style_mirrors_geometry_witness :
  style (dom dragged_left 0%nat) "left" = Some (Px (-290))
  ∧ style (dom dragged_left 0%nat) "top" = Some (Px 10).
Proof.
  destruct (style_mirrors_geometry demo_dom
              [OCreate (demo_layout 10 10) (Some 0%nat);
               ODragMove demo_host (-300) 0 (mkMouseEvent 0 20) 0%nat]
              0%nat (mkWindow 0 0 0 "" false false None (-290) 10 300 200))
    as (H1 & H2 & _).
  - repeat constructor.
  - vm_compute. reflexivity.
  - split; [exact H1|exact H2].
Defined.

(** ** The collection of the host *)

Lemma same_registry_refl s : same_registry s s.
Proof. done. Qed.

Lemma same_registry_trans s1 s2 s3 :
  same_registry s1 s2 → same_registry s2 s3 → same_registry s1 s3.
Proof. intros (A1 & A2 & A3) (B1 & B2 & B3). repeat split; congruence. Qed.

Lemma same_registry_frame s s' : frame s s' → same_registry s s'.
Proof.
  intros Hf. unfold same_registry. rewrite (frame_host _ _ Hf), (frame_length _ _ Hf). done.
Qed.

Lemma same_registry_focus w s : same_registry s (focus w s).
Proof.
  unfold same_registry. rewrite windows_focus, heap_focus. split; [|done].
  rewrite focus_unfold. cbv zeta. destruct w as [a|]; [|done].
  unfold bringToFront. repeat case_match; simpl; by rewrite ?host_setActive.
Qed.

Lemma same_registry_bringToFront w s : same_registry s (bringToFront w s).
Proof.
  unfold same_registry. rewrite heap_bringToFront.
  unfold bringToFront. repeat case_match; done.
Qed.

Lemma same_registry_show hr rc this s : same_registry s (show hr rc this s).
Proof.
  unfold show. destruct (heap s !! this) as [w|] eqn:Hw; [|done]. cbv zeta.
  unfold window_focus.
  eapply same_registry_trans; [|apply same_registry_focus].
  apply same_registry_frame, (frame_show_prefix hr rc this s w).
Qed.

Lemma same_registry_hide this s : same_registry s (hide this s).
Proof.
  unfold hide. destruct (heap s !! this) as [w|] eqn:Hw; [|done].
  eapply same_registry_trans; [|apply same_registry_focus].
  by apply same_registry_frame, frame_update_style.
Qed.

Lemma registered_same s s' : same_registry s s' → registered s → registered s'.
Proof. intros (A1 & A2 & A3) [B1 B2]. unfold registered. by rewrite A1, A2, A3. Qed.

Lemma registered_create L windowElement s :
  registered s → registered (create L windowElement s).2.
Proof.
  intros Hreg. unfold create. destruct windowElement as [el|]; [|done].
  destruct (csWindow (dom s el)) as [w|] eqn:Hc.
  - simpl. unfold window_focus. eapply registered_same; [|done].
    eapply same_registry_trans; [|apply same_registry_focus].
    apply same_registry_frame, frame_reposition.
  - pose proof (heap_create_fresh L el s Hc) as Hheap.
    unfold create in Hheap. rewrite Hc in Hheap.
    pose proof (host_new_Window L el s) as Hhost.
    destruct (new_Window L el s) as [this s1] eqn:Hnew. simpl in *.
    assert (this = length (heap s)) as ->.
    { unfold new_Window in Hnew. by injection Hnew as <- _. }
    unfold window_focus in *.
    destruct Hreg as [B1 B2]. unfold registered.
    destruct (same_registry_focus (Some (length (heap s)))
                (set_host (mkHost (edgeMaximize (host s1)) (windows (host s1) ++ [length (heap s)])
                                  (activeWindow (host s1)) (maxZIndex (host s1))) s1))
      as (A1 & A2 & A3).
    rewrite A1, A2, Hheap. simpl. rewrite Hhost, B1, B2, length_app. simpl.
    split; [done|]. by rewrite seq_app.
Qed.

Lemma registered_openWindowById L el s :
  registered s → registered (openWindowById L el s).
Proof.
  intros Hreg. unfold openWindowById. cbv zeta.
  assert (registered (update_elem el (set_style "display" (Kw "block")) s)) as H1.
  { eapply registered_same; [|done]. by apply same_registry_frame, frame_update_style. }
  destruct (getWindowById _ _) as [inst|].
  - eapply registered_same; [|done].
    eapply same_registry_trans; [apply same_registry_show|apply same_registry_bringToFront].
  - pose proof (registered_create L (Some el) _ H1) as H2.
    destruct (create L (Some el) _) as [w1 s1].
    eapply registered_same; [apply same_registry_bringToFront|done].
Qed.

Lemma registered_apply_op o s : registered s → registered (apply_op o s).
Proof.
  intros Hreg.
  destruct o as [L windowElement|L el|w0|w0|hr this|hr this|hr rc this|this
                |hr dx dy e this|hr this|rc on_frame e this|on_frame this|hr]; simpl;
    [by apply registered_create|by apply registered_openWindowById|..];
    (eapply registered_same; [|done]);
    auto using same_registry_focus, same_registry_bringToFront, same_registry_show,
      same_registry_hide, same_registry_frame, frame_maximize, frame_reposition,
      frame_dragMove, frame_dragEnd, frame_root_mousemove, frame_root_mousedown_resize,
      frame_viewport_resize.
Qed.

Lemma registered_run_ops ops s : registered s → registered (run_ops ops s).
Proof.
  revert s. induction ops as [|o ops IH]; intros s Hreg; [done|].
  simpl. by apply IH, registered_apply_op.
Qed.

Lemma registered_reachable d ops : registered (run_ops ops (new_page d)).
Proof. by apply registered_run_ops. Qed.

Lemma run_ops_app ops1 ops2 s : run_ops (ops1 ++ ops2) s = run_ops ops2 (run_ops ops1 s).
Proof. unfold run_ops. apply fold_left_app. Qed.

Lemma length_heap_run_ops ops s : (length (heap s) ≤ length (heap (run_ops ops s)))%nat.
Proof.
  destruct (decide (length (heap s) = 0%nat)) as [E|Hne]; [lia|].
  destruct (lookup_lt_is_Some_2 (heap s) (length (heap s) - 1)) as [w Hw]; [lia|].
  destruct (extends_run_ops ops s _ _ Hw) as (w' & Hw' & _).
  apply lookup_lt_Some in Hw'. lia.
Qed.

(** X6. The host keeps every window it has created: on every page the
    operations lead to, [windows] lists each window once and no other, and
    nothing that happens later removes or reorders an entry. *)
Theorem windows_registered_once d ops ops' :
  let s := run_ops ops (new_page d) in
  NoDup (windows (host s))
  ∧ (∀ r : nat, r ∈ windows (host s) ↔ is_Some (heap s !! r))
  ∧ windows (host s) `prefix_of` windows (host (run_ops ops' s)).
Proof.
  intros s. destruct (registered_reachable d ops) as [_ Hs]. fold s in Hs.
  destruct (registered_reachable d (ops ++ ops')) as [_ Hs'].
  rewrite run_ops_app in Hs'. fold s in Hs'.
  rewrite Hs. split; [apply NoDup_seq|]. split.
  - intros r. rewrite elem_of_seq, lookup_lt_is_Some. lia.
  - rewrite Hs'. pose proof (length_heap_run_ops ops' s) as Hle.
    exists (seq (length (heap s)) (length (heap (run_ops ops' s)) - length (heap s))).
    rewrite <- seq_app. f_equal. lia.
Qed.

(** [viewport_resize] on a list of windows that are all different. *)
Lemma heap_viewport_resize_list hr ws s :
  heap (fold_left (λ s w, reposition hr w s) ws s)
  = fold_left (λ l w, alter (reposition_this hr) w l) ws (heap s).
Proof.
  revert s. induction ws as [|w ws IH]; intros s; [done|].
  simpl. by rewrite IH, heap_reposition.
Qed.

Lemma alter_seq_all {A} (f : A → A) (l1 l2 : list A) :
  fold_left (λ l w, alter f w l) (seq (length l1) (length l2)) (l1 ++ l2)
  = l1 ++ (f <$> l2).
Proof.
  revert l1. induction l2 as [|a l2 IH]; intros l1; [done|].
  simpl. rewrite alter_app_r_alt by lia. rewrite Nat.sub_diag. simpl.
  replace (S (length l1)) with (length (l1 ++ [f a])) by (rewrite length_app; simpl; lia).
  replace (l1 ++ f a :: l2) with ((l1 ++ [f a]) ++ l2) by (by rewrite <- app_assoc).
  rewrite IH. by rewrite <- app_assoc.
Qed.

(** X7. When the viewport is resized, every window of the page is
    repositioned, each one once. *)
Theorem viewport_resize_repositions_all d ops hr :
  let s := run_ops ops (new_page d) in
  heap (viewport_resize hr s) = reposition_this hr <$> heap s.
Proof.
  intros s. destruct (registered_reachable d ops) as [_ Hs]. fold s in Hs.
  unfold viewport_resize. rewrite heap_viewport_resize_list, Hs.
  apply (alter_seq_all (reposition_this hr) [] (heap s)).
Qed.

(** ** What a drag does to the window *)

Lemma lookup_alter_this {A} (f : A → A) (l : list A) (i : nat) a :
  l !! i = Some a → alter f i l !! i = Some (f a).
Proof. intros Hl. by rewrite list_lookup_alter_eq, Hl. Qed.




Lemma classList_update_classList e f s :
  classList (dom (update_elem e (set_classList f) s) e) = f (classList (dom s e)).
Proof. simpl. by rewrite fn_lookup_alter. Qed.

(** X8. Resizing by an edge. The pointer is over the frame of a window
    that is neither maximized nor being resized, the button is pressed and
    the pointer moves by [(dx, dy)]. In the interior no resize starts. Within
    20 pixels of an edge the resize starts, the page shows the cursor of
    that edge, and the left or top edge follows the pointer while the
    opposite edge stays, or the right or bottom edge follows while the
    position stays. Nothing bounds the size from below. *)
Theorem resize_from_edge rc hr e e' dx dy (this : nat) w s :
  heap s !! this = Some w → resizing w = false → maximized w = false →
  let rx := edge_of (clientX e - rect_left rc) (rect_width rc) in
  let ry := edge_of (clientY e - rect_top rc) (rect_height rc) in
  let s1 := root_mousemove rc true e this s in
  let s2 := root_mousedown_resize true this (window_focus this s1) in
  let s3 := dragMove hr dx dy e' this s2 in
  (rx = 0 ∧ ry = 0 → resizing <$> (heap s2 !! this) = Some false)
  ∧ (rx ≠ 0 ∨ ry ≠ 0 →
     body_cursor s2 = cursor_of rx ry
     ∧ ∃ w', heap s3 !! this = Some w' ∧ resizing w' = true
        ∧ (rx = -1 → x w' = x w + dx ∧ x w' + width w' = x w + width w)
        ∧ (rx = 0 → x w' = x w ∧ width w' = width w)
        ∧ (rx = 1 → x w' = x w ∧ width w' = width w + dx)
        ∧ (ry = -1 → y w' = y w + dy ∧ y w' + height w' = y w + height w)
        ∧ (ry = 0 → y w' = y w ∧ height w' = height w)
        ∧ (ry = 1 → y w' = y w ∧ height w' = height w + dy)).
Proof.
  intros Hw Hr Hm rx ry s1 s2 s3.
  pose proof (edge_ok_edge_of (clientX e - rect_left rc) (rect_width rc)) as Hx.
  pose proof (edge_ok_edge_of (clientY e - rect_top rc) (rect_height rc)) as Hy.
  fold rx in Hx. fold ry in Hy.
  assert (heap (window_focus this s1) !! this
          = Some (set_resize rx ry (cursor_of rx ry) w)) as H1.
  { unfold window_focus. subst s1. rewrite heap_focus, heap_root_mousemove.
    erewrite lookup_alter_this by done.
    unfold root_mousemove_this. by rewrite Hr, Hm. }
  clearbody rx ry. split.
  - intros [-> ->]. subst s2. unfold root_mousedown_resize. rewrite H1. simpl.
    rewrite Hm. simpl. rewrite H1. simpl. by rewrite Hr.
  - intros Hedge.
    assert (truthy rx || truthy ry = true) as Htr.
    { unfold truthy. destruct (Z.eqb_spec rx 0), (Z.eqb_spec ry 0); try done. lia. }
    assert (s2 = set_body_cursor (cursor_of rx ry)
                   (update_window this (set_resizing true) (window_focus this s1))) as E2.
    { subst s2. unfold root_mousedown_resize. rewrite H1. simpl. by rewrite Hm, Htr. }
    split; [by rewrite E2|].
    assert (heap s2 !! this
            = Some (set_resizing true (set_resize rx ry (cursor_of rx ry) w))) as H2.
    { rewrite E2. simpl. by erewrite lookup_alter_this. }
    eexists. split.
    { subst s3. rewrite heap_dragMove. by erewrite lookup_alter_this. }
    unfold dragMove_this, resize_this. simpl.
    destruct Hx as [->|[->| ->]], Hy as [->|[->| ->]]; simpl;
      (split; [done|]); repeat split; intros; try done; lia.
Qed.

Lemma resize_from_edge_witness :
  let s1 := root_mousemove (mkRect 10 10 300 200) true (mkMouseEvent 12 100) 0%nat dragged_left in
  let s2 := root_mousedown_resize true 0%nat (window_focus 0%nat s1) in
  let s3 := dragMove demo_host (-400) 0 (mkMouseEvent 0 100) 0%nat s2 in
  body_cursor s2 = "w-resize"
  ∧ ∃ w', heap s3 !! 0%nat = Some w' ∧ x w' = -690 ∧ x w' + width w' = 10.
Proof.
  destruct (resize_from_edge (mkRect 10 10 300 200) demo_host (mkMouseEvent 12 100)
              (mkMouseEvent 0 100) (-400) 0 0%nat
              (mkWindow 0 0 0 "" false false None (-290) 10 300 200) dragged_left)
    as [_ H]; [vm_compute; reflexivity|reflexivity|reflexivity|].
  destruct H as (Hc & w' & Hw' & _ & Hleft & _); [left; vm_compute; discriminate|].
  split; [exact Hc|]. exists w'. split; [exact Hw'|].
  destruct Hleft as [E1 E2]; [reflexivity|]. split; [exact E1|exact E2].
Defined.





(** X11. After [reposition()], a window that is not maximized is within
    the bounds of the root, provided the root is at least 30 pixels high
    and the widths of the root and the window add up to 80 pixels at least;
    a second [reposition()] then changes no window. *)
Theorem reposition_within_bounds hr (this : nat) w s :
  heap s !! this = Some w → maximized w = false →
  30 ≤ rect_height hr → 80 ≤ rect_width hr + width w →
  ∃ w', heap (reposition hr this s) !! this = Some w'
        ∧ within_bounds hr w'
        ∧ heap (reposition hr this (reposition hr this s)) = heap (reposition hr this s).
Proof.
  intros Hw Hm HH HW. exists (reposition_this hr w).
  split; [by apply lookup_reposition|].
  destruct (reposition_this_normal hr w Hm) as (Em & Ew & Eh & Ey & Ex).
  assert (within_bounds hr (reposition_this hr w)) as Hb.
  { unfold within_bounds. rewrite Ew, Ey, Ex. repeat case_match; lia. }
  split; [done|].
  rewrite (heap_reposition hr this (reposition hr this s)), heap_reposition.
  rewrite list_alter_alter_eq. apply alter_same. intros a Ha.
  assert (a = w) as -> by congruence. simpl.
  remember (reposition_this hr w) as w1 eqn:E1. clear E1.
  destruct Hb as (B1 & B2 & B3 & B4).
  unfold reposition_this. rewrite Em.
  destruct (Z.ltb_spec (y w1) 0); [lia|].
  destruct (Z.gtb_spec (y w1 + 30) (rect_height hr)); [lia|]. cbv zeta.
  destruct (Z.ltb_spec (x w1 + width w1) 50); [lia|].
  by destruct (Z.gtb_spec (x w1 + 30) (rect_width hr)); [lia|].
Qed.

Lemma reposition_within_bounds_witness :
  ∃ w', heap (reposition demo_host 0%nat dragged_left) !! 0%nat = Some w'
        ∧ within_bounds demo_host w'.
Proof.
  destruct (reposition_within_bounds demo_host 0%nat
              (mkWindow 0 0 0 "" false false None (-290) 10 300 200) dragged_left)
    as (w' & H1 & H2 & _);
    [vm_compute; reflexivity|reflexivity|simpl; lia|simpl; lia|].
  exists w'. split; [exact H1|exact H2].
Defined.

(** ** The writes of each operation *)

Ltac in_list := repeat first [ by apply list_elem_of_here | apply list_elem_of_further ].

Lemma touched_trans ps el1 el2 el3 :
  touched ps el1 el2 → touched ps el2 el3 → touched ps el1 el3.
Proof.
  intros H12 H23. induction H23; [done|..].
  - by apply touched_style; [apply IHtouched|].
  - by apply touched_classList, IHtouched.
  - by apply touched_csWindow, IHtouched.
Qed.

Lemma touched_id ps el el' : touched ps el el' → id el' = id el.
Proof. induction 1; done. Qed.

Lemma touched_window_body ps el el' : touched ps el el' → window_body el' = window_body el.
Proof. induction 1; done. Qed.

Lemma touched_style_ne ps el el' q :
  q ∉ ps → touched ps el el' → style el' q = style el q.
Proof.
  intros Hq. induction 1 as [|el el' p v _ IH Hp| |]; try done.
  rewrite style_set_style_ne; [done|]. by intros ->.
Qed.

Lemma touched_mono ps ps' el el' :
  (∀ p, p ∈ ps → p ∈ ps') → touched ps el el' → touched ps' el el'.
Proof.
  intros Hsub. induction 1; [apply touched_refl|..].
  - apply touched_style; [done|by apply Hsub].
  - by apply touched_classList.
  - by apply touched_csWindow.
Qed.

Lemma writes_mono ps ps' s s' :
  (∀ p, p ∈ ps → p ∈ ps') → writes ps s s' → writes ps' s s'.
Proof. intros Hsub H e. by apply (touched_mono ps). Qed.

Lemma writes_with_display s s' :
  writes window_props s s' → writes ("display" :: window_props) s s'.
Proof. apply writes_mono. intros p Hp. by apply list_elem_of_further. Qed.

Lemma writes_refl ps s : writes ps s s.
Proof. intros e. apply touched_refl. Qed.

Lemma writes_trans ps s1 s2 s3 : writes ps s1 s2 → writes ps s2 s3 → writes ps s1 s3.
Proof. intros H12 H23 e. by eapply touched_trans. Qed.

Lemma writes_same_dom ps s s' : dom s' = dom s → writes ps s s'.
Proof. intros E e. rewrite E. apply touched_refl. Qed.

Lemma writes_update_elem ps e f s :
  (∀ el, touched ps el (f el)) → writes ps s (update_elem e f s).
Proof.
  intros Hf e'. simpl. destruct (decide (e = e')) as [->|Hne].
  - rewrite fn_lookup_alter. apply Hf.
  - rewrite fn_lookup_alter_ne by done. apply touched_refl.
Qed.

Lemma writes_update_style ps e p v s :
  p ∈ ps → writes ps s (update_elem e (set_style p v) s).
Proof.
  intros Hp. apply writes_update_elem. intros el.
  by apply touched_style; [apply touched_refl|].
Qed.

Lemma writes_update_classList ps e f s : writes ps s (update_elem e (set_classList f) s).
Proof. apply writes_update_elem. intros el. apply touched_classList, touched_refl. Qed.

Lemma writes_update_csWindow ps e v s : writes ps s (update_elem e (set_csWindow v) s).
Proof. apply writes_update_elem. intros el. apply touched_csWindow, touched_refl. Qed.

(** One step of a proof of [writes]: peel the outermost update. *)
Ltac writes_step :=
  lazymatch goal with
  | |- writes _ ?s ?s => apply writes_refl
  | |- writes _ _ (update_window _ _ ?s0) =>
      apply (writes_trans _ _ s0); [|by apply writes_same_dom]
  | |- writes _ _ (set_host _ ?s0) =>
      apply (writes_trans _ _ s0); [|by apply writes_same_dom]
  | |- writes _ _ (set_heap _ ?s0) =>
      apply (writes_trans _ _ s0); [|by apply writes_same_dom]
  | |- writes _ _ (set_body_cursor _ ?s0) =>
      apply (writes_trans _ _ s0); [|by apply writes_same_dom]
  | |- writes _ _ (update_elem _ (set_style _ _) ?s0) =>
      apply (writes_trans _ _ s0); [|apply writes_update_style; in_list]
  | |- writes _ _ (update_elem _ (set_classList _) ?s0) =>
      apply (writes_trans _ _ s0); [|apply writes_update_classList]
  | |- writes _ _ (update_elem _ (set_csWindow _) ?s0) =>
      apply (writes_trans _ _ s0); [|apply writes_update_csWindow]
  | |- writes _ _ (match ?c with _ => _ end) => destruct c eqn:?
  end.

Lemma writes_updatePosition this s : writes window_props s (updatePosition this s).
Proof. unfold updatePosition. cbv zeta. repeat writes_step. Qed.

Lemma writes_reposition hr this s : writes window_props s (reposition hr this s).
Proof.
  unfold reposition. eapply writes_trans; [|apply writes_updatePosition].
  repeat writes_step.
Qed.

Lemma writes_setActive this a s : writes window_props s (setActive this a s).
Proof. unfold setActive. repeat writes_step. Qed.

Lemma writes_bringToFront w s : writes window_props s (bringToFront w s).
Proof. unfold bringToFront. cbv zeta. repeat writes_step. Qed.

Lemma writes_focus w s : writes window_props s (focus w s).
Proof.
  rewrite focus_unfold. cbv zeta.
  assert (writes window_props s (unfocus_previous w s)) as H1.
  { unfold unfocus_previous. repeat case_match; try apply writes_refl.
    apply writes_setActive. }
  destruct w as [a|].
  - eapply writes_trans; [|apply writes_bringToFront].
    eapply writes_trans; [|apply writes_setActive]. by writes_step.
  - by writes_step.
Qed.

Lemma writes_init L this s : writes window_props s (init L this s).
Proof.
  unfold init. destruct (heap s !! this); [|apply writes_refl]. cbv zeta.
  eapply writes_trans; [|apply writes_updatePosition]. repeat writes_step.
Qed.

Lemma writes_create L windowElement s : writes window_props s (create L windowElement s).2.
Proof.
  unfold create. destruct windowElement as [el|]; [|apply writes_refl].
  destruct (csWindow (dom s el)) as [w|].
  - simpl. unfold window_focus.
    eapply writes_trans; [apply writes_reposition|apply writes_focus].
  - unfold new_Window. cbv zeta. simpl. unfold window_focus.
    eapply writes_trans; [|apply writes_focus]. writes_step.
    eapply writes_trans; [|apply writes_init]. repeat writes_step.
Qed.

Lemma writes_maximize hr this s : writes window_props s (maximize hr this s).
Proof.
  unfold maximize. cbv zeta.
  repeat first [ writes_step | eapply writes_trans; [|apply writes_reposition] ].
Qed.

Lemma writes_dragMove hr dx dy e this s : writes window_props s (dragMove hr dx dy e this s).
Proof.
  unfold dragMove. cbv zeta.
  repeat first [ writes_step
               | eapply writes_trans; [|apply writes_updatePosition]
               | apply writes_maximize ].
Qed.

Lemma writes_dragEnd hr this s : writes window_props s (dragEnd hr this s).
Proof.
  unfold dragEnd. cbv zeta.
  repeat first [ writes_step | eapply writes_trans; [|apply writes_reposition] ].
Qed.

Lemma writes_root_mousemove rc on_frame e this s :
  writes window_props s (root_mousemove rc on_frame e this s).
Proof. unfold root_mousemove. cbv zeta. repeat writes_step. Qed.

Lemma writes_resize_start on_frame this s :
  writes window_props s (root_mousedown_resize on_frame this s).
Proof. unfold root_mousedown_resize. repeat writes_step. Qed.

Lemma writes_viewport_resize hr s : writes window_props s (viewport_resize hr s).
Proof.
  unfold viewport_resize. generalize (windows (host s)). intros ws.
  assert (∀ s0, writes window_props s s0 →
                writes window_props s (fold_left (λ s w, reposition hr w s) ws s0)) as H.
  { induction ws as [|w ws IH]; intros s0 H0; [done|].
    simpl. apply IH. eapply writes_trans; [done|apply writes_reposition]. }
  apply H, writes_refl.
Qed.

Lemma writes_show hr rc this s :
  writes ("display" :: window_props) s (show hr rc this s).
Proof.
  pose proof writes_with_display as Hmono.
  unfold show. destruct (heap s !! this) as [w|]; [|apply writes_refl]. cbv zeta.
  unfold window_focus.
  eapply writes_trans; [|apply Hmono, writes_focus].
  eapply writes_trans; [|apply Hmono, writes_reposition].
  repeat writes_step.
Qed.

Lemma writes_hide this s : writes ("display" :: window_props) s (hide this s).
Proof.
  pose proof writes_with_display as Hmono.
  unfold hide. destruct (heap s !! this) as [w|]; [|apply writes_refl].
  eapply writes_trans; [|apply Hmono, writes_focus]. repeat writes_step.
Qed.

Lemma display_not_window_prop : "display" ∉ window_props.
Proof. unfold window_props. not_in_list. Qed.

Lemma display_focus w s e :
  style (dom (focus w s) e) "display" = style (dom s e) "display".
Proof. apply (touched_style_ne window_props), writes_focus. apply display_not_window_prop. Qed.

Lemma display_reposition hr this s e :
  style (dom (reposition hr this s) e) "display" = style (dom s e) "display".
Proof.
  apply (touched_style_ne window_props), writes_reposition. apply display_not_window_prop.
Qed.

Lemma display_bringToFront w s e :
  style (dom (bringToFront w s) e) "display" = style (dom s e) "display".
Proof.
  apply (touched_style_ne window_props), writes_bringToFront. apply display_not_window_prop.
Qed.

Lemma display_create L el s e :
  style (dom (create L el s).2 e) "display" = style (dom s e) "display".
Proof.
  apply (touched_style_ne window_props), writes_create. apply display_not_window_prop.
Qed.

Lemma display_show hr rc this s e :
  style (dom (show hr rc this s) e) "display"
  = match heap s !! this with
    | Some w => if decide (root w = e) then Some (Kw "block") else style (dom s e) "display"
    | None => style (dom s e) "display"
    end.
Proof.
  unfold show. destruct (heap s !! this) as [w|]; [|done]. cbv zeta.
  unfold window_focus. rewrite display_focus, display_reposition.
  assert (style (dom (update_elem (root w) (set_style "display" (Kw "block")) s) e) "display"
          = if decide (root w = e) then Some (Kw "block") else style (dom s e) "display")
    as H1.
  { simpl. destruct (decide (root w = e)) as [->|Hne].
    - rewrite fn_lookup_alter. simpl. by rewrite fn_lookup_insert.
    - by rewrite fn_lookup_alter_ne. }
  by destruct (rect_width rc >? 0).
Qed.

(** ** Elements that refer to windows *)

Lemma backlinked_same s s' :
  (∀ e, csWindow (dom s' e) = csWindow (dom s e)) →
  (∀ r : nat, root <$> (heap s' !! r) = root <$> (heap s !! r)) →
  backlinked s → backlinked s'.
Proof.
  intros Hc Hr Hb e r. rewrite Hc. intros He.
  destruct (Hb e r He) as (w & Hw & Hroot).
  specialize (Hr r). rewrite Hw in Hr. simpl in Hr.
  destruct (heap s' !! r) as [w'|]; [|done]. simpl in Hr.
  exists w'. split; [done|]. congruence.
Qed.

Lemma backlinked_frame s s' : frame s s' → backlinked s → backlinked s'.
Proof. intros Hf. apply backlinked_same; [apply (frame_csWindow _ _ Hf)|apply (frame_roots _ _ Hf)]. Qed.

Lemma backlinked_focus w s : backlinked s → backlinked (focus w s).
Proof. apply backlinked_same; intros; by rewrite ?csWindow_focus, ?heap_focus. Qed.

Lemma backlinked_bringToFront w s : backlinked s → backlinked (bringToFront w s).
Proof.
  apply backlinked_same; intros; by rewrite ?csWindow_bringToFront, ?heap_bringToFront.
Qed.

Lemma root_new_window_this L el : root (new_window_this L el) = el.
Proof. unfold new_window_this, init_this. by destruct (rect_width (rect L) >? 0). Qed.

Lemma csWindow_create_fresh L el s e :
  csWindow (dom s el) = None →
  csWindow (dom (create L (Some el) s).2 e)
  = if decide (e = el) then Some (length (heap s)) else csWindow (dom s e).
Proof.
  intros Hel. unfold create. rewrite Hel. unfold new_Window. cbv zeta. simpl.
  unfold window_focus. rewrite csWindow_focus. simpl.
  rewrite (frame_csWindow _ _ (frame_init L _ _)). simpl.
  destruct (decide (e = el)) as [->|Hne].
  - by rewrite fn_lookup_alter.
  - by rewrite fn_lookup_alter_ne.
Qed.

Lemma backlinked_create L windowElement s :
  backlinked s → backlinked (create L windowElement s).2.
Proof.
  intros Hb. destruct windowElement as [el|]; [|done].
  destruct (csWindow (dom s el)) as [w|] eqn:Hc.
  - unfold create. rewrite Hc. simpl. unfold window_focus.
    by apply backlinked_focus, (backlinked_frame s), Hb; apply frame_reposition.
  - intros e r. rewrite csWindow_create_fresh, heap_create_fresh by done.
    destruct (decide (e = el)) as [->|Hne].
    + intros [= <-]. exists (new_window_this L el).
      split; [|apply root_new_window_this].
      rewrite lookup_app_r by lia. by rewrite Nat.sub_diag.
    + intros He. destruct (Hb e r He) as (w & Hw & Hroot).
      exists w. split; [|done]. by apply lookup_app_l_Some.
Qed.

Lemma backlinked_show hr rc this s : backlinked s → backlinked (show hr rc this s).
Proof.
  intros Hb. unfold show. destruct (heap s !! this) as [w|] eqn:Hw; [|done]. cbv zeta.
  unfold window_focus. apply backlinked_focus.
  by apply (backlinked_frame s), Hb; apply (frame_show_prefix hr rc this s w).
Qed.

Lemma backlinked_hide this s : backlinked s → backlinked (hide this s).
Proof.
  intros Hb. unfold hide. destruct (heap s !! this) as [w|] eqn:Hw; [|done].
  apply backlinked_focus. by apply (backlinked_frame s), Hb; apply frame_update_style.
Qed.

Lemma backlinked_openWindowById L el s : backlinked s → backlinked (openWindowById L el s).
Proof.
  intros Hb. unfold openWindowById. cbv zeta.
  assert (backlinked (update_elem el (set_style "display" (Kw "block")) s)) as H1
    by (by apply (backlinked_frame s), Hb; apply frame_update_style).
  destruct (getWindowById _ _) as [inst|].
  - by apply backlinked_bringToFront, backlinked_show.
  - pose proof (backlinked_create L (Some el) _ H1) as H2.
    destruct (create L (Some el) _) as [w1 s1]. by apply backlinked_bringToFront.
Qed.

Lemma backlinked_apply_op o s : backlinked s → backlinked (apply_op o s).
Proof.
  intros Hb.
  destruct o as [L windowElement|L el|w0|w0|hr this|hr this|hr rc this|this
                |hr dx dy e this|hr this|rc on_frame e this|on_frame this|hr]; simpl;
    [by apply backlinked_create|by apply backlinked_openWindowById
    |by apply backlinked_focus|by apply backlinked_bringToFront|
    |
    |by apply backlinked_show|by apply backlinked_hide|..];
    (eapply backlinked_frame; [|done]);
    auto using frame_maximize, frame_reposition, frame_dragMove, frame_dragEnd,
      frame_root_mousemove, frame_root_mousedown_resize, frame_viewport_resize.
Qed.

Lemma backlinked_reachable d ops : fresh_dom d → backlinked (run_ops ops (new_page d)).
Proof.
  intros Hd.
  assert (backlinked (new_page d)) as H0 by (intros e r; simpl; by rewrite Hd).
  revert H0. generalize (new_page d). induction ops as [|o ops IH]; intros s Hb; [done|].
  simpl. by apply IH, backlinked_apply_op.
Qed.

(** ** [getWindowById] *)

Lemma find_seq (P : nat → bool) (a n : nat) :
  match List.find P (seq a n) with
  | Some r => (a ≤ r < a + n)%nat ∧ P r = true ∧ ∀ r', (a ≤ r' < r)%nat → P r' = false
  | None => ∀ r', (a ≤ r' < a + n)%nat → P r' = false
  end.
Proof.
  revert a. induction n as [|n IH]; intros a; simpl; [intros; lia|].
  destruct (P a) eqn:Pa.
  - split; [lia|]. split; [done|]. intros; lia.
  - specialize (IH (S a)). destruct (List.find P (seq (S a) n)) as [r|].
    + destruct IH as (H1 & H2 & H3). split; [lia|]. split; [done|].
      intros r' Hr'. destruct (decide (r' = a)) as [->|]; [done|]. apply H3. lia.
    + intros r' Hr'. destruct (decide (r' = a)) as [->|]; [done|]. apply IH. lia.
Qed.

Lemma getWindowById_spec i s :
  registered s →
  match getWindowById i s with
  | Some r =>
      ∃ w, heap s !! r = Some w ∧ id (dom s (root w)) = i
           ∧ ∀ (r' : nat) w', (r' < r)%nat → heap s !! r' = Some w' →
                              id (dom s (root w')) ≠ i
  | None => ∀ (r : nat) w, heap s !! r = Some w → id (dom s (root w)) ≠ i
  end.
Proof.
  intros [_ Hreg]. unfold getWindowById. rewrite Hreg.
  match goal with |- context [List.find ?P _] => pose proof (find_seq P 0 (length (heap s))) as H end.
  destruct (List.find _ _) as [r|].
  - destruct H as (H1 & H2 & H3). destruct (heap s !! r) as [w|] eqn:Hw; [|done].
    exists w. split; [done|]. split; [by apply bool_decide_eq_true in H2|].
    intros r' w' Hlt Hw'. specialize (H3 r' ltac:(lia)). rewrite Hw' in H3.
    by apply bool_decide_eq_false in H3.
  - intros r w Hw. specialize (H r). rewrite Hw in H.
    apply lookup_lt_Some in Hw as Hlt. specialize (H ltac:(lia)).
    by apply bool_decide_eq_false in H.
Qed.

(** X12. [getWindowById]: on every page the operations lead to, the result
    is the window created first among those whose root has the id, and
    [null] when the root of no window has it. *)
Theorem getWindowById_first d ops i :
  let s := run_ops ops (new_page d) in
  match getWindowById i s with
  | Some r =>
      ∃ w, heap s !! r = Some w ∧ id (dom s (root w)) = i
           ∧ ∀ (r' : nat) w', (r' < r)%nat → heap s !! r' = Some w' →
                              id (dom s (root w')) ≠ i
  | None => ∀ (r : nat) w, heap s !! r = Some w → id (dom s (root w)) ≠ i
  end.
Proof. intros s. apply getWindowById_spec, registered_reachable. Qed.

(** ** [hide], [show], [create] and [openWindowById] *)

(** X13. [hide()] and the close button: the root is no longer displayed
    and no window is active afterwards, whichever window was active before;
    the window stays in the collection of the host, with its geometry. *)
Theorem hide_unfocuses_all d ops (this : nat) w :
  let s := run_ops ops (new_page d) in
  let s' := hide this s in
  heap s !! this = Some w →
  style (dom s' (root w)) "display" = Some (Kw "none")
  ∧ activeWindow (host s') = None
  ∧ (∀ r, is_active s' r = false)
  ∧ heap s' = heap s
  ∧ windows (host s') = windows (host s).
Proof.
  intros s s' Hw. subst s'. unfold hide. rewrite Hw.
  set (s0 := update_elem (root w) (set_style "display" (Kw "none")) s).
  assert (inv s0) as Hinv.
  { eapply inv_frame; [by apply frame_update_style|apply inv_reachable]. }
  split. { rewrite focus_none_style. simpl. rewrite fn_lookup_alter. simpl.
           by rewrite fn_lookup_insert. }
  split; [apply activeWindow_focus|]. split.
  { intros r. destruct (is_active (focus None s0) r) eqn:E; [|done].
    by apply (is_active_after_focus s0 None r (inv_inv_upto _ _ Hinv)) in E. }
  split; [by rewrite heap_focus|by rewrite windows_focus].
Qed.

Lemma hide_unfocuses_all_witness :
  activeWindow (host demo3) = Some 2%nat
  ∧ activeWindow (host (hide 0%nat demo3)) = None
  ∧ is_active (hide 0%nat demo3) 2 = false.
Proof.
  destruct (hide_unfocuses_all demo_dom
              [OCreate (demo_layout 10 10) (Some 0%nat);
               OCreate (demo_layout 50 50) (Some 1%nat);
               OCreate (demo_layout 90 90) (Some 2%nat)]
              0%nat (mkWindow 0 0 0 "" false false None 10 10 300 200))
    as (_ & H2 & H3 & _); [vm_compute; reflexivity|].
  split; [vm_compute; reflexivity|]. split; [exact H2|exact (H3 2%nat)].
Defined.

(** X14. [show()]: the root is displayed, the window is the active one and
    the only one marked active, and it is above every other window. It
    keeps its maximized state; a window that is not maximized takes the
    size measured on the page when that has a width, and keeps its own
    otherwise. *)
Theorem show_activates d ops hr rc (this : nat) w :
  let s := run_ops ops (new_page d) in
  let s' := show hr rc this s in
  heap s !! this = Some w →
  style (dom s' (root w)) "display" = Some (Kw "block")
  ∧ activeWindow (host s') = Some this
  ∧ (∀ r, is_active s' r = true ↔ r = this)
  ∧ zIndex_of s' this = Some (Num (maxZIndex (host s) + 1))
  ∧ (∀ (r : nat) wr, r ≠ this → heap s' !! r = Some wr →
       ∃ z, zIndex_of s' r = Some (Num z) ∧ z < maxZIndex (host s) + 1)
  ∧ ∃ w', heap s' !! this = Some w' ∧ maximized w' = maximized w
          ∧ (maximized w = false → 0 < rect_width rc →
             width w' = rect_width rc ∧ height w' = rect_height rc)
          ∧ (maximized w = false → rect_width rc ≤ 0 →
             width w' = width w ∧ height w' = height w).
Proof.
  intros s s' Hw.
  pose proof (display_show hr rc this s (root w)) as Hdisp. fold s' in Hdisp.
  rewrite Hw, decide_True in Hdisp by done.
  pose proof (heap_show hr rc this s) as Hheap. fold s' in Hheap.
  assert (heap s' !! this = Some (show_this hr rc w)) as Hthis
    by (rewrite Hheap; by apply lookup_alter_this).
  pose proof (frame_show_prefix hr rc this s w) as Hf.
  assert (s' = focus (Some this)
                 (reposition hr this
                    (if rect_width rc >? 0
                     then update_window this
                            (λ w, set_height (rect_height rc) (set_width (rect_width rc) w))
                            (update_elem (root w) (set_style "display" (Kw "block")) s)
                     else update_elem (root w) (set_style "display" (Kw "block")) s))) as Es'.
  { subst s'. unfold show. by rewrite Hw. }
  revert Hf Es'. generalize (reposition hr this
                    (if rect_width rc >? 0
                     then update_window this
                            (λ w, set_height (rect_height rc) (set_width (rect_width rc) w))
                            (update_elem (root w) (set_style "display" (Kw "block")) s)
                     else update_elem (root w) (set_style "display" (Kw "block")) s)).
  intros s1 Hf Es'.
  assert (inv s1) as Hinv1 by (eapply inv_frame; [done|apply inv_reachable]).
  assert (heap s1 !! this = Some (show_this hr rc w)) as H1
    by (rewrite Es', heap_focus in Hthis; done).
  assert (root (show_this hr rc w) = root w) as Hroot.
  { unfold show_this. rewrite root_reposition_this. by destruct (rect_width rc >? 0). }
  split; [done|]. split; [rewrite Es'; apply activeWindow_focus|]. split.
  { intros r. split.
    - intros Hact. rewrite Es' in Hact.
      apply (is_active_after_focus s1 _ r (inv_inv_upto _ _ Hinv1)) in Hact. congruence.
    - intros ->. rewrite Es'. by apply (is_active_focus_self s1 this (show_this hr rc w)). }
  split.
  { unfold zIndex_of. rewrite Hthis, Es'.
    rewrite (zIndex_focus_window s1 this (show_this hr rc w)) by done.
    rewrite decide_True by done. by rewrite (frame_host _ _ Hf). }
  split.
  { intros r wr Hne Hr. unfold zIndex_of. rewrite Hr.
    rewrite Es' in Hr |- *. rewrite heap_focus in Hr.
    rewrite (zIndex_focus_window s1 this (show_this hr rc w)) by done.
    rewrite decide_False.
    - destruct (inv_z s1 Hinv1 r wr Hr) as (z & Hz & Hle). exists z. split; [done|].
      rewrite <- (frame_host _ _ Hf). lia.
    - intros E. apply Hne. symmetry.
      by apply (roots_distinct None s1 this r (show_this hr rc w) wr (inv_inv_upto _ _ Hinv1)). }
  exists (show_this hr rc w). split; [done|]. unfold show_this.
  split. { rewrite maximized_reposition_this. by destruct (rect_width rc >? 0). }
  split.
  - intros Hm Hpos. assert ((rect_width rc >? 0) = true) as -> by lia.
    by destruct (reposition_this_normal hr
                   (set_height (rect_height rc) (set_width (rect_width rc) w)) Hm)
      as (_ & -> & -> & _).
  - intros Hm Hpos. assert ((rect_width rc >? 0) = false) as -> by lia.
    by destruct (reposition_this_normal hr w Hm) as (_ & -> & -> & _).
Qed.

Lemma show_activates_witness :
  let s' := show demo_host (mkRect 0 0 0 0) 0%nat demo3 in
  activeWindow (host s') = Some 0%nat ∧ zIndex_of s' 0 = Some (Num 1004).
Proof.
  destruct (show_activates demo_dom
              [OCreate (demo_layout 10 10) (Some 0%nat);
               OCreate (demo_layout 50 50) (Some 1%nat);
               OCreate (demo_layout 90 90) (Some 2%nat)]
              demo_host (mkRect 0 0 0 0) 0%nat
              (mkWindow 0 0 0 "" false false None 10 10 300 200))
    as (_ & H2 & _ & H4 & _); [vm_compute; reflexivity|].
  split; [exact H2|exact H4].
Defined.

(** The window [create] constructs is the active one, with the next
    stacking value. *)
Lemma create_fresh_active L el s :
  let r := length (heap s) in
  let s' := (create L (Some el) s).2 in
  csWindow (dom s el) = None →
  heap s' !! r = Some (new_window_this L el)
  ∧ activeWindow (host s') = Some r
  ∧ zIndex_of s' r = Some (Num (maxZIndex (host s) + 1)).
Proof.
  intros r s' Hel.
  pose proof (heap_create_fresh L el s Hel) as Hheap. fold s' in Hheap.
  assert (heap s' !! r = Some (new_window_this L el)) as Hr.
  { rewrite Hheap, lookup_app_r by (subst r; lia). subst r. by rewrite Nat.sub_diag. }
  split; [done|]. split.
  - subst s'. unfold create. rewrite Hel. unfold new_Window. cbv zeta. simpl.
    apply activeWindow_focus.
  - unfold zIndex_of. rewrite Hr. revert Hr. subst s'.
    unfold create. rewrite Hel. unfold new_Window. cbv zeta. simpl. unfold window_focus.
    fold r. rewrite heap_focus. intros Hr.
    rewrite (zIndex_focus_window _ r (new_window_this L el)) by done.
    rewrite decide_True by done. simpl.
    by rewrite (frame_host _ _ (frame_init L r _)).
Qed.

(** X15. [create] on an element that has no window yet constructs one,
    puts it last in the collection of the host and makes it the active
    window, above the windows there were. The window is measured on the
    page when the element has a width there; otherwise it takes the
    computed size, or 300 by 200, and is centered in the root. Its position
    is never negative, and it is neither maximized nor clamped to the
    root. *)
Theorem create_constructs L el s :
  let r := length (heap s) in
  let s' := (create L (Some el) s).2 in
  csWindow (dom s el) = None →
  (create L (Some el) s).1 = Some r
  ∧ windows (host s') = windows (host s) ++ [r]
  ∧ csWindow (dom s' el) = Some r
  ∧ activeWindow (host s') = Some r
  ∧ zIndex_of s' r = Some (Num (maxZIndex (host s) + 1))
  ∧ ∃ w', heap s' = heap s ++ [w'] ∧ root w' = el
          ∧ maximized w' = false ∧ resizing w' = false
          ∧ 0 ≤ x w' ∧ 0 ≤ y w'
          ∧ (0 < rect_width (rect L) →
             geometry w' = (Z.max 0 (rect_left (rect L) - rect_left (hostRect L)),
                            Z.max 0 (rect_top (rect L) - rect_top (hostRect L)),
                            rect_width (rect L), rect_height (rect L)))
          ∧ (rect_width (rect L) ≤ 0 →
             width w' = parseInt_or (cs_width L) 300
             ∧ height w' = parseInt_or (cs_height L) 200
             ∧ (width w' ≤ rect_width (hostRect L) →
                2 * x w' - 1 ≤ rect_width (hostRect L) - width w' ≤ 2 * x w')
             ∧ (height w' ≤ rect_height (hostRect L) →
                2 * y w' - 1 ≤ rect_height (hostRect L) - height w' ≤ 2 * y w')).
Proof.
  intros r s' Hel.
  destruct (create_fresh L el s Hel) as (H1 & H2 & H3 & H4).
  pose proof (heap_create_fresh L el s Hel) as Hheap. fold s' in H2, H3, H4, Hheap.
  split; [done|]. split; [done|]. split; [done|].
  destruct (create_fresh_active L el s Hel) as (_ & Hact & Hz).
  split; [done|]. split; [done|].
  exists (new_window_this L el). split; [done|].
  split; [apply root_new_window_this|].
  unfold new_window_this, init_this, round_half.
  destruct (Z.gtb_spec (rect_width (rect L)) 0) as [Hpos|Hneg]; simpl.
  - repeat split; try done; lia.
  - repeat split; try done; try lia; Z.div_mod_to_equations; lia.
Qed.

Lemma create_constructs_witness :
  let s' := (create (mkLayout demo_host (mkRect 0 0 0 0) (Some 401) None) (Some 7%nat) demo3).2 in
  activeWindow (host s') = Some 3%nat
  ∧ geometry <$> (heap s' !! 3%nat) = Some (200, 200, 401, 200).
Proof.
  destruct (create_constructs (mkLayout demo_host (mkRect 0 0 0 0) (Some 401) None)
              7%nat demo3)
    as (_ & _ & _ & H4 & _); [reflexivity|].
  split; [exact H4|]. vm_compute. reflexivity.
Defined.

(** The active window, brought to the front. *)
Lemma bringToFront_active_on_top s (r : nat) w :
  inv s → heap s !! r = Some w → activeWindow (host s) = Some r →
  let s' := bringToFront (Some r) s in
  activeWindow (host s') = Some r
  ∧ heap s' = heap s
  ∧ (∀ r', is_active s' r' = true ↔ r' = r)
  ∧ zIndex_of s' r = Some (Num (maxZIndex (host s')))
  ∧ (∀ (r' : nat) w', r' ≠ r → heap s' !! r' = Some w' →
       ∃ z, zIndex_of s' r' = Some (Num z) ∧ z < maxZIndex (host s')).
Proof.
  intros Hinv Hr Hact s'.
  pose proof (inv_bringToFront (Some r) s Hinv) as Hinv'. fold s' in Hinv'.
  pose proof (host_bringToFront r w s Hr) as Hhost. fold s' in Hhost.
  pose proof (heap_bringToFront (Some r) s) as Hheap. fold s' in Hheap.
  assert (activeWindow (host s') = Some r) as Hact' by (by rewrite Hhost).
  split; [done|]. split; [done|]. split.
  { intros r'. split.
    - intros H. apply (inv_single s' Hinv') in H. congruence.
    - intros ->. apply (inv_marked s' Hinv' r w); [done|by rewrite Hheap]. }
  split.
  { subst s'. rewrite (zIndex_of_bringToFront r w s Hr). by rewrite Hhost. }
  intros r' w' Hne Hr'. unfold zIndex_of. rewrite Hr'. rewrite Hheap in Hr'.
  subst s'. rewrite (zIndex_bringToFront r w s) by done.
  rewrite decide_False.
  - destruct (inv_z s Hinv r' w' Hr') as (z & Hz & Hle). exists z. split; [done|].
    rewrite Hhost. simpl. lia.
  - intros E. apply Hne. symmetry.
    by apply (roots_distinct None s r r' w w' (inv_inv_upto _ _ Hinv)).
Qed.

Lemma id_writes ps s s' e : writes ps s s' → id (dom s' e) = id (dom s e).
Proof. intros H. apply (touched_id ps), H. Qed.

(** X16. [openWindowById], on a page that was loaded without windows: the
    element is displayed; a window whose root has the element's id, the
    window of the element itself unless an earlier window has the same id,
    is the active window, the only one marked active, and is above every
    other window; at most one window is constructed. *)
Theorem openWindowById_opens d ops L el :
  let s := run_ops ops (new_page d) in
  let s' := openWindowById L el s in
  fresh_dom d →
  style (dom s' el) "display" = Some (Kw "block")
  ∧ (length (heap s') ≤ S (length (heap s)))%nat
  ∧ ∃ (r : nat) w,
      activeWindow (host s') = Some r
      ∧ heap s' !! r = Some w
      ∧ id (dom s' (root w)) = id (dom s el)
      ∧ (∀ wel : nat, csWindow (dom s' el) = Some wel → (r ≤ wel)%nat)
      ∧ (∀ r', is_active s' r' = true ↔ r' = r)
      ∧ zIndex_of s' r = Some (Num (maxZIndex (host s')))
      ∧ (∀ (r' : nat) w', r' ≠ r → heap s' !! r' = Some w' →
           ∃ z, zIndex_of s' r' = Some (Num z) ∧ z < maxZIndex (host s')).
Proof.
  intros s s' Hd.
  pose proof (inv_reachable d ops) as Hinv. fold s in Hinv.
  pose proof (registered_reachable d ops) as Hreg. fold s in Hreg.
  pose proof (backlinked_reachable d ops Hd) as Hback. fold s in Hback.
  pose proof (backlinked_openWindowById L el s Hback) as Hback'. fold s' in Hback'.
  set (s0 := update_elem el (set_style "display" (Kw "block")) s).
  assert (frame s s0) as Hf0 by (by apply frame_update_style).
  assert (inv s0) as Hinv0 by (by apply (inv_frame s)).
  assert (registered s0) as Hreg0
    by (eapply registered_same; [by apply same_registry_frame|done]).
  assert (backlinked s0) as Hback0 by (by apply (backlinked_frame s)).
  assert (style (dom s0 el) "display" = Some (Kw "block")) as Hd0.
  { simpl. rewrite fn_lookup_alter. simpl. by rewrite fn_lookup_insert. }
  assert (id (dom s0 el) = id (dom s el)) as Hid0.
  { simpl. by rewrite fn_lookup_alter. }
  assert (s' = match getWindowById (id (dom s0 el)) s0 with
               | Some inst => bringToFront (Some inst) (show (hostRect L) (rect L) inst s0)
               | None => let '(newInst, s1) := create L (Some el) s0 in bringToFront newInst s1
               end) as Es' by done.
  pose proof (getWindowById_spec (id (dom s0 el)) s0 Hreg0) as Hget.
  destruct (getWindowById (id (dom s0 el)) s0) as [inst|].
  - destruct Hget as (w & Hw & Hidw & Hfirst).
    set (s1 := show (hostRect L) (rect L) inst s0) in *.
    assert (inv s1) as Hinv1 by (by apply inv_show).
    assert (heap s1 !! inst = Some (show_this (hostRect L) (rect L) w)) as H1.
    { subst s1. rewrite heap_show. by apply lookup_alter_this. }
    assert (root (show_this (hostRect L) (rect L) w) = root w) as Hroot.
    { unfold show_this. rewrite root_reposition_this.
      by destruct (rect_width (rect L) >? 0). }
    assert (activeWindow (host s1) = Some inst) as Hact1.
    { subst s1. unfold show. rewrite Hw. cbv zeta. apply activeWindow_focus. }
    destruct (bringToFront_active_on_top s1 inst _ Hinv1 H1 Hact1)
      as (A1 & A2 & A3 & A4 & A5).
    rewrite <- Es' in A1, A2, A3, A4, A5.
    split.
    { rewrite Es', display_bringToFront. subst s1. rewrite display_show, Hw.
      by case_decide. }
    split.
    { rewrite A2. subst s1. rewrite heap_show, length_alter.
      rewrite (frame_length _ _ Hf0). lia. }
    exists inst, (show_this (hostRect L) (rect L) w).
    split; [done|]. split; [by rewrite A2|]. split.
    { rewrite Hroot, <- Hid0, <- Hidw.
      apply (id_writes ("display" :: window_props)).
      rewrite Es'. eapply writes_trans; [apply writes_show|].
      apply writes_with_display, writes_bringToFront. }
    split; [|done].
    intros wel Hwel. destruct (Hback' el wel Hwel) as (ww & Hww & Hrootw).
    destruct (decide (inst ≤ wel)%nat) as [|Hgt]; [done|]. exfalso.
    rewrite A2 in Hww. subst s1. rewrite heap_show in Hww.
    rewrite list_lookup_alter_ne in Hww by lia.
    apply (Hfirst wel ww); [lia|done|]. by rewrite Hrootw.
  - assert (csWindow (dom s0 el) = None) as Hel.
    { destruct (csWindow (dom s0 el)) as [wel|] eqn:E; [|done]. exfalso.
      destruct (Hback0 el wel E) as (ww & Hww & Hrootw).
      apply (Hget wel ww Hww). by rewrite Hrootw. }
    destruct (create_fresh L el s0 Hel) as (C1 & C2 & C3 & C4).
    pose proof (heap_create_fresh L el s0 Hel) as Hheap.
    pose proof (inv_create L (Some el) s0 Hinv0) as Hinv1.
    pose proof (display_create L (Some el) s0 el) as Hdisp.
    pose proof (writes_create L (Some el) s0) as Hwr.
    assert (activeWindow (host (create L (Some el) s0).2) = Some (length (heap s0))) as Hact1.
    { unfold create. rewrite Hel. unfold new_Window. cbv zeta. simpl.
      apply activeWindow_focus. }
    destruct (create L (Some el) s0) as [newInst s1]. cbn [fst snd] in *.
    subst newInst. cbv beta iota in Es'.
    assert (heap s1 !! length (heap s0) = Some (new_window_this L el)) as H1.
    { rewrite Hheap, lookup_app_r by lia. by rewrite Nat.sub_diag. }
    destruct (bringToFront_active_on_top s1 _ _ Hinv1 H1 Hact1)
      as (A1 & A2 & A3 & A4 & A5).
    rewrite <- Es' in A1, A2, A3, A4, A5.
    split; [by rewrite Es', display_bringToFront, Hdisp|].
    split.
    { rewrite A2, C4, (frame_length _ _ Hf0). lia. }
    exists (length (heap s0)), (new_window_this L el).
    split; [done|]. split; [by rewrite A2|]. split.
    { rewrite root_new_window_this, <- Hid0.
      rewrite Es'. rewrite (id_writes _ _ _ _ (writes_bringToFront _ s1)).
      apply (id_writes _ _ _ _ Hwr). }
    split; [|done].
    intros wel. rewrite Es', csWindow_bringToFront, C2. by intros [= <-].
Qed.

Lemma openWindowById_opens_witness :
  let s' := openWindowById (demo_layout 10 10) 0%nat demo3 in
  style (dom s' 0%nat) "display" = Some (Kw "block")
  ∧ (length (heap s') ≤ 4)%nat.
Proof.
  destruct (openWindowById_opens demo_dom
              [OCreate (demo_layout 10 10) (Some 0%nat);
               OCreate (demo_layout 50 50) (Some 1%nat);
               OCreate (demo_layout 90 90) (Some 2%nat)]
              (demo_layout 10 10) 0%nat)
    as (H1 & H2 & _); [intros [|[|e]]; reflexivity|].
  split; [exact H1|exact H2].
Defined.

(** ** The windows of the page as it is loaded *)

Lemma zIndex_create_fresh_ne L el s e :
  csWindow (dom s el) = None → e ≠ el →
  style (dom (create L (Some el) s).2 e) "zIndex" = style (dom s e) "zIndex".
Proof.
  intros Hel Hne. unfold create. rewrite Hel. unfold new_Window. cbv zeta. simpl.
  unfold window_focus.
  set (sB := update_elem el (set_csWindow (Some (length (heap s))))
               (set_heap (heap s ++ [mkWindow el 0 0 "" false false None 0 0 300 200]) s)).
  set (s1 := init L (length (heap s)) sB).
  assert (heap s1 !! length (heap s) = Some (new_window_this L el)) as H1.
  { subst s1. rewrite heap_init. subst sB. simpl.
    rewrite list_lookup_alter_eq, lookup_app_r, Nat.sub_diag by lia. done. }
  rewrite (zIndex_focus_window _ (length (heap s)) (new_window_this L el)) by done.
  rewrite root_new_window_this, decide_False by done. simpl.
  rewrite (frame_zIndex _ _ (frame_init L (length (heap s)) sB)). subst sB. simpl.
  by rewrite fn_lookup_alter_ne.
Qed.

Lemma create_each_cons we ws s :
  create_each (we :: ws) s = create_each ws (create (we_layout we) (Some (we_elem we)) s).2.
Proof. done. Qed.

Lemma create_each_spec ws s :
  NoDup (we_elem <$> ws) →
  (∀ we, we ∈ ws → csWindow (dom s (we_elem we)) = None) →
  let s' := create_each ws s in
  heap s' = heap s ++ ((λ we, new_window_this (we_layout we) (we_elem we)) <$> ws)
  ∧ maxZIndex (host s') = maxZIndex (host s) + Z.of_nat (length ws)
  ∧ (∀ e, e ∉ (we_elem <$> ws) →
       csWindow (dom s' e) = csWindow (dom s e)
       ∧ style (dom s' e) "zIndex" = style (dom s e) "zIndex")
  ∧ (∀ (i : nat) we, ws !! i = Some we →
       csWindow (dom s' (we_elem we)) = Some (length (heap s) + i)%nat
       ∧ style (dom s' (we_elem we)) "zIndex"
         = Some (Num (maxZIndex (host s) + Z.of_nat i + 1)))
  ∧ activeWindow (host s')
    = match ws with
      | [] => activeWindow (host s)
      | _ => Some (length (heap s) + length ws - 1)%nat
      end.
Proof.
  revert s. induction ws as [|we ws IH]; intros s Hnd Hfresh s'.
  { subst s'. simpl. rewrite app_nil_r. repeat split; try done; try lia. }
  subst s'. rewrite create_each_cons.
  rewrite fmap_cons in Hnd.
  pose proof (NoDup_cons_1_1 _ _ Hnd) as Hnotin. apply NoDup_cons_1_2 in Hnd.
  assert (csWindow (dom s (we_elem we)) = None) as Hel
    by (apply Hfresh; apply list_elem_of_here).
  destruct (create_fresh (we_layout we) (we_elem we) s Hel) as (_ & C3 & _ & _).
  destruct (create_fresh_active (we_layout we) (we_elem we) s Hel) as (_ & C4 & C5).
  pose proof (heap_create_fresh (we_layout we) (we_elem we) s Hel) as Hheap.
  assert (maxZIndex (host (create (we_layout we) (Some (we_elem we)) s).2)
          = maxZIndex (host s) + 1) as Hmax.
  { unfold create. rewrite Hel. unfold new_Window. cbv zeta. simpl. unfold window_focus.
    set (sB := update_elem (we_elem we) (set_csWindow (Some (length (heap s))))
                 (set_heap (heap s ++ [mkWindow (we_elem we) 0 0 "" false false None 0 0 300 200])
                    s)).
    rewrite (maxZIndex_focus_window (length (heap s))
               (new_window_this (we_layout we) (we_elem we))).
    - simpl. by rewrite (frame_host _ _ (frame_init _ _ sB)).
    - simpl. rewrite heap_init. subst sB. simpl.
      rewrite list_lookup_alter_eq, lookup_app_r, Nat.sub_diag by lia. done. }
  set (s1 := (create (we_layout we) (Some (we_elem we)) s).2) in *.
  assert (∀ we', we' ∈ ws → csWindow (dom s1 (we_elem we')) = None) as Hfresh1.
  { intros we' Hin. subst s1. rewrite csWindow_create_fresh by done.
    rewrite decide_False.
    - apply Hfresh. by apply list_elem_of_further.
    - intros E. apply Hnotin. rewrite <- E. by apply list_elem_of_fmap_2. }
  destruct (IH s1 Hnd Hfresh1) as (I1 & I2 & I3 & I4 & I5).
  assert (length (heap s1) = S (length (heap s))) as Hlen
    by (rewrite Hheap, length_app; simpl; lia).
  split. { rewrite I1, Hheap, <- app_assoc. done. }
  split. { rewrite I2, Hmax. simpl. lia. }
  split.
  { intros e He. rewrite fmap_cons in He. apply not_elem_of_cons in He as [Hne He].
    destruct (I3 e He) as [J1 J2]. split.
    - rewrite J1. subst s1. rewrite csWindow_create_fresh by done. by rewrite decide_False.
    - rewrite J2. subst s1. by apply zIndex_create_fresh_ne. }
  split.
  { intros i we' Hi. destruct i as [|i]; simpl in Hi.
    - injection Hi as <-. destruct (I3 (we_elem we) Hnotin) as [J1 J2].
      rewrite J1, J2, C3. split; [f_equal; lia|].
      unfold zIndex_of in C5. fold s1 in C5.
      assert (heap s1 !! length (heap s) = Some (new_window_this (we_layout we) (we_elem we)))
        as H1 by (rewrite Hheap, lookup_app_r, Nat.sub_diag by lia; done).
      rewrite H1, root_new_window_this in C5. rewrite C5. do 2 f_equal. lia.
    - destruct (I4 i we' Hi) as [J1 J2]. rewrite J1, J2, Hlen, Hmax. split; f_equal.
      + lia.
      + f_equal. lia. }
  rewrite I5, Hlen. destruct ws as [|we2 ws]; simpl.
  - rewrite C4. f_equal. lia.
  - f_equal. lia.
Qed.

Lemma frame_set_display_hidden v ws s : frame s (set_display_hidden v ws s).
Proof.
  unfold set_display_hidden.
  assert (∀ s0, frame s s0 →
     frame s (fold_left
                (λ s we, if we_hidden we
                         then update_elem (we_elem we) (set_style "display" (Kw v)) s
                         else s) ws s0)) as H.
  { induction ws as [|we ws IH]; intros s0 H0; [done|].
    simpl. apply IH. destruct (we_hidden we); [|done].
    eapply frame_trans; [done|by apply frame_update_style]. }
  apply H, frame_refl.
Qed.

Lemma heap_set_display_hidden v ws s : heap (set_display_hidden v ws s) = heap s.
Proof.
  unfold set_display_hidden. revert s. induction ws as [|we ws IH]; intros s; [done|].
  simpl. rewrite IH. by destruct (we_hidden we).
Qed.

Lemma display_set_hidden v ws s we :
  NoDup (we_elem <$> ws) → we ∈ ws → we_hidden we = true →
  style (dom (set_display_hidden v ws s) (we_elem we)) "display" = Some (Kw v).
Proof.
  unfold set_display_hidden. revert s. induction ws as [|we0 ws IH]; intros s Hnd Hin Hh.
  { by apply elem_of_nil in Hin. }
  rewrite fmap_cons in Hnd.
  pose proof (NoDup_cons_1_1 _ _ Hnd) as Hnotin. apply NoDup_cons_1_2 in Hnd.
  apply elem_of_cons in Hin as [->|Hin]; simpl.
  - rewrite Hh. clear IH.
    assert (∀ s0, style (dom s0 (we_elem we0)) "display" = Some (Kw v) →
       style (dom (fold_left
                (λ s we, if we_hidden we
                         then update_elem (we_elem we) (set_style "display" (Kw v)) s
                         else s) ws s0) (we_elem we0)) "display" = Some (Kw v)) as H.
    { clear. induction ws as [|we ws IH]; intros s0 H0; [done|].
      simpl. apply IH. destruct (we_hidden we); [|done]. simpl.
      destruct (decide (we_elem we = we_elem we0)) as [->|Hne].
      - rewrite fn_lookup_alter. simpl. by rewrite fn_lookup_insert.
      - by rewrite fn_lookup_alter_ne. }
    apply H. simpl. rewrite fn_lookup_alter. simpl. by rewrite fn_lookup_insert.
  - by apply IH.
Qed.

Lemma new_page_set_display_hidden v ws d :
  ∃ d', set_display_hidden v ws (new_page d) = new_page d'
        ∧ ∀ e, csWindow (d' e) = csWindow (d e).
Proof.
  unfold set_display_hidden. revert d. induction ws as [|we ws IH]; intros d.
  { by exists d. }
  simpl. destruct (we_hidden we); [|apply IH].
  destruct (IH (alter (set_style "display" (Kw v)) (we_elem we) d)) as (d' & E & Hc).
  exists d'. split; [done|]. intros e. rewrite Hc.
  destruct (decide (we_elem we = e)) as [->|Hne].
  - by rewrite fn_lookup_alter.
  - by rewrite fn_lookup_alter_ne.
Qed.

Lemma create_each_run_ops ws s :
  create_each ws s = run_ops ((λ we, OCreate (we_layout we) (Some (we_elem we))) <$> ws) s.
Proof.
  revert s. induction ws as [|we ws IH]; intros s; [done|]. simpl. apply IH.
Qed.

(** X17. The windows of the page as it is loaded. The elements of class
    [window] are different elements, and none has a window yet. Then each
    gets its window, in the order of the document: the windows are stacked
    in that order from 1001 on, and the last element of the document has
    the active window, the only one marked active, also when that element
    is hidden; the elements that were hidden are hidden again. *)
Theorem load_windows_in_order ws d :
  let s := load_windows ws d in
  NoDup (we_elem <$> ws) → fresh_dom d →
  heap s = (λ we, new_window_this (we_layout we) (we_elem we)) <$> ws
  ∧ windows (host s) = seq 0 (length ws)
  ∧ (∀ (i : nat) we, ws !! i = Some we →
       csWindow (dom s (we_elem we)) = Some i
       ∧ zIndex_of s i = Some (Num (1001 + Z.of_nat i))
       ∧ (we_hidden we = true → style (dom s (we_elem we)) "display" = Some (Kw "none")))
  ∧ activeWindow (host s) = match ws with [] => None | _ => Some (length ws - 1)%nat end
  ∧ (∀ i : nat, is_active s i = true ↔ S i = length ws).
Proof.
  intros s Hnd Hd. subst s. unfold load_windows. cbv zeta.
  destruct (new_page_set_display_hidden "block" ws d) as (d1 & -> & Hc1).
  set (s2 := create_each ws (new_page d1)).
  pose proof (frame_set_display_hidden "none" ws s2) as Hf.
  pose proof (heap_set_display_hidden "none" ws s2) as Hheap.
  assert (inv s2) as Hinv2 by (subst s2; rewrite create_each_run_ops; apply inv_reachable).
  assert (registered s2) as [_ Hreg2]
    by (subst s2; rewrite create_each_run_ops; apply registered_reachable).
  destruct (create_each_spec ws (new_page d1) Hnd) as (I1 & I2 & I3 & I4 & I5).
  { intros we _. simpl. by rewrite Hc1. }
  fold s2 in I1, I2, I3, I4, I5. simpl in I1, I2, I4, I5.
  pose proof (inv_frame _ _ Hf Hinv2) as Hinv.
  set (s := set_display_hidden "none" ws s2) in *.
  assert (length (heap s2) = length ws) as Hlen by (by rewrite I1, length_fmap).
  split; [by rewrite Hheap|].
  split; [by rewrite (frame_host _ _ Hf), Hreg2, Hlen|].
  split.
  { intros i we Hi. destruct (I4 i we Hi) as [J1 J2].
    split; [by rewrite (frame_csWindow _ _ Hf)|]. split.
    - unfold zIndex_of. rewrite Hheap, I1, list_lookup_fmap, Hi. simpl.
      rewrite root_new_window_this, (frame_zIndex _ _ Hf), J2. do 2 f_equal. lia.
    - intros Hh. subst s. apply display_set_hidden; [done| |done].
      by apply list_elem_of_lookup_2 in Hi. }
  assert (activeWindow (host s)
          = match ws with [] => None | _ => Some (length ws - 1)%nat end) as Hact.
  { rewrite (frame_host _ _ Hf), I5. by destruct ws. }
  split; [done|].
  intros i. split.
  - intros Hi. apply (inv_single s Hinv) in Hi. rewrite Hact in Hi.
    destruct ws as [|we ws']; [done|]. injection Hi as <-. simpl. lia.
  - intros Hi.
    assert (is_Some (heap s !! i)) as [w Hw].
    { apply lookup_lt_is_Some. rewrite Hheap, Hlen. lia. }
    apply (inv_marked s Hinv i w); [|done]. rewrite Hact.
    destruct ws as [|we ws']; [done|]. f_equal. simpl in *. lia.
Qed.

Lemma load_windows_in_order_witness :
  let s := load_windows [mkWindowElement 0 false (demo_layout 10 10);
                         mkWindowElement 1 true (demo_layout 50 50)] demo_dom in
  activeWindow (host s) = Some 1%nat
  ∧ style (dom s 1%nat) "display" = Some (Kw "none")
  ∧ is_active s 1 = true.
Proof.
  destruct (load_windows_in_order
              [mkWindowElement 0 false (demo_layout 10 10);
               mkWindowElement 1 true (demo_layout 50 50)] demo_dom)
    as (_ & _ & H3 & H4 & H5).
  - apply NoDup_cons_2; [|apply NoDup_singleton].
    intros Hin. apply list_elem_of_singleton in Hin. discriminate.
  - intros [|[|e]]; reflexivity.
  - split; [exact H4|]. split.
    + destruct (H3 1%nat (mkWindowElement 1 true (demo_layout 50 50)) eq_refl)
        as (_ & _ & Hh). exact (Hh eq_refl).
    + apply H5. reflexivity.
Defined.

End WSMore.

(* ====================================================================== *)
(** * More on the drag singleton *)
(* ====================================================================== *)

Module DragMore.
Import Drag DragTotals DragProps.

Section Controller.

Context {Obj World Err : Type}.
Variable dragMove : Obj → Z → Z → MouseEvent → World → World * option Err.
Variable dragEnd : Obj → World → World * option Err.

Abbreviation Env := (@Env Obj World Err).
Abbreviation step := (step dragMove dragEnd).
Abbreviation run := (run dragMove dragEnd).

Implicit Types (env : Env) (e m : MouseEvent) (o : Obj).

Lemma total_dx_app (l1 l2 : list (@Effect Obj Err)) :
  total_dx (l1 ++ l2) = total_dx l1 + total_dx l2.
Proof. induction l1 as [|a l1 IH]; simpl; [done|]. rewrite IH. lia. Qed.

Lemma total_dy_app (l1 l2 : list (@Effect Obj Err)) :
  total_dy (l1 ++ l2) = total_dy l1 + total_dy l2.
Proof. induction l1 as [|a l1 IH]; simpl; [done|]. rewrite IH. lia. Qed.

Lemma total_dx_caught msg (r : option Err) : total_dx (Obj := Obj) (caught msg r) = 0.
Proof. by destruct r. Qed.

Lemma total_dy_caught msg (r : option Err) : total_dy (Obj := Obj) (caught msg r) = 0.
Proof. by destruct r. Qed.

(** One move of a tracked target: what was passed on and the recorded
    point change by the same amount. *)
Lemma step_move_totals o m env :
  object env = Some o →
  let env' := step env (MouseMove m) in
  object env' = Some o
  ∧ total_dx (log env') - x env' = total_dx (log env) - x env
  ∧ total_dy (log env') - y env' = total_dy (log env) - y env
  ∧ (_threshold env' = 0 → x env' = clientX m ∧ y env' = clientY m).
Proof.
  intros Ho env'. subst env'.
  destruct (pending_or_dispatches env m) as [Hp|Hd].
  - rewrite (step_pending dragMove dragEnd o) by done.
    repeat split; try done; destruct Hp as [Hne _]; intros; done.
  - rewrite (step_dispatch dragMove dragEnd o) by done. simpl.
    rewrite total_dx_app, total_dy_app. simpl.
    rewrite total_dx_caught, total_dy_caught. repeat split; try done; lia.
Qed.

Lemma run_moves_totals o ms env :
  object env = Some o →
  let env' := run (map MouseMove ms) env in
  object env' = Some o
  ∧ total_dx (log env') - x env' = total_dx (log env) - x env
  ∧ total_dy (log env') - y env' = total_dy (log env) - y env.
Proof.
  revert env. induction ms as [|m ms IH]; intros env Ho; [done|].
  cbn [map]. rewrite run_cons.
  destruct (step_move_totals o m env Ho) as (H1 & H2 & H3 & _).
  destruct (IH _ H1) as (I1 & I2 & I3). cbv zeta. split; [done|]. split; lia.
Qed.

(** X18. In a drag session, whatever the threshold and wherever the
    pointer goes, the distances passed to [dragMove] add up to the way from
    the point of the press to the recorded point; once the threshold is out
    of the way, the recorded point is the pointer of the last move. So no
    part of the movement is lost, the part below the threshold included. *)
Theorem deltas_add_up o e0 T ms env :
  let env' := run (Start o e0 T :: map MouseMove ms) env in
  total_dx (log env') = total_dx (log env) + (x env' - clientX e0)
  ∧ total_dy (log env') = total_dy (log env) + (y env' - clientY e0)
  ∧ (_threshold env' = 0 →
     x env' = clientX (List.last ms e0) ∧ y env' = clientY (List.last ms e0)).
Proof.
  intros env'. subst env'. rewrite run_cons, step_start.
  set (env1 := mkEnv (Some o) (clientX e0) (clientY e0) (T * T) (world env)
                 (log env ++ [EPreventDefault e0])).
  destruct (run_moves_totals o ms env1 eq_refl) as (H1 & H2 & H3).
  simpl in H2, H3. rewrite total_dx_app in H2. rewrite total_dy_app in H3.
  simpl in H2, H3. split; [lia|]. split; [lia|].
  clear H1 H2 H3. destruct ms as [|m ms0 _] using rev_ind; [done|].
  rewrite last_last. rewrite map_app, run_app. cbn [map].
  rewrite run_cons. simpl. intros Ht.
  destruct (run_moves_totals o ms0 env1 eq_refl) as (J1 & _).
  by destruct (step_move_totals o m _ J1) as (_ & _ & _ & J4); apply J4.
Qed.

(** X19. While no target is tracked, moves and releases of the pointer do
    nothing: no call is made and no variable changes. *)
Theorem idle_ignores_pointer evs env :
  object env = None → Forall (λ ev, is_start ev = false) evs → run evs env = env.
Proof.
  intros Ho Hevs. induction Hevs as [|ev evs Hev _ IH]; [done|].
  rewrite run_cons. destruct ev as [o e T|e|]; [done|..].
  - unfold Drag.step. rewrite mousemove_idle by done. apply IH.
  - unfold Drag.step. rewrite mouseup_idle by done. apply IH.
Qed.

(** Without a new [start], every call goes to the tracked target. *)
Lemma run_calls_target o evs env :
  object env = Some o ∨ object env = None →
  Forall (λ ev, is_start ev = false) evs →
  let env' := run evs env in
  (object env' = Some o ∨ object env' = None)
  ∧ ∃ l, log env' = log env ++ l
         ∧ Forall (λ ev, target_of ev = None ∨ target_of ev = Some o) l.
Proof.
  intros Ho Hevs. revert env Ho.
  induction Hevs as [|ev evs Hev _ IH]; intros env Ho.
  { split; [done|]. exists []. by rewrite app_nil_r. }
  cbv zeta. rewrite run_cons.
  assert ((object (step env ev) = Some o ∨ object (step env ev) = None)
          ∧ ∃ l, log (step env ev) = log env ++ l
                 ∧ Forall (λ ev, target_of ev = None ∨ target_of ev = Some o) l) as [H1 H2].
  { destruct Ho as [Ho|Ho].
    - destruct ev as [o' e T|e|]; [done|..].
      + destruct (pending_or_dispatches env e) as [Hp|Hd].
        * rewrite (step_pending dragMove dragEnd o) by done.
          split; [by left|]. exists []. by rewrite app_nil_r.
        * rewrite (step_dispatch dragMove dragEnd o) by done. simpl.
          split; [by left|]. eexists. split; [done|].
          constructor; [by right|]. destruct (dragMove _ _ _ _ _).2; repeat constructor.
      + unfold Drag.step. destruct (Z.eq_dec (_threshold env) 0) as [Ht|Ht].
        * rewrite (mouseup_dragged dragMove dragEnd o) by done. simpl.
          split; [by right|]. eexists. split; [done|].
          constructor; [by right|]. destruct (dragEnd _ _).2; repeat constructor.
        * rewrite (mouseup_not_dragged dragMove dragEnd o) by done. simpl.
          split; [by right|]. exists []. by rewrite app_nil_r.
    - assert (step env ev = env) as ->.
      { destruct ev as [o' e T|e|]; [done|..]; unfold Drag.step.
        - by rewrite mousemove_idle.
        - by rewrite mouseup_idle. }
      split; [by right|]. exists []. by rewrite app_nil_r. }
  destruct (IH _ H1) as (I1 & l2 & I2 & I3). destruct H2 as (l1 & E1 & F1).
  split; [done|]. exists (l1 ++ l2). rewrite I2, E1, app_assoc. split; [done|].
  by apply Forall_app.
Qed.

(** X20. A [start] while another target is tracked drops that target: up
    to the next [start], every call goes to the new target, and the old one
    gets no [dragEnd]. *)
Theorem start_drops_previous_target o o' e T evs env :
  let env' := run (Start o' e T :: evs) env in
  object env = Some o → Forall (λ ev, is_start ev = false) evs →
  ∃ l, log env' = log env ++ EPreventDefault e :: l
       ∧ Forall (λ ev, target_of ev = None ∨ target_of ev = Some o') l
       ∧ (o ≠ o' → ECallDragEnd o ∉ l).
Proof.
  intros env' _ Hevs. subst env'. rewrite run_cons, step_start.
  destruct (run_calls_target o' evs
              (mkEnv (Some o') (clientX e) (clientY e) (T * T) (world env)
                 (log env ++ [EPreventDefault e])))
    as (_ & l & E & F); [by left|done|].
  exists l. cbv zeta in E. simpl in E. rewrite E, <- app_assoc. split; [done|].
  split; [done|]. intros Hne Hin.
  rewrite Forall_forall in F. apply list_elem_of_In in Hin.
  destruct (F _ Hin) as [H|H]; simpl in H; congruence.
Qed.

End Controller.

Lemma idle_ignores_pointer_witness :
  run quiet_move quiet_end [MouseMove (mkMouseEvent 3 4); MouseUp] idle = idle.
Proof.
  apply (idle_ignores_pointer quiet_move quiet_end); [reflexivity|].
  repeat constructor.
Defined.

Lemma start_drops_previous_target_witness :
  let env := run numbered_move numbered_end [Start 1%nat (mkMouseEvent 0 0) 0]
               (mkEnv None 0 0 0 tt []) in
  ∃ l, log (run numbered_move numbered_end
              [Start 2%nat (mkMouseEvent 5 5) 0; MouseMove (mkMouseEvent 6 5); MouseUp] env)
       = log env ++ EPreventDefault (mkMouseEvent 5 5) :: l
       ∧ ECallDragEnd 1%nat ∉ l.
Proof.
  destruct (start_drops_previous_target numbered_move numbered_end
              1%nat 2%nat (mkMouseEvent 5 5) 0
              [MouseMove (mkMouseEvent 6 5); MouseUp]
              (run numbered_move numbered_end
                 [Start 1%nat (mkMouseEvent 0 0) 0] (mkEnv None 0 0 0 tt [])))
    as (l & H1 & _ & H3); [reflexivity|repeat constructor|].
  exists l. split; [exact H1|]. apply H3. discriminate.
Defined.

End DragMore.

(* ====================================================================== *)
(** * Dragging a window by its title *)
(* ====================================================================== *)

Module PageMore.
Import WS Fields Page PageFrame WSProps WSMore.

Lemma last_cons_default {A} (a d : A) (l : list A) : List.last (a :: l) d = List.last l a.
Proof.
  revert a d. induction l as [|b l IH]; intros a d; [done|].
  change (List.last (a :: b :: l) d) with (List.last (b :: l) d).
  by rewrite (IH b d), (IH b a).
Qed.

Lemma title_mousedown_spec (this : nat) w e0 (env : PageEnv) :
  heap (Drag.world env) !! this = Some w →
  title_mousedown this e0 env
  = Drag.mkEnv (Some this) (clientX e0) (clientY e0)
      (title_threshold w * title_threshold w)
      (window_focus this (Drag.world env))
      (Drag.log env ++ [Drag.EPreventDefault e0]).
Proof.
  intros Hw. unfold title_mousedown. rewrite Hw. cbv zeta.
  change (Drag.start this e0 (title_threshold w) env)
    with (Drag.handle (window_dragMove demo_host) (window_dragEnd demo_host)
            (Drag.Start this e0 (title_threshold w)) env).
  by rewrite DragProps.start_spec.
Qed.

(** One move of a window that is dragged by its title, away from the top
    edge of the root. *)
Lemma mouse_move_translates hr (this : nat) w m (env : PageEnv) :
  Drag.object env = Some this → Drag._threshold env = 0 →
  heap (Drag.world env) !! this = Some w → maximized w = false → resizing w = false →
  5 ≤ clientY m - rect_top hr →
  let env' := mouse_move hr m env in
  Drag.object env' = Some this ∧ Drag._threshold env' = 0
  ∧ Drag.x env' = clientX m ∧ Drag.y env' = clientY m
  ∧ ∃ w', heap (Drag.world env') !! this = Some w'
          ∧ maximized w' = false ∧ resizing w' = false
          ∧ geometry w' = (x w + (clientX m - Drag.x env), y w + (clientY m - Drag.y env),
                           width w, height w).
Proof.
  intros Ho Ht Hw Hm Hr Hy env'. subst env'. unfold mouse_move.
  rewrite (DragProps.step_dispatch _ _ this) by (done || by left). simpl.
  repeat split; try done.
  eexists. split.
  { rewrite heap_dragMove. by apply lookup_alter_this. }
  unfold dragMove_this, unmaximize_this. rewrite Hr, Hm.
  assert ((clientY m - rect_top hr <? 5) = false) as -> by lia.
  rewrite andb_false_r. done.
Qed.

Lemma mouse_moves_translate hr (this : nat) w ms (env : PageEnv) :
  Drag.object env = Some this → Drag._threshold env = 0 →
  heap (Drag.world env) !! this = Some w → maximized w = false → resizing w = false →
  Forall (λ m, 5 ≤ clientY m - rect_top hr) ms →
  let env' := fold_left (λ env m, mouse_move hr m env) ms env in
  let p := List.last ms (mkMouseEvent (Drag.x env) (Drag.y env)) in
  Drag.object env' = Some this ∧ Drag._threshold env' = 0
  ∧ ∃ w', heap (Drag.world env') !! this = Some w'
          ∧ maximized w' = false ∧ resizing w' = false
          ∧ geometry w' = (x w + (clientX p - Drag.x env), y w + (clientY p - Drag.y env),
                           width w, height w).
Proof.
  intros Ho Ht Hw Hm Hr Hms. revert env w Ho Ht Hw Hm Hr.
  induction Hms as [|m ms Hy _ IH]; intros env w Ho Ht Hw Hm Hr.
  { simpl. split; [done|]. split; [done|]. exists w. repeat split; try done.
    unfold geometry. apply f_equal2; [apply f_equal2; [apply f_equal2|]|]; lia. }
  destruct (mouse_move_translates hr this w m env Ho Ht Hw Hm Hr Hy)
    as (H1 & H2 & H3 & H4 & w1 & Hw1 & Hm1 & Hr1 & Hg1).
  destruct (IH _ w1 H1 H2 Hw1 Hm1 Hr1) as (I1 & I2 & w' & Hw' & Hm' & Hr' & Hg').
  cbv zeta. rewrite last_cons_default. simpl.
  split; [done|]. split; [done|]. exists w'. repeat split; try done.
  rewrite Hg'. unfold geometry in Hg1. injection Hg1 as E1 E2 E3 E4.
  rewrite E1, E2, E3, E4, H3, H4.
  assert (mkMouseEvent (clientX m) (clientY m) = m) as -> by (by destruct m).
  apply f_equal2; [apply f_equal2; [apply f_equal2|]|]; lia.
Qed.

(** X21. A window that is neither maximized nor being resized is dragged
    by its title, the pointer staying 5 pixels or more below the top of the
    root: after every move the window is where it was, displaced by the way
    of the pointer since the press, with its size unchanged; the release
    repositions it into the root and ends the drag. *)
Theorem title_drag_follows_pointer hr (this : nat) w e0 ms (env : PageEnv) :
  let env1 := title_mousedown this e0 env in
  let env2 := fold_left (λ env m, mouse_move hr m env) ms env1 in
  let env3 := mouse_up hr env2 in
  let p := List.last ms e0 in
  heap (Drag.world env) !! this = Some w → maximized w = false → resizing w = false →
  Forall (λ m, 5 ≤ clientY m - rect_top hr) ms →
  Drag.object env3 = None
  ∧ ∃ w2, heap (Drag.world env2) !! this = Some w2
          ∧ geometry w2 = (x w + (clientX p - clientX e0), y w + (clientY p - clientY e0),
                           width w, height w)
          ∧ heap (Drag.world env3) !! this = Some (reposition_this hr w2).
Proof.
  intros env1 env2 env3 p Hw Hm Hr Hms.
  assert (env1 = Drag.mkEnv (Some this) (clientX e0) (clientY e0) 0
                   (window_focus this (Drag.world env))
                   (Drag.log env ++ [Drag.EPreventDefault e0])) as E1.
  { subst env1. rewrite (title_mousedown_spec this w) by done.
    unfold title_threshold. by rewrite Hm. }
  destruct (mouse_moves_translate hr this w ms env1) as (H1 & H2 & w2 & Hw2 & Hm2 & Hr2 & Hg2);
    [by rewrite E1|by rewrite E1
    |rewrite E1; simpl; unfold window_focus; by rewrite heap_focus|done|done|done|].
  fold env2 in H1, H2, Hw2.
  assert (env3 = Drag.mkEnv None (Drag.x env2) (Drag.y env2) 0
                   (dragEnd hr this (Drag.world env2))
                   (Drag.log env2 ++ [Drag.ECallDragEnd this])) as E3.
  { subst env3. unfold mouse_up, Drag.step.
    by rewrite (DragProps.mouseup_dragged _ _ this). }
  split; [by rewrite E3|].
  exists w2. split; [done|]. split.
  - rewrite Hg2, E1. simpl.
    assert (mkMouseEvent (clientX e0) (clientY e0) = e0) as -> by (by destruct e0).
    done.
  - rewrite E3. simpl. rewrite heap_dragEnd.
    erewrite lookup_alter_this by done. unfold dragEnd_this. by rewrite Hr2.
Qed.

Lemma title_drag_follows_pointer_witness :
  let env2 := fold_left (λ env m, mouse_move demo_host m env)
                [mkMouseEvent 200 30; mkMouseEvent 0 20]
                (title_mousedown 0 (mkMouseEvent 300 20) one_window) in
  Drag.object (mouse_up demo_host env2) = None
  ∧ ∃ w2, heap (Drag.world env2) !! 0%nat = Some w2
          ∧ geometry w2 = (-290, 10, 300, 200).
Proof.
  destruct (title_drag_follows_pointer demo_host 0%nat
              (mkWindow 0 0 0 "" false false None 10 10 300 200)
              (mkMouseEvent 300 20) [mkMouseEvent 200 30; mkMouseEvent 0 20] one_window)
    as (H1 & w2 & H2 & H3 & _);
    [vm_compute; reflexivity|reflexivity|reflexivity
    |repeat constructor; simpl; lia|].
  split; [exact H1|]. exists w2. split; [exact H2|exact H3].
Defined.

Lemma mouse_moves_run hr ms (env : PageEnv) :
  fold_left (λ env m, mouse_move hr m env) ms env
  = Drag.run (window_dragMove hr) (window_dragEnd hr) (map Drag.MouseMove ms) env.
Proof. revert env. induction ms as [|m ms IH]; intros env; [done|]. simpl. apply IH. Qed.

(** X24. The title of a maximized window is pressed and released with the
    pointer staying less than 10 pixels from the point of the press: the
    window is focused and nothing else happens. It stays maximized where it
    is, and neither [dragMove] nor [dragEnd] is called. *)
Theorem maximized_title_click hr (this : nat) w e0 ms (env : PageEnv) :
  let env1 := title_mousedown this e0 env in
  let env3 := mouse_up hr (fold_left (λ env m, mouse_move hr m env) ms env1) in
  heap (Drag.world env) !! this = Some w → maximized w = true →
  Forall (λ m, Drag.dist2 m (clientX e0) (clientY e0) < 10 * 10) ms →
  Drag.world env3 = window_focus this (Drag.world env)
  ∧ heap (Drag.world env3) !! this = Some w
  ∧ Drag.log env3 = Drag.log env ++ [Drag.EPreventDefault e0]
  ∧ Drag.object env3 = None.
Proof.
  intros env1 env3 Hw Hm Hms.
  assert (env1 = Drag.mkEnv (Some this) (clientX e0) (clientY e0) (10 * 10)
                   (window_focus this (Drag.world env))
                   (Drag.log env ++ [Drag.EPreventDefault e0])) as E1.
  { subst env1. rewrite (title_mousedown_spec this w) by done.
    unfold title_threshold. by rewrite Hm. }
  assert (env3 = Drag.mkEnv None (clientX e0) (clientY e0) (10 * 10)
                   (window_focus this (Drag.world env))
                   (Drag.log env ++ [Drag.EPreventDefault e0])) as E3.
  { subst env3. rewrite mouse_moves_run.
    rewrite (DragProps.run_pending _ _ this) by (rewrite E1; simpl; done).
    unfold mouse_up, Drag.step.
    rewrite (DragProps.mouseup_not_dragged _ _ this) by (rewrite E1; simpl; done).
    by rewrite E1. }
  rewrite E3. simpl. repeat split; try done.
  unfold window_focus. by rewrite heap_focus.
Qed.

Lemma maximized_title_click_witness :
  let env := Drag.set_world (maximize demo_host 0%nat (Drag.world one_window)) one_window in
  let env3 := mouse_up demo_host
                (fold_left (λ env m, mouse_move demo_host m env) [mkMouseEvent 103 20]
                   (title_mousedown 0 (mkMouseEvent 100 20) env)) in
  Drag.object env3 = None
  ∧ Drag.log env3 = Drag.log env ++ [Drag.EPreventDefault (mkMouseEvent 100 20)].
Proof.
  destruct (maximized_title_click demo_host 0%nat
              (mkWindow 0 0 0 "" false true (Some (mkPosition 10 10 300 200)) 0 0 800 600)
              (mkMouseEvent 100 20) [mkMouseEvent 103 20]
              (Drag.set_world (maximize demo_host 0%nat (Drag.world one_window)) one_window))
    as (_ & _ & H3 & H4);
    [vm_compute; reflexivity|reflexivity|repeat constructor|].
  split; [exact H4|exact H3].
Defined.

(** One move of a window that is being resized. *)
Lemma mouse_move_resizes hr (this : nat) w m (env : PageEnv) :
  Drag.object env = Some this → Drag._threshold env = 0 →
  heap (Drag.world env) !! this = Some w → resizing w = true →
  let env' := mouse_move hr m env in
  Drag.object env' = Some this ∧ Drag._threshold env' = 0
  ∧ Drag.x env' = clientX m ∧ Drag.y env' = clientY m
  ∧ body_cursor (Drag.world env') = body_cursor (Drag.world env)
  ∧ heap (Drag.world env') !! this
    = Some (resize_this (clientX m - Drag.x env) (clientY m - Drag.y env) w).
Proof.
  intros Ho Ht Hw Hr env'. subst env'. unfold mouse_move.
  rewrite (DragProps.step_dispatch _ _ this) by (done || by left). simpl.
  repeat split; try done.
  - unfold dragMove. rewrite Hw. cbv zeta. rewrite Hr.
    unfold updatePosition. repeat case_match; done.
  - rewrite heap_dragMove. erewrite lookup_alter_this by done.
    unfold dragMove_this. by rewrite Hr.
Qed.

(** The window [w], resized from the edges [(rx, ry)] by [(dx, dy)]. *)
Lemma resize_this_fields dx dy w :
  resize_this dx dy w
  = mkWindow (root w) (resizeX w) (resizeY w) (resizeCursor w) (resizing w) (maximized w)
      (oldPosition w)
      (if resizeX w <? 0 then x w + dx else x w)
      (if resizeY w <? 0 then y w + dy else y w)
      (width w + dx * resizeX w) (height w + dy * resizeY w).
Proof.
  unfold resize_this. destruct w as [rt rx ry rcur rsz mx op x1 y1 wd ht]. cbn.
  destruct (rx <? 0); cbn; destruct (ry <? 0); reflexivity.
Qed.

Lemma resize_this_zero w : resize_this 0 0 w = w.
Proof.
  rewrite resize_this_fields. destruct w as [rt rx ry rcur rsz mx op x1 y1 wd ht]. cbn.
  rewrite !Z.add_0_r. by destruct (rx <? 0), (ry <? 0).
Qed.

Lemma mouse_moves_resize hr (this : nat) w ms (env : PageEnv) :
  Drag.object env = Some this → Drag._threshold env = 0 →
  heap (Drag.world env) !! this = Some w → resizing w = true →
  let env' := fold_left (λ env m, mouse_move hr m env) ms env in
  let p := List.last ms (mkMouseEvent (Drag.x env) (Drag.y env)) in
  Drag.object env' = Some this ∧ Drag._threshold env' = 0
  ∧ body_cursor (Drag.world env') = body_cursor (Drag.world env)
  ∧ heap (Drag.world env') !! this
    = Some (resize_this (clientX p - Drag.x env) (clientY p - Drag.y env) w).
Proof.
  revert env w. induction ms as [|m ms IH]; intros env w Ho Ht Hw Hr.
  { simpl. repeat split; try done. by rewrite Hw, !Z.sub_diag, resize_this_zero. }
  destruct (mouse_move_resizes hr this w m env Ho Ht Hw Hr)
    as (H1 & H2 & H3 & H4 & H5 & H6).
  destruct (IH _ _ H1 H2 H6) as (I1 & I2 & I3 & I4).
  { by rewrite resize_this_fields. }
  cbv zeta. rewrite last_cons_default. simpl.
  split; [done|]. split; [done|]. split; [congruence|].
  rewrite I4, H3, H4.
  assert (mkMouseEvent (clientX m) (clientY m) = m) as -> by (by destruct m).
  f_equal. rewrite !resize_this_fields. simpl.
  destruct (resizeX w <? 0), (resizeY w <? 0); f_equal; lia.
Qed.

Lemma frame_mousedown_resize (this : nat) e0 (env : PageEnv) w0 :
  heap (window_focus this (Drag.world env)) !! this = Some w0 →
  maximized w0 = false → truthy (resizeX w0) || truthy (resizeY w0) = true →
  frame_mousedown this e0 env
  = Drag.mkEnv (Some this) (clientX e0) (clientY e0) 0
      (set_body_cursor (resizeCursor w0)
         (update_window this (set_resizing true) (window_focus this (Drag.world env))))
      (Drag.log env ++ [Drag.EPreventDefault e0]).
Proof.
  intros H0 Hm Htr. unfold frame_mousedown. cbv zeta. rewrite H0, Hm, Htr.
  change (negb false && true) with true. cbv iota.
  change (Drag.start this e0 0
            (Drag.set_world
               (root_mousedown_resize true this (window_focus this (Drag.world env))) env))
    with (Drag.handle (window_dragMove demo_host) (window_dragEnd demo_host)
            (Drag.Start this e0 0)
            (Drag.set_world
               (root_mousedown_resize true this (window_focus this (Drag.world env))) env)).
  rewrite DragProps.start_spec. simpl.
  unfold root_mousedown_resize. rewrite H0. simpl. by rewrite Hm, Htr.
Qed.

(** X25. A resize from the press to the release. The pointer is over the
    frame of a window that is neither maximized nor being resized, within
    20 pixels of an edge, and no drag is in progress; the button is pressed,
    the pointer moves and the button is released. While the button is down
    the page shows the cursor of the edge, the edge detection is off, and
    the window is resized by the way of the pointer since the press: the
    left or top edge follows it while the opposite edge stays, or the width
    or height grows by it. The release ends the resize, clears the edges
    and the cursors, repositions the window and ends the drag. *)
Theorem resize_session hr rc (this : nat) w e e0 ms (env : PageEnv) :
  let rx := edge_of (clientX e - rect_left rc) (rect_width rc) in
  let ry := edge_of (clientY e - rect_top rc) (rect_height rc) in
  let env1 := frame_mousedown this e0 (frame_mousemove hr rc this e env) in
  let env2 := fold_left (λ env m, mouse_move hr m env) ms env1 in
  let env3 := mouse_up hr env2 in
  let dx := clientX (List.last ms e0) - clientX e0 in
  let dy := clientY (List.last ms e0) - clientY e0 in
  Drag.object env = None →
  heap (Drag.world env) !! this = Some w → maximized w = false → resizing w = false →
  rx ≠ 0 ∨ ry ≠ 0 →
  body_cursor (Drag.world env2) = cursor_of rx ry
  ∧ (∀ rc' on_frame e', root_mousemove rc' on_frame e' this (Drag.world env2)
                        = Drag.world env2)
  ∧ heap (Drag.world env2) !! this
    = Some (mkWindow (root w) rx ry (cursor_of rx ry) true false (oldPosition w)
              (if rx <? 0 then x w + dx else x w)
              (if ry <? 0 then y w + dy else y w)
              (width w + dx * rx) (height w + dy * ry))
  ∧ heap (Drag.world env3) !! this
    = Some (reposition_this hr
              (mkWindow (root w) 0 0 "" false false (oldPosition w)
                 (if rx <? 0 then x w + dx else x w)
                 (if ry <? 0 then y w + dy else y w)
                 (width w + dx * rx) (height w + dy * ry)))
  ∧ body_cursor (Drag.world env3) = ""
  ∧ Drag.object env3 = None.
Proof.
  intros rx ry env1 env2 env3 dx dy Ho Hw Hm Hr Hedge.
  set (w1 := set_resizing true (set_resize rx ry (cursor_of rx ry) w)).
  assert (truthy rx || truthy ry = true) as Htr.
  { unfold truthy. destruct (Z.eqb_spec rx 0), (Z.eqb_spec ry 0); try done. lia. }
  set (s0 := window_focus this (root_mousemove rc true e this (Drag.world env))).
  assert (heap s0 !! this = Some (set_resize rx ry (cursor_of rx ry) w)) as H0.
  { subst s0. unfold window_focus. rewrite heap_focus, heap_root_mousemove.
    erewrite lookup_alter_this by done. unfold root_mousemove_this. by rewrite Hr, Hm. }
  assert (env1 = Drag.mkEnv (Some this) (clientX e0) (clientY e0) 0
                   (set_body_cursor (cursor_of rx ry)
                      (update_window this (set_resizing true) s0))
                   (Drag.log env ++ [Drag.EPreventDefault e0])) as E1.
  { subst env1. unfold frame_mousemove, mouse_move, Drag.step.
    rewrite DragProps.mousemove_idle by done.
    by rewrite (frame_mousedown_resize this e0 _ (set_resize rx ry (cursor_of rx ry) w)). }
  assert (heap (Drag.world env1) !! this = Some w1) as H1.
  { rewrite E1. simpl. by erewrite lookup_alter_this. }
  destruct (mouse_moves_resize hr this w1 ms env1) as (I1 & I2 & I3 & I4);
    [by rewrite E1|by rewrite E1|done|done|].
  fold env2 in I1, I2, I3, I4.
  assert (Drag.x env1 = clientX e0 ∧ Drag.y env1 = clientY e0) as [Ex Ey]
    by (by rewrite E1).
  rewrite Ex, Ey in I4.
  assert (mkMouseEvent (clientX e0) (clientY e0) = e0) as Ee0 by (by destruct e0).
  rewrite Ee0 in I4. fold dx dy in I4.
  rewrite resize_this_fields in I4. subst w1. simpl in I4. rewrite Hm in I4.
  split; [rewrite I3, E1; done|]. split.
  { intros rc' on_frame e'. unfold root_mousemove. by rewrite I4. }
  split; [done|].
  assert (env3 = Drag.mkEnv None (Drag.x env2) (Drag.y env2) 0
                   (dragEnd hr this (Drag.world env2))
                   (Drag.log env2 ++ [Drag.ECallDragEnd this])) as E3.
  { subst env3. unfold mouse_up, Drag.step.
    by rewrite (DragProps.mouseup_dragged _ _ this). }
  split; [|split; [|by rewrite E3]].
  - rewrite E3. simpl. rewrite heap_dragEnd.
    erewrite lookup_alter_this by done. done.
  - rewrite E3. simpl. unfold dragEnd. rewrite I4. simpl.
    unfold reposition, updatePosition. simpl. repeat case_match; done.
Qed.

Lemma resize_session_witness :
  let env1 := frame_mousedown 0 (mkMouseEvent 308 100)
                (frame_mousemove demo_host (mkRect 10 10 300 200) 0
                   (mkMouseEvent 308 100) one_window) in
  let env2 := fold_left (λ env m, mouse_move demo_host m env)
                [mkMouseEvent 350 100; mkMouseEvent 408 120] env1 in
  body_cursor (Drag.world env2) = "e-resize"
  ∧ geometry <$> (heap (Drag.world env2) !! 0%nat) = Some (10, 10, 400, 200)
  ∧ Drag.object (mouse_up demo_host env2) = None.
Proof.
  destruct (resize_session demo_host (mkRect 10 10 300 200) 0%nat
              (mkWindow 0 0 0 "" false false None 10 10 300 200)
              (mkMouseEvent 308 100) (mkMouseEvent 308 100)
              [mkMouseEvent 350 100; mkMouseEvent 408 120] one_window)
    as (H1 & _ & H3 & _ & _ & H6);
    [reflexivity|vm_compute; reflexivity|reflexivity|reflexivity
    |left; vm_compute; discriminate|].
  split; [exact H1|]. split; [|exact H6].
  rewrite H3. reflexivity.
Defined.

End PageMore.

(* ====================================================================== *)
(** * The tree initializer *)
(* ====================================================================== *)

Module TreesProps.
Import Trees.

Lemma init_item_group it :
  has_group it = true →
  let it' := init_item it in
  has_group it' = true ∧ shows_state it' ∧ is_Some (aria_expanded it')
  ∧ expanded it' = expanded it ∧ listeners it' = S (listeners it).
Proof.
  intros Hg. unfold init_item, shows_state, expanded. rewrite Hg.
  destruct it as [g [a|] [t|] n]; simpl in *; repeat split; try done; by eexists.
Qed.

Lemma init_item_leaf it : has_group it = false → init_item it = it.
Proof. intros Hg. unfold init_item. by rewrite Hg. Qed.

Lemma initTrees_cons i visits items :
  initTrees (i :: visits) items = initTrees visits (alter init_item i items).
Proof. done. Qed.

Lemma initTrees_other visits items i : i ∉ visits → initTrees visits items i = items i.
Proof.
  revert items. induction visits as [|j visits IH]; intros items Hi; [done|].
  apply not_elem_of_cons in Hi as [Hne Hi].
  rewrite initTrees_cons, IH by done. by rewrite fn_lookup_alter_ne.
Qed.

Lemma initTrees_leaf visits items i :
  has_group (items i) = false → initTrees visits items i = items i.
Proof.
  revert items. induction visits as [|j visits IH]; intros items Hg; [done|].
  rewrite initTrees_cons. destruct (decide (j = i)) as [->|Hne].
  - rewrite IH; rewrite fn_lookup_alter; by rewrite init_item_leaf.
  - rewrite IH; by rewrite fn_lookup_alter_ne.
Qed.

Lemma initTrees_keeps visits items i :
  has_group (items i) = true → shows_state (items i) → is_Some (aria_expanded (items i)) →
  let it' := initTrees visits items i in
  has_group it' = true ∧ shows_state it' ∧ is_Some (aria_expanded it')
  ∧ expanded it' = expanded (items i)
  ∧ listeners it' = (listeners (items i) + length (filter (λ j, j = i) visits))%nat.
Proof.
  revert items. induction visits as [|j visits IH]; intros items Hg Hs Ha.
  { simpl. repeat split; try done; lia. }
  cbv zeta. rewrite initTrees_cons. destruct (decide (j = i)) as [->|Hne].
  - destruct (init_item_group (items i) Hg) as (G1 & G2 & G3 & G4 & G5).
    destruct (IH (alter init_item i items)) as (I1 & I2 & I3 & I4 & I5);
      try (by rewrite fn_lookup_alter).
    rewrite fn_lookup_alter in I4, I5.
    rewrite filter_cons_True by done. simpl.
    repeat split; try done; [congruence|rewrite I5, G5; lia].
  - destruct (IH (alter init_item j items)) as (I1 & I2 & I3 & I4 & I5);
      try (by rewrite fn_lookup_alter_ne).
    rewrite fn_lookup_alter_ne in I4, I5 by done.
    rewrite filter_cons_False by done. done.
Qed.

(** X22. After [initTrees], every item with a group that the loops have
    reached has the attribute [aria-expanded] and a toggle that shows
    whether the item is expanded; whether it is expanded is as it was. Its
    listeners are registered once for each time it was reached. An item
    without a group, or one that was not reached, is left as it was. *)
Theorem initTrees_shows_state visits items i :
  let it' := initTrees visits items i in
  (i ∈ visits → has_group (items i) = true →
   shows_state it' ∧ is_Some (aria_expanded it')
   ∧ expanded it' = expanded (items i)
   ∧ listeners it' = (listeners (items i) + length (filter (λ j, j = i) visits))%nat)
  ∧ (i ∉ visits ∨ has_group (items i) = false → it' = items i).
Proof.
  intros it'. subst it'. split.
  - intros Hi Hg. revert items Hg. induction visits as [|j visits IH]; intros items Hg.
    { by apply elem_of_nil in Hi. }
    rewrite initTrees_cons. destruct (decide (j = i)) as [->|Hne].
    + destruct (init_item_group (items i) Hg) as (G1 & G2 & G3 & G4 & G5).
      destruct (initTrees_keeps visits (alter init_item i items) i)
        as (_ & I2 & I3 & I4 & I5); try (by rewrite fn_lookup_alter).
      rewrite fn_lookup_alter in I4, I5.
      rewrite filter_cons_True by done. simpl.
      repeat split; try done; [congruence|rewrite I5, G5; lia].
    + apply elem_of_cons in Hi as [->|Hi]; [done|].
      destruct (IH Hi (alter init_item j items)) as (I2 & I3 & I4 & I5);
        [by rewrite fn_lookup_alter_ne|].
      rewrite fn_lookup_alter_ne in I4, I5 by done.
      by rewrite filter_cons_False by done.
  - intros [Hi|Hg]; [by apply initTrees_other|by apply initTrees_leaf].
Qed.

Lemma initTrees_shows_state_witness :
  let items := λ i : nat, mkItem true (if (i =? 0)%nat then Some "true" else None) None 0 in
  toggle (initTrees [0; 1; 0]%nat items 0%nat) = Some "▾"
  ∧ toggle (initTrees [0; 1; 0]%nat items 1%nat) = Some "▸"
  ∧ listeners (initTrees [0; 1; 0]%nat items 0%nat) = 2%nat.
Proof.
  split; [|split].
  - destruct (initTrees_shows_state [0; 1; 0]%nat
                (λ i : nat, mkItem true (if (i =? 0)%nat then Some "true" else None) None 0)
                0%nat) as [H _].
    destruct H as (H1 & _); [apply list_elem_of_here|reflexivity|]. exact H1.
  - reflexivity.
  - reflexivity.
Defined.

Lemma toggleExpand_expanded it : expanded (toggleExpand it) = negb (expanded it).
Proof.
  unfold toggleExpand, expanded.
  destruct it as [g a [t|] n]; simpl; by destruct (bool_decide (a = Some "true")).
Qed.

(** X23. [toggleExpand] flips whether the item is expanded, and the toggle,
    when there is one, shows the new state, whatever it showed before.
    Two calls restore an item whose attribute was [true] or [false] and
    whose toggle, if any, showed that; so a click changes nothing on such
    an item when its listeners are registered twice. *)
Theorem toggleExpand_flips it :
  expanded (toggleExpand it) = negb (expanded it)
  ∧ (is_Some (toggle it) → shows_state (toggleExpand it))
  ∧ (toggle it = None → toggle (toggleExpand it) = None)
  ∧ ((aria_expanded it = Some "true" ∨ aria_expanded it = Some "false") →
     (toggle it = None ∨ shows_state it) →
     toggleExpand (toggleExpand it) = it
     ∧ (listeners it = 2%nat → click it = it)).
Proof.
  split; [apply toggleExpand_expanded|]. split; [|split].
  - intros [t Ht]. unfold shows_state. rewrite toggleExpand_expanded.
    unfold toggleExpand. simpl. rewrite Ht. simpl. by destruct (expanded it).
  - intros Ht. unfold toggleExpand. simpl. by rewrite Ht.
  - intros Ha Ht.
    assert (toggleExpand (toggleExpand it) = it) as E.
    { unfold shows_state, expanded in Ht. unfold toggleExpand, expanded.
      destruct it as [g a t n]; simpl in *.
      by destruct Ha as [-> | ->], Ht as [-> | ->]. }
    split; [done|]. intros Hl. unfold click. by rewrite Hl.
Qed.

End TreesProps.
